(** * SparseMatrix: a cross-linked sparse matrix (src/matrix.py)

    The Python program stores the non-zero entries of a matrix as [Node]
    objects.  Every node is linked twice: through [right] into the chain of its
    row and through [down] into the chain of its column.  The nodes are mutable
    and shared between the two chains, so the embedding keeps them in an
    explicit store (an arena of nodes addressed by their allocation index) and
    every method is a computation over that store.

    Conventions of the embedding:
    - coordinates and dimensions are natural numbers (the negative indices of
      Python, which count from the end of a list, are outside the model);
    - matrix elements are exact numbers, modelled as [Z]: the program only
      adds, multiplies and compares them with zero;
    - a Python exception is an outcome [Raise e h] that carries the store at
      the moment of the raise;
    - a [while] loop is iterated with a bound on its number of iterations;
      running out of the bound is the outcome [Raise NonTermination]. *)

From stdpp Require Import base list sorting.
From Stdlib Require Import ZArith Lia.

Local Open Scope nat_scope.

(** ** The store *)

Abbreviation addr := nat (only parsing).

Module Node.
(** [class Node]: the coordinates of an entry, its value and the links to
    the next entry to the right (same row) and below (same column). *)
Record t := mk {
  row : nat;
  col : nat;
  el : Z;
  right : option addr;
  down : option addr
}.

Definition with_el (n : t) (v : Z) : t := mk (row n) (col n) v (right n) (down n).
Definition with_right (n : t) (r : option addr) : t := mk (row n) (col n) (el n) r (down n).
Definition with_down (n : t) (d : option addr) : t := mk (row n) (col n) (el n) (right n) d.
End Node.

Abbreviation heap := (list Node.t) (only parsing).

Inductive exn :=
| ValueError        (* raised by the program: dimensions do not match *)
| IndexError        (* list index out of range *)
| AttributeError    (* attribute access on None *)
| Dangling          (* an address outside the store: no Python counterpart *)
| NonTermination.   (* the iteration bound of a loop was exhausted *)

Inductive outcome (A : Type) :=
| Return (a : A) (h : heap)
| Raise (e : exn) (h : heap).
Arguments Return {A} a h.
Arguments Raise {A} e h.

Definition M (A : Type) : Type := heap -> outcome A.

Definition ret {A} (a : A) : M A := fun h => Return a h.
Definition raise {A} (e : exn) : M A := fun h => Raise e h.
Definition bind {A B} (m : M A) (f : A -> M B) : M B :=
  fun h => match m h with
           | Return a h' => f a h'
           | Raise e h' => Raise e h'
           end.

Notation "'let*' p ':=' m 'in' k" := (bind m (fun p => k))
  (at level 10, p pattern, m at level 100, k at level 200).
Notation "m ;; k" := (bind m (fun _ => k))
  (at level 100, right associativity).

Definition load (a : addr) : M Node.t :=
  fun h => match h !! a with
           | Some n => Return n h
           | None => Raise Dangling h
           end.

Definition store (a : addr) (n : Node.t) : M unit :=
  fun h => match h !! a with
           | Some _ => Return tt (<[a:=n]> h)
           | None => Raise Dangling h
           end.

(** [Node(row, col, el, right, down)]: the new object gets the next address. *)
Definition alloc (n : Node.t) : M addr :=
  fun h => Return (length h) (h ++ [n]).

(** Attribute access [p.x] on a reference that may be [None]. *)
Definition deref (p : option addr) : M Node.t :=
  match p with
  | Some a => load a
  | None => raise AttributeError
  end.

Definition set_right (p : option addr) (r : option addr) : M unit :=
  match p with
  | Some a => let* n := load a in store a (Node.with_right n r)
  | None => raise AttributeError
  end.

Definition set_down (p : option addr) (d : option addr) : M unit :=
  match p with
  | Some a => let* n := load a in store a (Node.with_down n d)
  | None => raise AttributeError
  end.

Definition set_el (p : option addr) (v : Z) : M unit :=
  match p with
  | Some a => let* n := load a in store a (Node.with_el n v)
  | None => raise AttributeError
  end.

(** [l[i]] and [l[i] = x] on a Python list. *)
Definition index {A} (l : list A) (i : nat) : M A :=
  match l !! i with
  | Some x => ret x
  | None => raise IndexError
  end.

Definition assign {A} (l : list A) (i : nat) (x : A) : M (list A) :=
  if decide (i < length l) then ret (<[i:=x]> l) else raise IndexError.

(** [while cond: body] over the loop state [St], at most [fuel] tests of the
    condition. *)
Fixpoint while {St : Type} (fuel : nat) (cond : St -> M bool) (body : St -> M St)
    (s : St) : M St :=
  match fuel with
  | 0 => raise NonTermination
  | S fuel' =>
      let* b := cond s in
      if b : bool then let* s' := body s in while fuel' cond body s' else ret s
  end.

(** A walk along a chain of distinct nodes tests its condition at most once
    per node of the store and once at the end. *)
Definition chain_fuel : M nat := fun h => Return (S (length h)) h.

(** ** The matrix *)

Record Matrix := mkMatrix {
  nrows : nat;
  ncols : nat;
  _prow : list (option addr);
  _pcol : list (option addr)
}.

Definition with_prow (self : Matrix) (l : list (option addr)) : Matrix :=
  mkMatrix (nrows self) (ncols self) l (_pcol self).
Definition with_pcol (self : Matrix) (l : list (option addr)) : Matrix :=
  mkMatrix (nrows self) (ncols self) (_prow self) l.

(** [Matrix.__init__]: the matrix [Matrix(nrows, ncols)], without entries. *)
Definition __init__ (nrows ncols : nat) : Matrix :=
  mkMatrix nrows ncols (replicate nrows None) (replicate ncols None).

(** [Matrix._findnode]: the node for [(row, col)] and the previous node of
    the same row. *)
Definition _findnode (self : Matrix) (row col : nat) : M (option addr * option addr) :=
  let* p := index (_prow self) row in
  let* fuel := chain_fuel in
  let* (p, q) := while fuel
      (fun '(p, q) =>
         match p with
         | None => ret false
         | Some a => let* n := load a in ret (Node.col n <? col)
         end)
      (fun '(p, q) => let* n := deref p in ret (Node.right n, p))
      (p, None) in
  match p with
  | None => ret (p, q)
  | Some a =>
      let* n := load a in
      if Node.col n =? col then ret (p, q) else ret (None, q)
  end.

(** [Matrix._insertnode]: a new node for [(row, col)] with value [el]; [q] is
    the previous node of the row, or [None]. *)
Definition _insertnode (self : Matrix) (row col : nat) (q : option addr) (el : Z)
    : M Matrix :=
  let* n := alloc (Node.mk row col el None None) in
  let* self := match q with
          | Some _ =>
              let* qn := deref q in
              set_right (Some n) (Node.right qn) ;;
              set_right q (Some n) ;;
              ret self
          | None =>
              let* r := index (_prow self) row in
              set_right (Some n) r ;;
              let* l := assign (_prow self) row (Some n) in
              ret (with_prow self l)
          end in
  let* p := index (_pcol self) col in
  let* fuel := chain_fuel in
  let* (p, m) := while fuel
      (fun '(p, m) =>
         match p with
         | None => ret false
         | Some a => let* pn := load a in ret (Node.row pn <? row)
         end)
      (fun '(p, m) => let* pn := deref p in ret (Node.down pn, p))
      (p, None) in
  let* at_end := match p with
            | None => ret true
            | Some a => let* pn := load a in ret (Node.row pn =? row)
            end in
  if at_end : bool then
    match m with
    | Some _ => set_down m (Some n) ;; ret self
    | None => let* l := assign (_pcol self) col (Some n) in ret (with_pcol self l)
    end
  else
    set_down (Some n) p ;;
    match m with
    | None => let* l := assign (_pcol self) col (Some n) in ret (with_pcol self l)
    | Some _ => set_down m (Some n) ;; ret self
    end.

(** [Matrix._removenode]: remove the node [p]; [q] is the previous node of
    the row, or [None]. *)
Definition _removenode (self : Matrix) (p q : option addr) : M Matrix :=
  let* self := match q with
          | Some _ =>
              let* pn := deref p in
              match Node.right pn with
              | Some r => set_right q (Some r)
              | None => set_right q None
              end ;;
              ret self
          | None =>
              let* pn := deref p in
              match Node.right pn with
              | Some r =>
                  let* pn := deref p in
                  let* l := assign (_prow self) (Node.row pn) (Some r) in
                  ret (with_prow self l)
              | None =>
                  let* pn := deref p in
                  let* l := assign (_prow self) (Node.row pn) None in
                  ret (with_prow self l)
              end
          end in
  let* pn := deref p in
  let* c := index (_pcol self) (Node.col pn) in
  if decide (c = p) then
    let* pn := deref p in
    match Node.down pn with
    | Some d => let* l := assign (_pcol self) (Node.col pn) (Some d) in ret (with_pcol self l)
    | None => let* l := assign (_pcol self) (Node.col pn) None in ret (with_pcol self l)
    end
  else
    let* pn := deref p in
    let* n := index (_pcol self) (Node.col pn) in
    let* fuel := chain_fuel in
    let* (n, m) := while fuel
        (fun '(n, m) =>
           let* nn := deref n in let* pn := deref p in
           ret (negb (Node.row nn =? Node.row pn)))
        (fun '(n, m) => let* nn := deref n in ret (Node.down nn, n))
        (n, None) in
    let* pn := deref p in
    match Node.down pn with
    | Some d => set_down m (Some d)
    | None => set_down m None
    end ;;
    ret self.

(** [Matrix.__getitem__] *)
Definition __getitem__ (self : Matrix) (row col : nat) : M Z :=
  let* (p, q) := _findnode self row col in
  match p with
  | None => ret 0%Z
  | Some a => let* n := load a in ret (Node.el n)
  end.

(** [Matrix.__setitem__] *)
Definition __setitem__ (self : Matrix) (row col : nat) (el : Z) : M Matrix :=
  let* (p, q) := _findnode self row col in
  match p with
  | None =>
      if negb (el =? 0)%Z then _insertnode self row col q el else ret self
  | Some _ =>
      if (el =? 0)%Z then _removenode self p q
      else set_el p el ;; ret self
  end.

(** [Matrix.__eq__]: the rows [rows] still to compare.  The third component
    of the loop state is the value of a [return] met inside the loop. *)
Fixpoint eq_rows (self rhs : Matrix) (rows : list nat) : M bool :=
  match rows with
  | [] => ret true
  | row :: rows' =>
      let* p1 := index (_prow self) row in
      let* p2 := index (_prow rhs) row in
      let* fuel := chain_fuel in
      let* (p1, p2, r) := while fuel
          (fun '(p1, p2, r) =>
             ret (bool_decide (r = None) && bool_decide (p1 ≠ None)
                  && bool_decide (p2 ≠ None)))
          (fun '(p1, p2, r) =>
             let* n1 := deref p1 in
             let* n2 := deref p2 in
             if negb (Node.col n1 =? Node.col n2) || negb (Node.el n1 =? Node.el n2)%Z
             then ret (p1, p2, Some false)
             else ret (Node.right n1, Node.right n2, r))
          (p1, p2, @None bool) in
      match r with
      | Some b => ret b
      | None =>
          if bool_decide (p1 ≠ None) || bool_decide (p2 ≠ None) then ret false
          else eq_rows self rhs rows'
      end
  end.

Definition __eq__ (self rhs : Matrix) : M bool :=
  if negb (nrows self =? nrows rhs) || negb (ncols self =? ncols rhs) then ret false
  else eq_rows self rhs (seq 0 (nrows self)).

(** [i != n - 1] on Python integers: [n - 1] is [-1] when [n] is [0]. *)
Definition neq_pred (i n : nat) : bool :=
  negb (Z.of_nat i =? Z.of_nat n - 1)%Z.

(** A scan that moves an index forward through a list of heads tests its
    condition at most once per head and once at the end. *)
Definition scan_fuel (l : list (option addr)) : nat := S (length l).

(** [result[i] += entry] on a list of numbers. *)
Definition add_at (result : list Z) (i : nat) (entry : Z) : M (list Z) :=
  let* x := index result i in
  assign result i (x + entry)%Z.

(** [Matrix.__mul__]: multiply the matrix with a vector from the right. *)
Definition __mul__ (self : Matrix) (rhs : list Z) : M (list Z) :=
  if negb (ncols self =? length rhs) then raise ValueError
  else
    let result := replicate (nrows self) 0%Z in
    let* p := index (_prow self) 0 in
    let i := 0 in
    let* (i, p) := while (scan_fuel (_prow self))
        (fun '(i, p) => ret (bool_decide (p = None)))
        (fun '(i, p) =>
           let i := i + 1 in
           let* p := index (_prow self) i in
           ret (i, p))
        (i, p) in
    let* (result, i, p) := while (scan_fuel (_prow self))
        (fun '(result, i, p) => ret (neq_pred i (nrows self)))
        (fun '(result, i, p) =>
           let entry := 0%Z in
           let q := p in
           let* fuel := chain_fuel in
           let* (entry, q) := while fuel
               (fun '(entry, q) =>
                  match q with
                  | None => ret false
                  | Some a => let* qn := load a in ret (negb (Node.col qn =? ncols self))
                  end)
               (fun '(entry, q) =>
                  let* qn := deref q in
                  let* x := index rhs (Node.col qn) in
                  ret ((entry + Node.el qn * x)%Z, Node.right qn))
               (entry, q) in
           let* result := add_at result i entry in
           let i := i + 1 in
           let* p := index (_prow self) i in
           ret (result, i, p))
        (result, i, p) in
    let entry := 0%Z in
    let* fuel := chain_fuel in
    let* (entry, p) := while fuel
        (fun '(entry, p) =>
           match p with
           | None => ret false
           | Some a => let* pn := load a in ret (negb (Node.col pn =? ncols self))
           end)
        (fun '(entry, p) =>
           let* pn := deref p in
           let* x := index rhs (Node.col pn) in
           ret ((entry + Node.el pn * x)%Z, Node.right pn))
        (entry, p) in
    let* result := add_at result i entry in
    ret result.

(** [Matrix.__rmul__]: multiply the matrix with a vector from the left. *)
Definition __rmul__ (self : Matrix) (lhs : list Z) : M (list Z) :=
  if negb (nrows self =? length lhs) then raise ValueError
  else
    let result := replicate (ncols self) 0%Z in
    let* p := index (_pcol self) 0 in
    let i := 0 in
    let* (i, p) := while (scan_fuel (_pcol self))
        (fun '(i, p) => ret (bool_decide (p = None)))
        (fun '(i, p) =>
           let i := i + 1 in
           let* p := index (_pcol self) i in
           ret (i, p))
        (i, p) in
    let* (result, i, p) := while (scan_fuel (_pcol self))
        (fun '(result, i, p) => ret (neq_pred i (ncols self)))
        (fun '(result, i, p) =>
           let entry := 0%Z in
           let q := p in
           let* fuel := chain_fuel in
           let* (entry, q) := while fuel
               (fun '(entry, q) =>
                  match q with
                  | None => ret false
                  | Some a => let* qn := load a in ret (negb (Node.row qn =? nrows self))
                  end)
               (fun '(entry, q) =>
                  let* qn := deref q in
                  let* x := index lhs (Node.row qn) in
                  ret ((entry + x * Node.el qn)%Z, Node.down qn))
               (entry, q) in
           let* result := add_at result i entry in
           let i := i + 1 in
           let* p := index (_pcol self) i in
           ret (result, i, p))
        (result, i, p) in
    let entry := 0%Z in
    let* fuel := chain_fuel in
    let* (entry, p) := while fuel
        (fun '(entry, p) =>
           match p with
           | None => ret false
           | Some a => let* pn := load a in ret (negb (Node.row pn =? nrows self))
           end)
        (fun '(entry, p) =>
           let* pn := deref p in
           let* x := index lhs (Node.row pn) in
           ret ((entry + x * Node.el pn)%Z, Node.down pn))
        (entry, p) in
    let* result := add_at result i entry in
    ret result.

(** [Matrix.transposed] *)
Definition transposed (self : Matrix) : M Matrix :=
  let result := __init__ (ncols self) (nrows self) in
  let* p := index (_pcol self) 0 in
  let i := 0 in
  let* (i, p) := while (scan_fuel (_pcol self))
      (fun '(i, p) => ret (bool_decide (p = None)))
      (fun '(i, p) =>
         let i := i + 1 in
         let* p := index (_pcol self) i in
         ret (i, p))
      (i, p) in
  let* m := index (_prow result) i in
  let* (result, i, p, m) := while (scan_fuel (_pcol self))
      (fun '(result, i, p, m) => ret (neq_pred i (ncols self)))
      (fun '(result, i, p, m) =>
         let* pn := deref p in
         let* result := _insertnode result i (Node.row pn) m (Node.el pn) in
         let* pn := deref p in
         let q := Node.down pn in
         let* m := index (_prow result) i in
         let* fuel := chain_fuel in
         let* (result, m, q) := while fuel
             (fun '(result, m, q) =>
                match q with
                | None => ret false
                | Some a => let* qn := load a in ret (negb (Node.row qn =? nrows self))
                end)
             (fun '(result, m, q) =>
                let* qn := deref q in
                let* result := _insertnode result i (Node.row qn) m (Node.el qn) in
                let* mn := deref m in
                let m := Node.right mn in
                let* qn := deref q in
                let q := Node.down qn in
                ret (result, m, q))
             (result, m, q) in
         let i := i + 1 in
         let* i := while (scan_fuel (_pcol self))
             (fun i =>
                let* c := index (_pcol self) i in
                ret (bool_decide (c = None) && neq_pred i (ncols self)))
             (fun i => ret (i + 1))
             i in
         let* p := index (_pcol self) i in
         let* m := index (_prow result) i in
         ret (result, i, p, m))
      (result, i, p, m) in
  let* fuel := chain_fuel in
  let* (result, p, m) := while fuel
      (fun '(result, p, m) =>
         match p with
         | None => ret false
         | Some a => let* pn := load a in ret (negb (Node.row pn =? nrows self))
         end)
      (fun '(result, p, m) =>
         let* pn := deref p in
         let* result := _insertnode result i (Node.row pn) m (Node.el pn) in
         let* m := match m with
                   | None => index (_prow result) i
                   | Some _ => let* mn := deref m in ret (Node.right mn)
                   end in
         let* pn := deref p in
         ret (result, Node.down pn, m))
      (result, p, m) in
  ret result.

(** The body of the two merge loops of [Matrix.__add__] (the same statements
    in both, over [q] in the loop of the inner rows and over [p] in the loop of
    the last row): merge the entry [q] of the right operand into row [i] of
    [result], whose cursor is [m]. *)
Definition merge_entry (result : Matrix) (i : nat) (m q : option addr)
    : M (Matrix * option addr) :=
  let* qn := deref q in
  match m with
  | None =>
      let* result := _insertnode result i (Node.col qn) m (Node.el qn) in
      let* m := index (_prow result) i in
      ret (result, m)
  | Some _ =>
      let* mn := deref m in
      if Node.col qn <? Node.col mn then
        let* result := _insertnode result i (Node.col qn) None (Node.el qn) in
        let* m := index (_prow result) i in
        ret (result, m)
      else if Node.col mn =? Node.col qn then
        if (Node.el mn + Node.el qn =? 0)%Z then
          let* (a, b) := _findnode result i (Node.col mn) in
          let* result := _removenode result a b in
          ret (result, m)
        else
          set_el m (Node.el mn + Node.el qn)%Z ;;
          ret (result, m)
      else
        let n := m in
        let* fuel := chain_fuel in
        let* (result, m, n) := while (S fuel)
            (fun '(result, m, n) =>
               match n with
               | None => ret false
               | Some a => let* nn := load a in ret (Node.col nn <? Node.col qn)
               end)
            (fun '(result, m, n) =>
               let* nn := deref n in
               let n := Node.right nn in
               let* above := match n with
                             | None => ret true
                             | Some a => let* nn := load a in ret (Node.col qn <? Node.col nn)
                             end in
               let* (result, m, n) :=
                 if above : bool then
                   let* result := _insertnode result i (Node.col qn) m (Node.el qn) in
                   let* mn := deref m in
                   let m := Node.right mn in
                   let n := m in
                   ret (result, m, n)
                 else
                   let* nn := deref n in
                   if Node.col nn =? Node.col qn then
                     if (Node.el nn + Node.el qn =? 0)%Z then
                       let* (a, b) := _findnode result i (Node.col nn) in
                       let* result := _removenode result a b in
                       ret (result, m, n)
                     else
                       set_el n (Node.el nn + Node.el qn)%Z ;;
                       ret (result, m, n)
                   else ret (result, m, n) in
               match n with
               | Some _ => ret (result, n, n)
               | None => ret (result, m, n)
               end)
            (result, m, n) in
        ret (result, m)
  end.

(** [Matrix.__add__] *)
Definition __add__ (self rhs : Matrix) : M Matrix :=
  if negb (nrows self =? nrows rhs) || negb (ncols self =? ncols rhs)
  then raise ValueError
  else
    let result := __init__ (nrows self) (ncols self) in
    let i := 0 in
    let* p := index (_prow self) i in
    let* (i, p) := while (scan_fuel (_prow self))
        (fun '(i, p) => ret (bool_decide (p = None)))
        (fun '(i, p) =>
           let i := i + 1 in
           let* p := index (_prow self) i in
           ret (i, p))
        (i, p) in
    let* m := index (_prow result) i in
    let* (result, i, p, m) := while (scan_fuel (_prow self))
        (fun '(result, i, p, m) => ret (neq_pred i (nrows self)))
        (fun '(result, i, p, m) =>
           let* pn := deref p in
           let* result := _insertnode result i (Node.col pn) m (Node.el pn) in
           let* m := index (_prow result) i in
           let* pn := deref p in
           let q := Node.right pn in
           let* m := index (_prow result) i in
           let* fuel := chain_fuel in
           let* (result, m, q) := while fuel
               (fun '(result, m, q) =>
                  match q with
                  | None => ret false
                  | Some a => let* qn := load a in ret (negb (Node.col qn =? ncols self))
                  end)
               (fun '(result, m, q) =>
                  let* qn := deref q in
                  let* result := _insertnode result i (Node.col qn) m (Node.el qn) in
                  let* mn := deref m in
                  let m := Node.right mn in
                  let* qn := deref q in
                  let q := Node.right qn in
                  ret (result, m, q))
               (result, m, q) in
           let i := i + 1 in
           let* i := while (scan_fuel (_prow self))
               (fun i =>
                  let* c := index (_prow self) i in
                  ret (bool_decide (c = None) && neq_pred i (nrows self)))
               (fun i => ret (i + 1))
               i in
           let* p := index (_prow self) i in
           let* m := index (_prow result) i in
           ret (result, i, p, m))
        (result, i, p, m) in
    let* fuel := chain_fuel in
    let* (result, p, m) := while fuel
        (fun '(result, p, m) =>
           match p with
           | None => ret false
           | Some a => let* pn := load a in ret (negb (Node.col pn =? ncols self))
           end)
        (fun '(result, p, m) =>
           let* pn := deref p in
           let* result := _insertnode result i (Node.col pn) m (Node.el pn) in
           let* m := match m with
                     | None => index (_prow result) i
                     | Some _ => let* mn := deref m in ret (Node.right mn)
                     end in
           let* pn := deref p in
           ret (result, Node.right pn, m))
        (result, p, m) in
    let i := 0 in
    let* p := index (_prow rhs) i in
    let* (i, p) := while (scan_fuel (_prow rhs))
        (fun '(i, p) => ret (bool_decide (p = None)))
        (fun '(i, p) =>
           let i := i + 1 in
           let* p := index (_prow rhs) i in
           ret (i, p))
        (i, p) in
    let* m := index (_prow result) i in
    let* (result, i, p, m) := while (scan_fuel (_prow rhs))
        (fun '(result, i, p, m) => ret (neq_pred i (nrows self)))
        (fun '(result, i, p, m) =>
           let q := p in
           let* fuel := chain_fuel in
           let* (result, m, q) := while fuel
               (fun '(result, m, q) =>
                  match q with
                  | None => ret false
                  | Some a => let* qn := load a in ret (negb (Node.col qn =? ncols self))
                  end)
               (fun '(result, m, q) =>
                  let* (result, m) := merge_entry result i m q in
                  let* qn := deref q in
                  ret (result, m, Node.right qn))
               (result, m, q) in
           let i := i + 1 in
           let* i := while (scan_fuel (_prow rhs))
               (fun i =>
                  let* c := index (_prow rhs) i in
                  ret (bool_decide (c = None) && neq_pred i (nrows self)))
               (fun i => ret (i + 1))
               i in
           let* p := index (_prow rhs) i in
           let* m := index (_prow result) i in
           ret (result, i, p, m))
        (result, i, p, m) in
    let* fuel := chain_fuel in
    let* (result, m, p) := while fuel
        (fun '(result, m, p) =>
           match p with
           | None => ret false
           | Some a => let* pn := load a in ret (negb (Node.col pn =? ncols self))
           end)
        (fun '(result, m, p) =>
           let* (result, m) := merge_entry result i m p in
           let* pn := deref p in
           ret (result, m, Node.right pn))
        (result, m, p) in
    ret result.

(** [for x in l: body] over the loop state [St]. *)
Fixpoint for_each {A St : Type} (l : list A) (body : A -> St -> M St) (s : St)
    : M St :=
  match l with
  | [] => ret s
  | x :: l' => let* s' := body x s in for_each l' body s'
  end.

(** [identity]: the n x n identity matrix. *)
Definition identity (n : nat) : M Matrix :=
  for_each (seq 0 n) (fun i m => __setitem__ m i i 1%Z) (__init__ n n).
(** ** Reading the store *)

(** The field [f] of the node at address [a], if there is one. *)
Definition fld {X} (f : Node.t -> X) (h : heap) (a : addr) : option X :=
  f <$> h !! a.

(** ** Chains *)

(** [lseg nxt h o l e]: following [nxt] from the reference [o] visits the
    addresses [l], in this order, and ends at the reference [e]. *)
Fixpoint lseg (nxt : Node.t -> option addr) (h : heap) (o : option addr)
    (l : list addr) (e : option addr) : Prop :=
  match l with
  | [] => o = e
  | a :: l' => o = Some a /\ exists o', fld nxt h a = Some o' /\ lseg nxt h o' l' e
  end.

(** The key of the node at [a]: its column in a row chain, its row in a
    column chain. *)
Definition key_at (key : Node.t -> nat) (h : heap) (a : addr) : nat :=
  default 0 (fld key h a).

(** The loop [while p is not None and p.key < k: q = p; p = p.nxt] of
    [_findnode] (along [right], by column) and of [_insertnode] (along
    [down], by row), on the loop state [(p, q)]. *)
Definition walk_cond (key : Node.t -> nat) (k : nat)
    : option addr * option addr -> M bool :=
  fun '(p, q) =>
    match p with
    | None => ret false
    | Some a => let* n := load a in ret (key n <? k)
    end.

Definition walk_body (nxt : Node.t -> option addr)
    : option addr * option addr -> M (option addr * option addr) :=
  fun '(p, q) => let* n := deref p in ret (nxt n, p).

(** The last address of [l], or [q0] when [l] is empty. *)
Definition last_or (q0 : option addr) (l : list addr) : option addr :=
  match last l with
  | Some a => Some a
  | None => q0
  end.

(** The loop [while p is None: i += 1; p = heads[i]] that opens [__mul__],
    [__rmul__], [transposed] and both phases of [__add__], on the loop state
    [(i, p)]. *)
Definition scan_cond : nat * option addr -> M bool :=
  fun '(i, p) => ret (bool_decide (p = None)).

Definition scan_body (heads : list (option addr))
    : nat * option addr -> M (nat * option addr) :=
  fun '(i, p) =>
    let i := i + 1 in
    let* p := index heads i in
    ret (i, p).

(** ** The invariants of the data model *)

(** The chain of index [i] among the heads [heads] visits the addresses [l]:
    every node has [fixed] equal to [i] and a key below [bound], and the keys
    strictly increase along the chain. *)
Record chain_ok (nxt : Node.t -> option addr) (key fixed : Node.t -> nat)
    (bound : nat) (h : heap) (heads : list (option addr)) (i : nat)
    (l : list addr) : Prop := {
  ok_lseg : exists o, heads !! i = Some o /\ lseg nxt h o l None;
  ok_nodes : Forall (fun a => fld fixed h a = Some i /\ key_at key h a < bound) l;
  ok_sorted : StronglySorted lt (key_at key h <$> l)
}.

(** I1: the row chain [r] visits [l], with strictly increasing columns. *)
Definition row_chain_ok (self : Matrix) (h : heap) (r : nat) (l : list addr) : Prop :=
  chain_ok Node.right Node.col Node.row (ncols self) h (_prow self) r l.

(** I2: the column chain [c] visits [l], with strictly increasing rows. *)
Definition col_chain_ok (self : Matrix) (h : heap) (c : nat) (l : list addr) : Prop :=
  chain_ok Node.down Node.row Node.col (nrows self) h (_pcol self) c l.

(** The address [a] occurs in one of the chains [L]. *)
Definition in_chains (L : list (list addr)) (a : addr) : Prop :=
  exists i l, L !! i = Some l /\ a ∈ l.

(** The matrix [self] is well formed in the store [h]; its row chains are
    [R] and its column chains are [C]. *)
Record wf (self : Matrix) (h : heap) (R C : list (list addr)) : Prop := {
  wf_prow : length (_prow self) = nrows self;
  wf_pcol : length (_pcol self) = ncols self;
  wf_R : length R = nrows self;
  wf_C : length C = ncols self;
  wf_rows : forall r l, R !! r = Some l -> row_chain_ok self h r l;
  wf_cols : forall c l, C !! c = Some l -> col_chain_ok self h c l;
  wf_same : forall a, in_chains R a <-> in_chains C a
}.

(** The value that a row chain [l] holds at column [c]: the element of its
    first node of that column, zero when there is none. *)
Fixpoint lookup_row (h : heap) (l : list addr) (c : nat) : Z :=
  match l with
  | [] => 0%Z
  | a :: l' =>
      if key_at Node.col h a =? c then default 0%Z (fld Node.el h a)
      else lookup_row h l' c
  end.

(** The node that [_findnode] reports for column [c] when its walk stops
    in front of the chain [l2]. *)
Definition hit (h : heap) (l2 : list addr) (c : nat) : option addr :=
  match head l2 with
  | Some b => if key_at Node.col h b =? c then Some b else None
  | None => None
  end.

(** ** The store after a method has run *)

(** The store [h] with the node at [p] (when there is one) replaced by its
    image under [g]. *)
Definition upd (g : Node.t -> Node.t) (p : option addr) (h : heap) : heap :=
  match p with
  | Some a =>
      match h !! a with
      | Some n => <[a:=g n]> h
      | None => h
      end
  | None => h
  end.

(** The store after [_insertnode]: the new node, at address [length h], sits
    between [q] and [succ] in its row and between [m] and [below] in its
    column. *)
Definition insert_heap (h : heap) (row col : nat) (el : Z)
    (q succ m below : option addr) : heap :=
  let n := length h in
  upd (fun x => Node.with_down x (Some n)) m
    (upd (fun x => Node.with_down x below) (Some n)
      (upd (fun x => Node.with_right x (Some n)) q
        (upd (fun x => Node.with_right x succ) (Some n)
          (h ++ [Node.mk row col el None None])))).

(** The store after [_removenode]: the row predecessor [q] and the column
    predecessor [m] of the removed node point past it, to [succ] and to
    [below]. *)
Definition remove_heap (h : heap) (q succ m below : option addr) : heap :=
  upd (fun x => Node.with_down x below) m
    (upd (fun x => Node.with_right x succ) q h).

(** The loop [while n.row != p.row: m = n; n = n.down] of [_removenode], on
    the loop state [(n, m)]. *)
Definition seek_cond (p : option addr) : option addr * option addr -> M bool :=
  fun '(n, m) =>
    let* nn := deref n in let* pn := deref p in
    ret (negb (Node.row nn =? Node.row pn)).

Definition seek_body : option addr * option addr -> M (option addr * option addr) :=
  fun '(n, m) => let* nn := deref n in ret (Node.down nn, n).

(** What [__setitem__] at [(r, c)] with value [v] does to the rows: the
    row chains [R'] in the store [h'] hold [v] at [(r, c)] and what the row
    chains [R] held in [h] everywhere else; after setting zero no linked node
    has the coordinates [(r, c)]. *)
Definition set_post (h : heap) (R : list (list addr)) (r c : nat) (v : Z)
    (h' : heap) (R' : list (list addr)) : Prop :=
  (forall r' c' l l', R !! r' = Some l -> R' !! r' = Some l' ->
     lookup_row h' l' c' = if decide (r' = r /\ c' = c) then v else lookup_row h l c') /\
  (v = 0%Z -> forall a, in_chains R' a ->
     ~ (fld Node.row h' a = Some r /\ fld Node.col h' a = Some c)).

(** ** Scenarios *)

(** A sequence of [M[r, c] = v] assignments. *)
Fixpoint set_all (self : Matrix) (ops : list (nat * nat * Z)) : M Matrix :=
  match ops with
  | [] => ret self
  | (r, c, v) :: ops' =>
      let* self := __setitem__ self r c v in
      set_all self ops'
  end.

(** The value returned by a run, or the exception it raised. *)
Definition result {A} (o : outcome A) : exn + A :=
  match o with
  | Return a _ => inr a
  | Raise e _ => inl e
  end.

(** The matrix of the demonstration script: [identity(4)] followed by
    [m[1,1] = 7], [m[2,1] = 13], [m[0,3] = -2], [m[3,3] = 0], [m[0,0] = 0]. *)
Definition demo_matrix : M Matrix :=
  let* m := identity 4 in
  set_all m [(1, 1, 7%Z); (2, 1, 13%Z); (0, 3, (-2)%Z); (3, 3, 0%Z); (0, 0, 0%Z)].

(** The operands of an addition in which an entry cancels: the 1 x 2
    matrices [[1, 0]] and [[-1, 5]]. *)
Definition cancel_lhs : M Matrix := set_all (__init__ 1 2) [(0, 0, 1%Z)].
Definition cancel_rhs : M Matrix :=
  set_all (__init__ 1 2) [(0, 0, (-1)%Z); (0, 1, 5%Z)].

(** [multiplyRight(M, [1, 2, 3, 4])] on the matrix of the demonstration
    script. *)
Definition demo_mul : M (list Z) :=
  let* m := demo_matrix in
  __mul__ m [1; 2; 3; 4]%Z.

(** The entry [(0, 1)] of [cancel_lhs + cancel_rhs], next to the entries
    [(0, 1)] of the two operands. *)
Definition cancel_sum : M (Z * Z * Z) :=
  let* a := cancel_lhs in
  let* b := cancel_rhs in
  let* s := __add__ a b in
  let* x := __getitem__ s 0 1 in
  let* xa := __getitem__ a 0 1 in
  let* xb := __getitem__ b 0 1 in
  ret (x, xa, xb).

(** [add(identity(2), Matrix(2, 2))]. *)
Definition add_zero : M Matrix :=
  let* m := identity 2 in
  __add__ m (__init__ 2 2).

(** [equals(transpose(transpose(M)), M)] for the all-zero 2 x 3 matrix. *)
Definition transpose_twice_zero : M bool :=
  let m := __init__ 2 3 in
  let* t := transposed m in
  let* t2 := transposed t in
  __eq__ t2 m.

(** ** Dense arrays *)

(** The dense array [f] with the place [(r, c)] set to [v]. *)
Definition array_set (f : nat -> nat -> Z) (r c : nat) (v : Z) : nat -> nat -> Z :=
  fun r' c' => if decide (r' = r /\ c' = c) then v else f r' c'.

(** The dense array [f] after the assignments [ops], in this order. *)
Fixpoint array_set_all (f : nat -> nat -> Z) (ops : list (nat * nat * Z))
    : nat -> nat -> Z :=
  match ops with
  | [] => f
  | (r, c, v) :: ops' => array_set_all (array_set f r c v) ops'
  end.

(** ** Zero means absent *)

(** I3: every node linked into a chain of [R] holds a non-zero element. *)
Definition nonzero (h : heap) (R : list (list addr)) : Prop :=
  forall a x, in_chains R a -> fld Node.el h a = Some x -> x <> 0%Z.

(** ** The entries of a row *)

(** The pairs (column, element) along the chain [l]. *)
Definition entries (h : heap) (l : list addr) : list (nat * Z) :=
  (fun a => (key_at Node.col h a, default 0%Z (fld Node.el h a))) <$> l.

(** The value that a list of entries holds at column [c]. *)
Fixpoint entries_lookup (e : list (nat * Z)) (c : nat) : Z :=
  match e with
  | [] => 0%Z
  | (k, v) :: e' => if k =? c then v else entries_lookup e' c
  end.

(** The loop of [__eq__] over the two chains of a row, on the loop state
    [(p1, p2, r)], where [r] is the value of a [return] met inside the loop. *)
Definition eq_cond : option addr * option addr * option bool -> M bool :=
  fun '(p1, p2, r) =>
    ret (bool_decide (r = None) && bool_decide (p1 ≠ None)
         && bool_decide (p2 ≠ None)).

Definition eq_body
    : option addr * option addr * option bool ->
      M (option addr * option addr * option bool) :=
  fun '(p1, p2, r) =>
    let* n1 := deref p1 in
    let* n2 := deref p2 in
    if negb (Node.col n1 =? Node.col n2) || negb (Node.el n1 =? Node.el n2)%Z
    then ret (p1, p2, Some false)
    else ret (Node.right n1, Node.right n2, r).

(** ** The products with a vector *)

(** The loops shared by [__mul__] (over the row heads, along [right], with
    the product [el * x]) and [__rmul__] (over the column heads, along [down],
    with the product [x * el]). *)
Section Product.
Variables (nxt : Node.t -> option addr) (key : Node.t -> nat) (term : Z -> Z -> Z).
Variables (heads : list (option addr)) (bound n : nat) (vec : list Z).

(** [while q is not None and q.key != bound: entry += ...; q = q.nxt], on the
    loop state [(entry, q)]. *)
Definition dot_cond : Z * option addr -> M bool :=
  fun '(entry, q) =>
    match q with
    | None => ret false
    | Some a => let* qn := load a in ret (negb (key qn =? bound))
    end.

Definition dot_body : Z * option addr -> M (Z * option addr) :=
  fun '(entry, q) =>
    let* qn := deref q in
    let* x := index vec (key qn) in
    ret ((entry + term (Node.el qn) x)%Z, nxt qn).

(** [while i != n - 1: ...], on the loop state [(result, i, p)]. *)
Definition rows_cond : list Z * nat * option addr -> M bool :=
  fun '(result, i, p) => ret (neq_pred i n).

Definition rows_body : list Z * nat * option addr -> M (list Z * nat * option addr) :=
  fun '(result, i, p) =>
    let entry := 0%Z in
    let q := p in
    let* fuel := chain_fuel in
    let* (entry, q) := while fuel dot_cond dot_body (entry, q) in
    let* result := add_at result i entry in
    let i := i + 1 in
    let* p := index heads i in
    ret (result, i, p).

(** The statements of [__mul__] and [__rmul__] after the test of the
    dimensions. *)
Definition product : M (list Z) :=
  let result := replicate n 0%Z in
  let* p := index heads 0 in
  let i := 0 in
  let* (i, p) := while (scan_fuel heads) scan_cond (scan_body heads) (i, p) in
  let* (result, i, p) := while (scan_fuel heads) rows_cond rows_body (result, i, p) in
  let entry := 0%Z in
  let* fuel := chain_fuel in
  let* (entry, p) := while fuel dot_cond dot_body (entry, p) in
  let* result := add_at result i entry in
  ret result.
End Product.

(** The sum of the products of the elements along the chain [l] with the
    components of [vec] at their keys. *)
Definition chain_dot (key : Node.t -> nat) (term : Z -> Z -> Z) (vec : list Z)
    (h : heap) (l : list addr) : Z :=
  foldr (fun a acc =>
           (term (default 0%Z (fld Node.el h a))
                 (default 0%Z (vec !! key_at key h a)) + acc)%Z)
        0%Z l.

(** The sum of [f lo], ..., [f (lo + len - 1)]. *)
Definition sum_range (lo len : nat) (f : nat -> Z) : Z :=
  foldr (fun k acc => (f k + acc)%Z) 0%Z (seq lo len).

(** The sum of [f 0], ..., [f (n - 1)]. *)
Definition sum_upto (n : nat) (f : nat -> Z) : Z := sum_range 0 n f.

(** The value that [self[r, c]] reads in the store [h], zero when the read
    raises. *)
Definition entry_at (self : Matrix) (h : heap) (r c : nat) : Z :=
  match __getitem__ self r c h with
  | Return x _ => x
  | Raise _ _ => 0%Z
  end.

(** The matrix [[0, 2, 0], [3, 0, 4]]: the value and the store that
    [m = Matrix(2, 3); m[0, 1] = 2; m[1, 0] = 3; m[1, 2] = 4] builds in the
    empty store. *)
Definition sample : Matrix :=
  {| nrows := 2; ncols := 3;
     _prow := [Some 0; Some 1]; _pcol := [Some 1; Some 0; Some 2] |}.

Definition sample_heap : heap :=
  [ {| Node.row := 0; Node.col := 1; Node.el := 2%Z;
       Node.right := None; Node.down := None |};
    {| Node.row := 1; Node.col := 0; Node.el := 3%Z;
       Node.right := Some 2; Node.down := None |};
    {| Node.row := 1; Node.col := 2; Node.el := 4%Z;
       Node.right := None; Node.down := None |} ].

(** ** The copy of the chains into a new matrix *)

(** The loops shared by [transposed] (over the column heads, along [down],
    keyed by [row]) and by the first half of [__add__] (over the row heads,
    along [right], keyed by [col]): every chain [i] of the source is copied
    into row [i] of [result].  [pre] is the statement that [__add__] has after
    the first insertion of a row ([m = result._prow[i]]) and [transposed] has
    not; [k] is what follows the loops. *)
Section Copy.
Variables (nxt : Node.t -> option addr) (key : Node.t -> nat).
Variables (heads : list (option addr)) (bound n : nat).
Variable pre : Matrix -> nat -> M (option addr).

(** The test [q is not None and q.key != bound] of the loops over a chain. *)
Definition more (q : option addr) : M bool :=
  match q with
  | None => ret false
  | Some a => let* qn := load a in ret (negb (key qn =? bound))
  end.

(** The loop over the rest of a chain, on the loop state [(result, m, q)]. *)
Definition inner_cond : Matrix * option addr * option addr -> M bool :=
  fun '(result, m, q) => more q.

Definition inner_body (i : nat)
    : Matrix * option addr * option addr -> M (Matrix * option addr * option addr) :=
  fun '(result, m, q) =>
    let* qn := deref q in
    let* result := _insertnode result i (key qn) m (Node.el qn) in
    let* mn := deref m in
    let m := Node.right mn in
    let* qn := deref q in
    let q := nxt qn in
    ret (result, m, q).

(** [while heads[i] is None and i != n - 1: i += 1]. *)
Definition skip_cond : nat -> M bool :=
  fun i =>
    let* c := index heads i in
    ret (bool_decide (c = None) && neq_pred i n).

Definition skip_body : nat -> M nat := fun i => ret (i + 1).

(** The loop over the chains before the last one, on the loop state
    [(result, i, p, m)]. *)
Definition outer_cond : Matrix * nat * option addr * option addr -> M bool :=
  fun '(result, i, p, m) => ret (neq_pred i n).

Definition outer_body
    : Matrix * nat * option addr * option addr ->
      M (Matrix * nat * option addr * option addr) :=
  fun '(result, i, p, m) =>
    let* pn := deref p in
    let* result := _insertnode result i (key pn) m (Node.el pn) in
    let* m := pre result i in
    let* pn := deref p in
    let q := nxt pn in
    let* m := index (_prow result) i in
    let* fuel := chain_fuel in
    let* (result, m, q) := while fuel inner_cond (inner_body i) (result, m, q) in
    let i := i + 1 in
    let* i := while (scan_fuel heads) skip_cond skip_body i in
    let* p := index heads i in
    let* m := index (_prow result) i in
    ret (result, i, p, m).

(** The loop over the last chain, on the loop state [(result, p, m)]. *)
Definition last_cond : Matrix * option addr * option addr -> M bool :=
  fun '(result, p, m) => more p.

Definition last_body (i : nat)
    : Matrix * option addr * option addr -> M (Matrix * option addr * option addr) :=
  fun '(result, p, m) =>
    let* pn := deref p in
    let* result := _insertnode result i (key pn) m (Node.el pn) in
    let* m := match m with
              | None => index (_prow result) i
              | Some _ => let* mn := deref m in ret (Node.right mn)
              end in
    let* pn := deref p in
    ret (result, nxt pn, m).

Definition copy {A} (result : Matrix) (k : Matrix -> M A) : M A :=
  let* p := index heads 0 in
  let i := 0 in
  let* (i, p) := while (scan_fuel heads) scan_cond (scan_body heads) (i, p) in
  let* m := index (_prow result) i in
  let* (result, i, p, m) :=
    while (scan_fuel heads) outer_cond outer_body (result, i, p, m) in
  let* fuel := chain_fuel in
  let* (result, p, m) := while fuel last_cond (last_body i) (result, p, m) in
  k result.
End Copy.

(** The second half of [__add__]: the entries of [rhs] are merged into
    [result]. *)
Definition merge_cond (bound : nat)
    : Matrix * option addr * option addr -> M bool :=
  fun '(result, m, q) =>
    match q with
    | None => ret false
    | Some a => let* qn := load a in ret (negb (Node.col qn =? bound))
    end.

Definition merge_body (i : nat)
    : Matrix * option addr * option addr -> M (Matrix * option addr * option addr) :=
  fun '(result, m, q) =>
    let* (result, m) := merge_entry result i m q in
    let* qn := deref q in
    ret (result, m, Node.right qn).

Definition merge_rows_body (self rhs : Matrix)
    : Matrix * nat * option addr * option addr ->
      M (Matrix * nat * option addr * option addr) :=
  fun '(result, i, p, m) =>
    let q := p in
    let* fuel := chain_fuel in
    let* (result, m, q) :=
      while fuel (merge_cond (ncols self)) (merge_body i) (result, m, q) in
    let i := i + 1 in
    let* i := while (scan_fuel (_prow rhs))
                (skip_cond (_prow rhs) (nrows self)) skip_body i in
    let* p := index (_prow rhs) i in
    let* m := index (_prow result) i in
    ret (result, i, p, m).

Definition merge (self rhs result : Matrix) : M Matrix :=
  let i := 0 in
  let* p := index (_prow rhs) i in
  let* (i, p) :=
    while (scan_fuel (_prow rhs)) scan_cond (scan_body (_prow rhs)) (i, p) in
  let* m := index (_prow result) i in
  let* (result, i, p, m) :=
    while (scan_fuel (_prow rhs)) (outer_cond (nrows self))
      (merge_rows_body self rhs) (result, i, p, m) in
  let* fuel := chain_fuel in
  let* (result, m, p) :=
    while fuel (merge_cond (ncols self)) (merge_body i) (result, m, p) in
  ret result.

(** The pairs (key, element) along the chain [l]. *)
Definition pairs (key : Node.t -> nat) (h : heap) (l : list addr) : list (nat * Z) :=
  (fun a => (key_at key h a, default 0%Z (fld Node.el h a))) <$> l.

(** The state of a copy into [result], started in the store [h0]: [result]
    is a well-formed [n] x [bound] matrix of the store [h], all its nodes were
    made after [h0], the nodes of [h0] are as they were, and row [j] of
    [result] holds the entries [E j]. *)
Record copying (h0 : heap) (n bound : nat) (h : heap) (result : Matrix)
    (R C : list (list addr)) (E : nat -> list (nat * Z)) : Prop := {
  cp_wf : wf result h R C;
  cp_nrows : nrows result = n;
  cp_ncols : ncols result = bound;
  cp_len : length h0 <= length h;
  cp_old : forall b, b < length h0 -> h !! b = h0 !! b;
  cp_new : forall a, in_chains R a -> length h0 <= a;
  cp_rows : forall j l, R !! j = Some l -> entries h l = E j
}.

(** What is left of a source chain during its copy: [k2] is the chain from
    [q] on in the store [h0], its keys are below [bound], increase, and are
    above the keys of the entries [Ei] copied so far. *)
Definition rest_of (nxt : Node.t -> option addr) (key : Node.t -> nat)
    (h0 : heap) (bound : nat) (Ei : list (nat * Z)) (q : option addr)
    (k2 : list addr) : Prop :=
  lseg nxt h0 q k2 None /\
  Forall (fun a => key_at key h0 a < bound) k2 /\
  StronglySorted lt (key_at key h0 <$> k2) /\
  Forall (fun a => Forall (fun p : nat * Z => p.1 < key_at key h0 a) Ei) k2.

(** The entries of the copy when the chains before [i] are done. *)
Definition done_upto (key : Node.t -> nat) (h0 : heap) (L : list (list addr))
    (i : nat) : nat -> list (nat * Z) :=
  fun j => if decide (j < i) then pairs key h0 (default [] (L !! j)) else [].

(** ** The merge of the right operand of [__add__] *)

(** The entries [E] of a row after the entry [(c, v)] was added to it. *)
Fixpoint insert_entry (E : list (nat * Z)) (c : nat) (v : Z) : list (nat * Z) :=
  match E with
  | [] => [(c, v)]
  | (k, x) :: E' =>
      if c <? k then (c, v) :: E
      else if c =? k then (k, (x + v)%Z) :: E'
      else (k, x) :: insert_entry E' c v
  end.

(** The entries [E] of a row after the entries [F] were added to it. *)
Definition merge_entries (E F : list (nat * Z)) : list (nat * Z) :=
  foldl (fun E p => insert_entry E p.1 p.2) E F.

(** The entry [(c, v)] meets no entry of [E] that it cancels. *)
Definition no_cancel (E : list (nat * Z)) (c : nat) (v : Z) : Prop :=
  forall x, (c, x) ∈ E -> (x + v)%Z <> 0%Z.

(** The cursor [m] of the merge into the row chain [l], in front of an entry
    of column [c]: the head of the row (at the first entry of a row), or a node
    of the row whose column is below [c]. *)
Definition cursor (h : heap) (l : list addr) (m : option addr) (c : nat) : Prop :=
  m = head l \/
  exists l1 ma l2, l = l1 ++ ma :: l2 /\ m = Some ma /\ key_at Node.col h ma < c.

(** The loop of [merge_entry] that looks for the place of the entry [qn] in
    the row, on the loop state [(result, m, n)]. *)
Definition place_cond (qn : Node.t) : Matrix * option addr * option addr -> M bool :=
  fun '(result, m, n) =>
    match n with
    | None => ret false
    | Some a => let* nn := load a in ret (Node.col nn <? Node.col qn)
    end.

Definition place_body (i : nat) (qn : Node.t)
    : Matrix * option addr * option addr -> M (Matrix * option addr * option addr) :=
  fun '(result, m, n) =>
    let* nn := deref n in
    let n := Node.right nn in
    let* above := match n with
                  | None => ret true
                  | Some a => let* nn := load a in ret (Node.col qn <? Node.col nn)
                  end in
    let* (result, m, n) :=
      if above : bool then
        let* result := _insertnode result i (Node.col qn) m (Node.el qn) in
        let* mn := deref m in
        let m := Node.right mn in
        let n := m in
        ret (result, m, n)
      else
        let* nn := deref n in
        if Node.col nn =? Node.col qn then
          if (Node.el nn + Node.el qn =? 0)%Z then
            let* (a, b) := _findnode result i (Node.col nn) in
            let* result := _removenode result a b in
            ret (result, m, n)
          else
            set_el n (Node.el nn + Node.el qn)%Z ;;
            ret (result, m, n)
        else ret (result, m, n) in
    match n with
    | Some _ => ret (result, n, n)
    | None => ret (result, m, n)
    end.

(** The entries of the result when the rows before [i] are merged: [EA]
    gives the entries before the merge and [L2] the chains merged into them. *)
Definition merged_upto (EA : nat -> list (nat * Z)) (h0 : heap)
    (L2 : list (list addr)) (i : nat) : nat -> list (nat * Z) :=
  fun j => if decide (j < i)
           then merge_entries (EA j) (pairs Node.col h0 (default [] (L2 !! j)))
           else EA j.

(** A second matrix beside [sample]: the value and the store that
    [b = Matrix(2, 3); b[0, 1] = 1; b[1, 1] = 7] builds behind the nodes of
    [sample]. *)
Definition sample_b : Matrix :=
  {| nrows := 2; ncols := 3;
     _prow := [Some 3; Some 4]; _pcol := [None; Some 3; None] |}.

Definition pair_heap : heap :=
  sample_heap ++
  [ {| Node.row := 0; Node.col := 1; Node.el := 1%Z;
       Node.right := None; Node.down := Some 4 |};
    {| Node.row := 1; Node.col := 1; Node.el := 7%Z;
       Node.right := None; Node.down := None |} ].
(** * Lemmas

    ** Reading the store *)

Lemma fld_Some {X} (f : Node.t -> X) h a x :
  fld f h a = Some x <-> exists n, h !! a = Some n /\ f n = x.
Proof.
  unfold fld. destruct (h !! a) as [n|]; simpl; split.
  - intros [= <-]. eauto.
  - intros (n' & [= <-] & <-). done.
  - done.
  - intros (? & ? & _). done.
Qed.

Lemma fld_lt {X} (f : Node.t -> X) h a x : fld f h a = Some x -> a < length h.
Proof. intros (n & Hn & _)%fld_Some. by eapply lookup_lt_Some. Qed.

Lemma fld_is_Some {X Y} (f : Node.t -> X) (g : Node.t -> Y) h a x :
  fld f h a = Some x -> exists y, fld g h a = Some y.
Proof. unfold fld. destruct (h !! a); simpl; [eauto|done]. Qed.

Lemma fld_store {X} (f : Node.t -> X) h a n b :
  a < length h ->
  fld f (<[a:=n]> h) b = if decide (b = a) then Some (f n) else fld f h b.
Proof.
  intros Ha. unfold fld. case_decide as Hb.
  - subst b. by rewrite list_lookup_insert_eq.
  - by rewrite list_lookup_insert_ne.
Qed.

Lemma fld_alloc {X} (f : Node.t -> X) h n b :
  fld f (h ++ [n]) b = if decide (b = length h) then Some (f n) else fld f h b.
Proof.
  unfold fld. case_decide as Hb.
  - subst b. by rewrite list_lookup_middle.
  - destruct (decide (b < length h)).
    + by rewrite lookup_app_l.
    + rewrite !(proj2 (lookup_ge_None _ _)); [done|lia|].
      rewrite length_app. simpl. lia.
Qed.

Section Chains.
Variable nxt : Node.t -> option addr.

Lemma lseg_app h l1 : forall o l2 e,
  lseg nxt h o (l1 ++ l2) e <->
  exists mid, lseg nxt h o l1 mid /\ lseg nxt h mid l2 e.
Proof.
  induction l1 as [|a l1 IH]; intros o l2 e; simpl.
  - split; [eauto|]. by intros (mid & -> & H).
  - split.
    + intros (-> & o' & Ho' & (mid & H1 & H2)%IH). eauto 8.
    + intros (mid & (-> & o' & Ho' & H1) & H2). split; [done|].
      exists o'. split; [done|]. apply IH. eauto.
Qed.

Lemma lseg_frame h h' l : forall o e,
  (forall a, a ∈ l -> fld nxt h' a = fld nxt h a) ->
  lseg nxt h o l e -> lseg nxt h' o l e.
Proof.
  induction l as [|a l IH]; intros o e Hfr; simpl; [done|].
  intros (-> & o' & Ho' & H). split; [done|]. exists o'. split.
  - rewrite Hfr; [done|]. by left.
  - apply IH; [|done]. intros b Hb. apply Hfr. by right.
Qed.

Lemma lseg_functional h l : forall o e l' e',
  lseg nxt h o l e -> lseg nxt h o l' e' -> length l = length l' ->
  l = l' /\ e = e'.
Proof.
  induction l as [|a l IH]; intros o e [|a' l'] e'; simpl; try done.
  - intros -> -> _. done.
  - intros (-> & o1 & H1 & Hl) ([= <-] & o2 & H2 & Hl') [= Hlen].
    rewrite H1 in H2. injection H2 as <-.
    destruct (IH _ _ _ _ Hl Hl' Hlen) as [-> ->]. done.
Qed.

Lemma lseg_in_heap h l : forall o e,
  lseg nxt h o l e -> Forall (fun a => a < length h) l.
Proof.
  induction l as [|a l IH]; intros o e; simpl; [constructor|].
  intros (-> & o' & Ho' & H). constructor; [by eapply fld_lt|by eapply IH].
Qed.

Lemma lseg_head h l o e : lseg nxt h o l e -> l <> [] -> o = head l.
Proof. destruct l; simpl; [done|]. by intros [-> _] _. Qed.

Lemma lseg_nil_head h l o : lseg nxt h o l None -> o = head l.
Proof. destruct l; simpl; [done|]. by intros [-> _]. Qed.
End Chains.

(** A list of distinct addresses of the store is no longer than the store. *)
Lemma NoDup_length_le (l : list addr) (n : nat) :
  NoDup l -> Forall (fun a => a < n) l -> length l <= n.
Proof.
  intros Hnd Hlt.
  assert (length l <= length (seq 0 n)) as Hle; [|by rewrite length_seq in Hle].
  apply submseteq_length, NoDup_submseteq; [done|].
  intros a Ha. rewrite Forall_forall in Hlt. apply elem_of_seq. specialize (Hlt a Ha). lia.
Qed.

Lemma key_at_fld key h a x : fld key h a = Some x -> key_at key h a = x.
Proof. unfold key_at. by intros ->. Qed.

Lemma key_at_frame key h h' (l : list addr) :
  (forall a, a ∈ l -> fld key h' a = fld key h a) ->
  key_at key h' <$> l = key_at key h <$> l.
Proof.
  intros Hfr. apply list_fmap_ext. intros i a Ha.
  unfold key_at. rewrite Hfr; [done|]. by eapply list_elem_of_lookup_2.
Qed.

Lemma sorted_keys_NoDup (f : addr -> nat) (l : list addr) :
  StronglySorted lt (f <$> l) -> NoDup l.
Proof.
  induction l as [|a l IH]; simpl; [constructor|].
  intros [Hall Hs]%StronglySorted_cons. constructor; [|by apply IH].
  intros Ha. rewrite Forall_forall in Hall.
  assert (f a < f a); [|lia]. apply Hall. apply list_elem_of_fmap. eauto.
Qed.

(** ** The walking loop *)

Lemma last_or_cons q0 a l : last_or q0 (a :: l) = last_or (Some a) l.
Proof.
  unfold last_or. destruct l as [|b l]; [done|].
  rewrite last_cons_cons. destruct (last (b :: l)) eqn:E; [done|].
  by apply last_None in E.
Qed.

Lemma last_or_snoc q0 l a : last_or q0 (l ++ [a]) = Some a.
Proof. unfold last_or. by rewrite last_snoc. Qed.

Lemma while_unfold {St} fuel (cond : St -> M bool) (body : St -> M St) s :
  while (S fuel) cond body s
  = (let* b := cond s in
     if b : bool then let* s' := body s in while fuel cond body s' else ret s).
Proof. done. Qed.

Arguments while : simpl never.

Section Walk.
Variables (nxt : Node.t -> option addr) (key : Node.t -> nat) (k : nat).

(** The walk stops at the first node of the chain whose key is not below
    [k]; [q] is then the node before it. *)
Lemma walk_spec h l : forall o q0 fuel,
  lseg nxt h o l None -> length l < fuel ->
  exists l1 l2,
    l = l1 ++ l2 /\
    Forall (fun a => key_at key h a < k) l1 /\
    (forall b, head l2 = Some b -> k <= key_at key h b) /\
    while fuel (walk_cond key k) (walk_body nxt) (o, q0) h
    = Return (head l2, last_or q0 l1) h.
Proof.
  induction l as [|a l IH]; intros o q0 fuel Hl Hfuel.
  - simpl in Hl. subst o. exists [], []. repeat split; [constructor|done|].
    destruct fuel; [simpl in Hfuel; lia|]. by rewrite while_unfold.
  - destruct Hl as (-> & o' & Ho' & Hl).
    destruct fuel as [|fuel]; [simpl in Hfuel; lia|].
    apply fld_Some in Ho' as (n & Hn & <-).
    destruct (decide (key n < k)) as [Hlt|Hge].
    + destruct (IH (nxt n) (Some a) fuel Hl) as (l1 & l2 & -> & Hl1 & Hl2 & Hw).
      { simpl in Hfuel. lia. }
      exists (a :: l1), l2. repeat split; [|exact Hl2|].
      * constructor; [|done]. unfold key_at, fld. by rewrite Hn.
      * rewrite last_or_cons, <-Hw, while_unfold. simpl. unfold bind, load. rewrite Hn. simpl.
        unfold ret. rewrite (proj2 (Nat.ltb_lt _ _) Hlt). by rewrite Hn.
    + exists [], (a :: l). repeat split; [constructor| |].
      * intros b [= <-]. unfold key_at, fld. rewrite Hn. simpl. lia.
      * rewrite while_unfold. simpl. unfold bind, load. rewrite Hn. simpl.
        unfold ret. by rewrite (proj2 (Nat.ltb_ge _ _)) by lia.
Qed.
End Walk.

(** ** [_findnode] and [__getitem__] *)

Section ChainOk.
Context {nxt : Node.t -> option addr} {key fixed : Node.t -> nat} {bound : nat}.
Context {h : heap} {heads : list (option addr)} {i : nat} {l : list addr}.
Hypothesis Hok : chain_ok nxt key fixed bound h heads i l.

Lemma chain_ok_NoDup : NoDup l.
Proof. eapply sorted_keys_NoDup, ok_sorted, Hok. Qed.

Lemma chain_ok_length : length l <= length h.
Proof.
  destruct (ok_lseg _ _ _ _ _ _ _ _ Hok) as (o & _ & Hl).
  apply NoDup_length_le; [apply chain_ok_NoDup|by eapply lseg_in_heap].
Qed.

Lemma chain_ok_fixed a : a ∈ l -> fld fixed h a = Some i.
Proof.
  intros Ha. pose proof (ok_nodes _ _ _ _ _ _ _ _ Hok) as Hn.
  rewrite Forall_forall in Hn. by apply Hn.
Qed.

Lemma chain_ok_bound a : a ∈ l -> key_at key h a < bound.
Proof.
  intros Ha. pose proof (ok_nodes _ _ _ _ _ _ _ _ Hok) as Hn.
  rewrite Forall_forall in Hn. by apply Hn.
Qed.

Lemma chain_ok_key_inj a b : a ∈ l -> b ∈ l -> key_at key h a = key_at key h b -> a = b.
Proof.
  pose proof (ok_sorted _ _ _ _ _ _ _ _ Hok) as Hs. clear Hok.
  induction l as [|x l' IH]; [by intros ?%elem_of_nil|].
  simpl in Hs. apply StronglySorted_cons in Hs as [Hall Hs].
  rewrite Forall_forall in Hall.
  assert (forall y, y ∈ l' -> key_at key h x < key_at key h y) as Hlt.
  { intros y Hy. apply Hall, list_elem_of_fmap. eauto. }
  intros [->|Ha]%elem_of_cons [->|Hb]%elem_of_cons Heq; auto.
  - specialize (Hlt _ Hb). lia.
  - specialize (Hlt _ Ha). lia.
Qed.

(** Where the walk for the key [k] stops. *)
Lemma chain_ok_walk k q0 fuel :
  length h < fuel ->
  exists l1 l2 o,
    l = l1 ++ l2 /\ heads !! i = Some o /\
    Forall (fun a => key_at key h a < k) l1 /\
    Forall (fun a => k <= key_at key h a) l2 /\
    while fuel (walk_cond key k) (walk_body nxt) (o, q0) h
    = Return (head l2, last_or q0 l1) h.
Proof.
  intros Hfuel. destruct (ok_lseg _ _ _ _ _ _ _ _ Hok) as (o & Ho & Hl).
  destruct (walk_spec nxt key k h l o q0 fuel Hl) as (l1 & l2 & El & H1 & H2 & Hw).
  { pose proof chain_ok_length. lia. }
  exists l1, l2, o. repeat split; try done.
  pose proof (ok_sorted _ _ _ _ _ _ _ _ Hok) as Hs.
  rewrite El, fmap_app in Hs. apply StronglySorted_app_1_r in Hs.
  destruct l2 as [|b l2]; [constructor|].
  simpl in Hs. apply StronglySorted_cons in Hs as [Hall _].
  specialize (H2 b eq_refl). constructor; [done|].
  rewrite Forall_fmap in Hall. eapply Forall_impl; [exact Hall|].
  simpl. intros; lia.
Qed.
End ChainOk.

Lemma findnode_spec self h r l c :
  row_chain_ok self h r l ->
  exists l1 l2,
    l = l1 ++ l2 /\
    Forall (fun a => key_at Node.col h a < c) l1 /\
    Forall (fun a => c <= key_at Node.col h a) l2 /\
    _findnode self r c h = Return (hit h l2 c, last_or None l1) h.
Proof.
  intros Hok.
  destruct (chain_ok_walk Hok c None (S (length h))) as (l1 & l2 & o & El & Ho & H1 & H2 & Hw);
    [lia|].
  exists l1, l2. repeat split; try done.
  unfold _findnode, bind, index, chain_fuel. rewrite Ho. simpl.
  change (while ?f _ _ ?s ?h0)
    with (while f (walk_cond Node.col c) (walk_body Node.right) s h0).
  rewrite Hw.
  unfold hit. destruct l2 as [|b l2]; [done|]. simpl.
  assert (b ∈ l) as Hb by (rewrite El; apply elem_of_app; right; left).
  pose proof (chain_ok_fixed Hok b Hb) as (n & Hn & _)%fld_Some.
  unfold load. rewrite Hn. unfold key_at, fld. rewrite Hn. simpl.
  by destruct (Node.col n =? c).
Qed.

Lemma lookup_row_app h l1 l2 c :
  Forall (fun a => key_at Node.col h a <> c) l1 ->
  lookup_row h (l1 ++ l2) c = lookup_row h l2 c.
Proof.
  induction 1 as [|a l1 Ha _ IH]; [done|]. simpl.
  by rewrite (proj2 (Nat.eqb_neq _ _) Ha).
Qed.

Lemma lookup_row_absent h l c :
  Forall (fun a => key_at Node.col h a <> c) l -> lookup_row h l c = 0%Z.
Proof. intros H. rewrite <-(app_nil_r l). by rewrite lookup_row_app. Qed.

Lemma lookup_row_frame h h' l c :
  (forall a, a ∈ l -> fld Node.col h' a = fld Node.col h a) ->
  (forall a, a ∈ l -> key_at Node.col h a = c -> fld Node.el h' a = fld Node.el h a) ->
  lookup_row h' l c = lookup_row h l c.
Proof.
  induction l as [|a l IH]; intros Hc He; [done|]. simpl.
  assert (key_at Node.col h' a = key_at Node.col h a) as ->.
  { unfold key_at. rewrite Hc; [done|by left]. }
  destruct (key_at Node.col h a =? c) eqn:E.
  - rewrite He; [done|by left|by apply Nat.eqb_eq].
  - apply IH; intros; [apply Hc|apply He]; try done; by right.
Qed.

(** [__getitem__] returns the value that the row chain holds. *)
Lemma getitem_spec self h r l c :
  row_chain_ok self h r l ->
  __getitem__ self r c h = Return (lookup_row h l c) h.
Proof.
  intros Hok.
  destruct (findnode_spec self h r l c Hok) as (l1 & l2 & El & H1 & H2 & Hf).
  unfold __getitem__, bind. rewrite Hf.
  rewrite El, lookup_row_app by (eapply Forall_impl; [exact H1|]; simpl; intros; lia).
  unfold hit. destruct l2 as [|b l2]; [done|]. simpl.
  destruct (key_at Node.col h b =? c) eqn:E.
  - assert (b ∈ l) as Hb by (rewrite El; apply elem_of_app; right; left).
    pose proof (chain_ok_fixed Hok b Hb) as (n & Hn & _)%fld_Some.
    unfold load, fld. by rewrite Hn.
  - apply Nat.eqb_neq in E. unfold ret. f_equal.
    pose proof (ok_sorted _ _ _ _ _ _ _ _ Hok) as Hs.
    rewrite El, fmap_app in Hs. apply StronglySorted_app_1_r in Hs.
    simpl in Hs. apply StronglySorted_cons in Hs as [Hall _].
    apply Forall_cons_1 in H2 as [Hb _].
    symmetry. apply lookup_row_absent. rewrite Forall_fmap in Hall.
    eapply Forall_impl; [exact Hall|]. simpl. intros; lia.
Qed.

(** ** Updates of the store *)

Arguments upd : simpl never.
Arguments set_right : simpl never.
Arguments set_down : simpl never.
Arguments set_el : simpl never.

Lemma upd_length g p h : length (upd g p h) = length h.
Proof.
  unfold upd. destruct p as [a|]; [|done].
  destruct (h !! a); [|done]. by rewrite length_insert.
Qed.

Lemma fld_upd {X} (f : Node.t -> X) g p h b :
  fld f (upd g p h) b
  = if decide (p = Some b) then fld (fun x => f (g x)) h b else fld f h b.
Proof.
  unfold upd. destruct p as [a|]; [|by case_decide].
  destruct (h !! a) as [n|] eqn:Hn.
  - rewrite fld_store by (by eapply lookup_lt_Some).
    destruct (decide (b = a)) as [->|Hne].
    + rewrite decide_True by done. unfold fld. by rewrite Hn.
    + rewrite decide_False by congruence. done.
  - case_decide as Hb; [|done]. injection Hb as ->. unfold fld. by rewrite Hn.
Qed.

Lemma fld_upd_same {X} (f : Node.t -> X) g p h b :
  (forall x, f (g x) = f x) -> fld f (upd g p h) b = fld f h b.
Proof.
  intros Hfg. rewrite fld_upd. case_decide; [|done].
  unfold fld. destruct (h !! b); simpl; [by rewrite Hfg|done].
Qed.

Lemma fld_const {X} (x : X) h b : b < length h -> fld (fun _ => x) h b = Some x.
Proof.
  intros Hb. unfold fld. destruct (lookup_lt_is_Some_2 h b Hb) as [n ->]. done.
Qed.

Lemma upd_id g a h n : h !! a = Some n -> g n = n -> upd g (Some a) h = h.
Proof. intros Hn Hg. unfold upd. rewrite Hn, Hg. by apply list_insert_id. Qed.

Lemma set_right_run a r h :
  a < length h ->
  set_right (Some a) r h = Return () (upd (fun x => Node.with_right x r) (Some a) h).
Proof.
  intros [n Hn]%lookup_lt_is_Some_2. unfold set_right, bind, load, store, upd.
  rewrite Hn. simpl. by rewrite Hn.
Qed.

Lemma set_down_run a d h :
  a < length h ->
  set_down (Some a) d h = Return () (upd (fun x => Node.with_down x d) (Some a) h).
Proof.
  intros [n Hn]%lookup_lt_is_Some_2. unfold set_down, bind, load, store, upd.
  rewrite Hn. simpl. by rewrite Hn.
Qed.

Lemma set_el_run a v h :
  a < length h ->
  set_el (Some a) v h = Return () (upd (fun x => Node.with_el x v) (Some a) h).
Proof.
  intros [n Hn]%lookup_lt_is_Some_2. unfold set_el, bind, load, store, upd.
  rewrite Hn. simpl. by rewrite Hn.
Qed.

Lemma deref_run {X} (f : Node.t -> X) a h x :
  fld f h a = Some x -> exists n, deref (Some a) h = Return n h /\ f n = x.
Proof.
  intros (n & Hn & Hx)%fld_Some. exists n. split; [|done].
  unfold deref, load. by rewrite Hn.
Qed.

Lemma index_run {A} (l : list A) i x h : l !! i = Some x -> index l i h = Return x h.
Proof. unfold index. by intros ->. Qed.

Lemma assign_run {A} (l : list A) i x h :
  i < length l -> assign l i x h = Return (<[i:=x]> l) h.
Proof. intros Hi. unfold assign. by rewrite decide_True. Qed.

(** ** [_insertnode] *)

Lemma last_or_None l : last_or None l = last l.
Proof. unfold last_or. by destruct (last l). Qed.

Lemma with_down_id n : Node.with_down n (Node.down n) = n.
Proof. by destruct n. Qed.

(** The run of [_insertnode]: the new node is spliced after [q] in its row
    and at its place in the column chain [k]. *)
Lemma insertnode_run self h row col q el succ o k :
  match q with
  | None => _prow self !! row = Some succ
  | Some qa => fld Node.right h qa = Some succ
  end ->
  _pcol self !! col = Some o ->
  lseg Node.down h o k None ->
  NoDup k ->
  Forall (fun a => key_at Node.row h a <> row) k ->
  exists k1 k2,
    k = k1 ++ k2 /\
    Forall (fun a => key_at Node.row h a < row) k1 /\
    (forall b, head k2 = Some b -> row < key_at Node.row h b) /\
    _insertnode self row col q el h
    = Return
        (mkMatrix (nrows self) (ncols self)
           (match q with
            | None => <[row:=Some (length h)]> (_prow self)
            | Some _ => _prow self
            end)
           (match last k1 with
            | None => <[col:=Some (length h)]> (_pcol self)
            | Some _ => _pcol self
            end))
        (insert_heap h row col el q succ (last k1) (head k2)).
Proof.
  intros Hq Ho Hk Hnd Hne.
  set (n := length h).
  set (N0 := Node.mk row col el None None).
  set (h1 := h ++ [N0]).
  set (h2 := upd (fun x => Node.with_right x succ) (Some n) h1).
  set (h3 := upd (fun x => Node.with_right x (Some n)) q h2).
  assert (length h1 = S n) as Hlen1 by (unfold h1; rewrite length_app; simpl; lia).
  assert (length h2 = S n) as Hlen2 by (unfold h2; by rewrite upd_length).
  assert (length h3 = S n) as Hlen3 by (unfold h3; by rewrite upd_length).
  pose proof (lseg_in_heap _ _ _ _ _ Hk) as Hin. rewrite Forall_forall in Hin.
  assert (forall X (f : Node.t -> X) a, a < n ->
            (forall x r, f (Node.with_right x r) = f x) ->
            fld f h3 a = fld f h a) as Hold.
  { intros X f a Ha Hf. unfold h3, h2, h1.
    rewrite !fld_upd_same by (intros; apply Hf).
    rewrite fld_alloc, decide_False; [done|]. fold n. lia. }
  (* the row splice *)
  set (self1 := mkMatrix (nrows self) (ncols self)
                  (match q with
                   | None => <[row:=Some n]> (_prow self)
                   | Some _ => _prow self
                   end) (_pcol self)).
  assert ((match q with
           | Some _ =>
               let* qn := deref q in
               set_right (Some n) (Node.right qn) ;;
               set_right q (Some n) ;;
               ret self
           | None =>
               let* r := index (_prow self) row in
               set_right (Some n) r ;;
               let* l := assign (_prow self) row (Some n) in
               ret (with_prow self l)
           end) h1 = Return self1 h3) as Hrow.
  { destruct q as [qa|].
    - pose proof (fld_lt _ _ _ _ Hq) as Hqa. fold n in Hqa.
      destruct (deref_run Node.right qa h1 succ) as (qn & Hd & Hr).
      { unfold h1. rewrite fld_alloc, decide_False; [done|]. fold n. lia. }
      unfold bind. rewrite Hd, Hr, set_right_run by lia. fold h2.
      rewrite set_right_run by lia. fold h3.
      unfold ret, self1. f_equal. by destruct self.
    - unfold bind. rewrite (index_run _ _ _ _ Hq), set_right_run by lia. fold h2.
      rewrite assign_run by (by eapply lookup_lt_Some). done. }
  (* the walk down the column *)
  assert (lseg Node.down h3 o k None) as Hk3.
  { eapply lseg_frame; [|exact Hk]. intros a Ha. apply Hold; [by apply Hin|done]. }
  destruct (walk_spec Node.down Node.row row h3 k o None (S (length h3)) Hk3)
    as (k1 & k2 & Ek & Hk1 & Hk2 & Hw).
  { pose proof (NoDup_length_le k n Hnd) as Hle. rewrite Forall_forall in Hle.
    specialize (Hle Hin). lia. }
  assert (forall a, a ∈ k -> key_at Node.row h3 a = key_at Node.row h a) as Hkey.
  { intros a Ha. unfold key_at. rewrite Hold; [done|by apply Hin|done]. }
  exists k1, k2. split; [done|]. split; [|split].
  { rewrite Forall_forall in Hk1 |- *. intros a Ha. rewrite <-Hkey; [by apply Hk1|].
    rewrite Ek. apply elem_of_app. by left. }
  { intros b Hb. rewrite Forall_forall in Hne.
    assert (b ∈ k) as Hbk.
    { rewrite Ek. apply elem_of_app. right. destruct k2; [done|]. injection Hb as ->. left. }
    specialize (Hk2 b Hb). rewrite Hkey in Hk2 by done. specialize (Hne b Hbk). lia. }
  unfold _insertnode, bind at 1, alloc. fold N0 n h1.
  unfold bind at 1. rewrite Hrow.
  unfold bind at 1. change (_pcol self1) with (_pcol self). rewrite (index_run _ _ _ _ Ho).
  unfold bind at 1, chain_fuel. unfold bind at 1.
  change (while ?f _ _ ?s ?h0)
    with (while f (walk_cond Node.row row) (walk_body Node.down) s h0).
  rewrite Hw, last_or_None.
  assert (col < length (_pcol self)) as Hcol by (by eapply lookup_lt_Some).
  assert (fld Node.down h3 n = Some None) as Hdn.
  { unfold h3, h2, h1. rewrite !fld_upd_same by done.
    rewrite fld_alloc, decide_True by done. done. }
  unfold insert_heap. fold n N0 h1 h2 h3.
  destruct k2 as [|b k2]; cbn [head].
  - (* the new node is the last of its column *)
    apply fld_Some in Hdn as (nn & Hnn & Hnd').
    rewrite (upd_id (fun x => Node.with_down x None) n h3 nn Hnn)
      by (rewrite <-Hnd'; apply with_down_id).
    destruct (last k1) as [ma|] eqn:Em.
    + assert (ma < n) as Hma.
      { apply Hin. rewrite Ek. apply elem_of_app. left.
        apply last_Some in Em as [k1' ->]. apply elem_of_app. right. left. }
      unfold bind, ret. simpl. rewrite set_down_run by lia. done.
    + unfold bind, ret. simpl. rewrite assign_run by done. done.
  - (* the node [b] comes below the new node *)
    assert (b ∈ k) as Hbk by (rewrite Ek; apply elem_of_app; right; left).
    assert (fld Node.row h3 b = fld Node.row h b) as Hrb by (apply Hold; [by apply Hin|done]).
    destruct (fld Node.down h b) as [x|] eqn:Hb.
    2:{ exfalso. rewrite Ek in Hk. apply lseg_app in Hk as (mid & _ & Hk).
        simpl in Hk. destruct Hk as (_ & o' & Ho' & _). congruence. }
    destruct (fld_is_Some Node.down Node.row h b _ Hb) as [rb Hrb'].
    rewrite Hrb' in Hrb. apply fld_Some in Hrb as (bn & Hbn & Hbr).
    unfold bind, ret, load. simpl. rewrite Hbn, Hbr. simpl.
    rewrite Forall_forall in Hne. specialize (Hne b Hbk).
    rewrite (key_at_fld _ _ _ _ Hrb') in Hne.
    rewrite (proj2 (Nat.eqb_neq rb row)) by done.
    rewrite set_down_run by lia.
    destruct (last k1) as [ma|] eqn:Em.
    + assert (ma < n) as Hma.
      { apply Hin. rewrite Ek. apply elem_of_app. left.
        apply last_Some in Em as [k1' ->]. apply elem_of_app. right. left. }
      rewrite set_down_run by (rewrite upd_length; lia). done.
    + rewrite assign_run by done. done.
Qed.

(** ** [_removenode] *)

(** The walk of [_removenode] down the column of [pa] stops at [pa]; [m] is
    then the node above it. *)
Lemma seek_spec h pa r k1 : forall o m0 k2 fuel,
  lseg Node.down h o (k1 ++ pa :: k2) None ->
  fld Node.row h pa = Some r ->
  Forall (fun a => key_at Node.row h a <> r) k1 ->
  length k1 < fuel ->
  while fuel (seek_cond (Some pa)) seek_body (o, m0) h
  = Return (Some pa, last_or m0 k1) h.
Proof.
  induction k1 as [|a k1 IH]; intros o m0 k2 fuel Hl Hr Hne Hfuel.
  - destruct Hl as (-> & _). destruct fuel; [simpl in Hfuel; lia|].
    apply fld_Some in Hr as (pn & Hpn & Hr).
    rewrite while_unfold. unfold seek_cond, bind, deref, load, ret. rewrite Hpn.
    simpl. rewrite Hpn. by rewrite Nat.eqb_refl.
  - destruct Hl as (-> & o' & Ho' & Hl).
    destruct fuel as [|fuel]; [simpl in Hfuel; lia|].
    apply Forall_cons_1 in Hne as [Ha Hne].
    pose proof Hr as (pn & Hpn & Hr')%fld_Some.
    apply fld_Some in Ho' as (an & Han & <-).
    rewrite while_unfold, last_or_cons, <-(IH (Node.down an) (Some a) k2 fuel Hl Hr Hne)
      by (simpl in Hfuel; lia).
    unfold seek_cond at 1, seek_body at 1, bind, deref, load, ret.
    rewrite Han, Hpn. unfold key_at, fld in Ha. rewrite Han in Ha. simpl in Ha.
    rewrite (proj2 (Nat.eqb_neq _ _)) by congruence. simpl. by rewrite Han.
Qed.

(** The run of [_removenode] on the node [pa], which follows [q] in its row
    and sits between [k1] and [k2] in its column. *)
Lemma removenode_run self h pa q r c succ below o k1 k2 :
  fld Node.row h pa = Some r ->
  fld Node.col h pa = Some c ->
  fld Node.right h pa = Some succ ->
  fld Node.down h pa = Some below ->
  match q with
  | None => r < length (_prow self)
  | Some qa => qa < length h
  end ->
  _pcol self !! c = Some o ->
  lseg Node.down h o (k1 ++ pa :: k2) None ->
  NoDup (k1 ++ pa :: k2) ->
  Forall (fun a => key_at Node.row h a <> r) k1 ->
  _removenode self (Some pa) q h
  = Return
      (mkMatrix (nrows self) (ncols self)
         (match q with
          | None => <[r:=succ]> (_prow self)
          | Some _ => _prow self
          end)
         (match last k1 with
          | None => <[c:=below]> (_pcol self)
          | Some _ => _pcol self
          end))
      (remove_heap h q succ (last k1) below).
Proof.
  intros Hr Hc Hright Hdown Hq Ho Hk Hnd Hne.
  set (h1 := upd (fun x => Node.with_right x succ) q h).
  assert (length h1 = length h) as Hlen1 by (unfold h1; by rewrite upd_length).
  assert (forall X (f : Node.t -> X) a,
            (forall x s, f (Node.with_right x s) = f x) ->
            fld f h1 a = fld f h a) as Hold.
  { intros X f a Hf. unfold h1. by rewrite fld_upd_same by (intros; apply Hf). }
  pose proof (fld_lt _ _ _ _ Hr) as Hpa.
  destruct (deref_run Node.right pa h succ Hright) as (pn & Hd & Hpn).
  assert (Node.row pn = r /\ Node.col pn = c /\ Node.down pn = below) as (Hpr & Hpc & Hpd).
  { unfold deref, load in Hd. apply fld_Some in Hr as (x & Hx & Hr).
    rewrite Hx in Hd. injection Hd as <-.
    unfold fld in Hc, Hdown. rewrite Hx in Hc, Hdown. simpl in *.
    split; [done|]. split; congruence. }
  set (self1 := mkMatrix (nrows self) (ncols self)
                  (match q with
                   | None => <[r:=succ]> (_prow self)
                   | Some _ => _prow self
                   end) (_pcol self)).
  assert ((match q with
           | Some _ =>
               let* pn := deref (Some pa) in
               match Node.right pn with
               | Some r => set_right q (Some r)
               | None => set_right q None
               end ;;
               ret self
           | None =>
               let* pn := deref (Some pa) in
               match Node.right pn with
               | Some r =>
                   let* pn := deref (Some pa) in
                   let* l := assign (_prow self) (Node.row pn) (Some r) in
                   ret (with_prow self l)
               | None =>
                   let* pn := deref (Some pa) in
                   let* l := assign (_prow self) (Node.row pn) None in
                   ret (with_prow self l)
               end
           end) h = Return self1 h1) as Hrow.
  { destruct q as [qa|].
    - unfold bind. rewrite Hd, Hpn.
      assert (set_right (Some qa) succ h = Return () h1) as Hs
        by (by rewrite set_right_run).
      destruct succ; rewrite Hs; unfold ret, self1; f_equal; by destruct self.
    - unfold bind. rewrite Hd, Hpn.
      destruct succ; rewrite Hd, Hpr, assign_run by done; done. }
  destruct (deref_run Node.col pa h1 c) as (pn1 & Hd1 & Hpn1).
  { by rewrite Hold. }
  assert (Node.row pn1 = r /\ Node.down pn1 = below) as (Hpr1 & Hpd1).
  { unfold deref, load in Hd1.
    assert (fld Node.row h1 pa = Some r) as Hr1 by (by rewrite Hold).
    assert (fld Node.down h1 pa = Some below) as Hdn1 by (by rewrite Hold).
    apply fld_Some in Hr1 as (x & Hx & Hr1). rewrite Hx in Hd1. injection Hd1 as <-.
    unfold fld in Hdn1. rewrite Hx in Hdn1. simpl in *. split; congruence. }
  assert (c < length (_pcol self)) as Hcol by (by eapply lookup_lt_Some).
  unfold _removenode. unfold bind at 1. rewrite Hrow.
  unfold bind at 1. rewrite Hd1, Hpn1.
  unfold bind at 1. change (_pcol self1) with (_pcol self). rewrite (index_run _ _ _ _ Ho).
  unfold remove_heap. fold h1.
  destruct k1 as [|a k1].
  - (* the node is the head of its column *)
    destruct Hk as (-> & _). rewrite decide_True by done.
    unfold bind at 1. rewrite Hd1, Hpd1, Hpn1. cbn [last].
    unfold bind. destruct below; rewrite assign_run by done; done.
  - (* the node has a predecessor in its column *)
    assert (o = Some a) as -> by (by destruct Hk as (-> & _)).
    rewrite decide_False.
    2:{ intros [= ->]. apply NoDup_cons_1_1 in Hnd. apply Hnd.
        apply elem_of_app. right. left. }
    unfold bind at 1. rewrite Hd1, Hpn1.
    unfold bind at 1. rewrite (index_run _ _ _ _ Ho).
    unfold bind at 1, chain_fuel. unfold bind at 1.
    change (while ?f _ _ ?s ?h0) with (while f (seek_cond (Some pa)) seek_body s h0).
    rewrite (seek_spec h1 pa r (a :: k1) (Some a) None k2).
    + rewrite last_or_None.
      destruct (last (a :: k1)) as [ma|] eqn:Em; [|by apply last_None in Em].
      assert (ma < length h1) as Hma.
      { pose proof (lseg_in_heap _ _ _ _ _ Hk) as Hin. rewrite Forall_forall in Hin.
        rewrite Hlen1. apply Hin. apply elem_of_app. left.
        apply last_Some in Em as [k1' ->]. apply elem_of_app. right. left. }
      unfold bind at 1. rewrite Hd1, Hpd1.
      unfold bind.
      assert (set_down (Some ma) below h1
              = Return () (upd (fun x => Node.with_down x below) (Some ma) h1)) as Hs
        by (by rewrite set_down_run).
      destruct below; rewrite Hs; done.
    + eapply lseg_frame; [|exact Hk]. intros b _. by apply Hold.
    + by rewrite Hold.
    + rewrite Forall_forall in Hne |- *. intros b Hb. unfold key_at.
      rewrite Hold by done. by apply Hne.
    + rewrite Hlen1.
      pose proof (lseg_in_heap _ _ _ _ _ Hk) as Hin.
      pose proof (NoDup_length_le _ _ Hnd Hin) as Hle.
      rewrite length_app in Hle. simpl in Hle |- *. lia.
Qed.

(** ** Splicing a node into and out of a chain *)

Section Splice.
Variable nxt : Node.t -> option addr.

(** The reference held by the last node of [l1], or by the head when [l1]
    is empty, in a chain [l1 ++ l2]. *)
Lemma lseg_split h o l1 l2 :
  lseg nxt h o (l1 ++ l2) None ->
  lseg nxt h (head l2) l2 None /\
  match last l1 with
  | None => o = head l2
  | Some qa => fld nxt h qa = Some (head l2)
  end.
Proof.
  intros (mid & H1 & H2)%lseg_app.
  pose proof (lseg_nil_head _ _ _ _ H2) as ->. split; [done|].
  destruct l1 as [|qa l1 _] using rev_ind; [done|].
  rewrite last_snoc. apply lseg_app in H1 as (mid' & _ & -> & o' & Ho' & <-). done.
Qed.

Lemma lseg_insert h h' o l1 l2 new :
  lseg nxt h o (l1 ++ l2) None ->
  NoDup (l1 ++ l2) ->
  (forall b, b ∈ l1 ++ l2 -> last l1 <> Some b -> fld nxt h' b = fld nxt h b) ->
  fld nxt h' new = Some (head l2) ->
  (forall qa, last l1 = Some qa -> fld nxt h' qa = Some (Some new)) ->
  lseg nxt h' (match last l1 with None => Some new | Some _ => o end)
    (l1 ++ new :: l2) None.
Proof.
  intros Hl Hnd Hfr Hnew Hq.
  destruct (lseg_split _ _ _ _ Hl) as [Hl2 Hlast].
  assert (lseg nxt h' (head l2) l2 None) as Hl2'.
  { eapply lseg_frame; [|exact Hl2]. intros b Hb. apply Hfr.
    - apply elem_of_app. by right.
    - intros Hqb. apply NoDup_app in Hnd as (_ & Hdis & _).
      apply (Hdis b); [|done]. apply last_Some in Hqb as [l' ->].
      apply elem_of_app. right. left. }
  destruct l1 as [|qa l1 _] using rev_ind.
  - simpl. split; [done|]. eauto.
  - rewrite last_snoc in *. specialize (Hq qa eq_refl).
    rewrite <-!app_assoc in *. simpl in *.
    apply lseg_app in Hl as (mid & H1 & -> & _).
    apply lseg_app. exists (Some qa). split.
    + eapply lseg_frame; [|exact H1]. intros b Hb. apply Hfr.
      * apply elem_of_app. by left.
      * intros [= ->]. apply NoDup_app in Hnd as (_ & Hdis & _).
        apply (Hdis b Hb). left.
    + simpl. split; [done|]. exists (Some new). split; [done|].
      split; [done|]. eauto.
Qed.

Lemma lseg_remove h h' o l1 p l2 :
  lseg nxt h o (l1 ++ p :: l2) None ->
  NoDup (l1 ++ p :: l2) ->
  (forall b, b ∈ l1 ++ l2 -> last l1 <> Some b -> fld nxt h' b = fld nxt h b) ->
  (forall qa, last l1 = Some qa -> fld nxt h' qa = Some (head l2)) ->
  lseg nxt h' (match last l1 with None => head l2 | Some _ => o end)
    (l1 ++ l2) None.
Proof.
  intros Hl Hnd Hfr Hq.
  assert (lseg nxt h' (head l2) l2 None) as Hl2'.
  { apply lseg_app in Hl as (mid & _ & _ & o' & _ & Hl2).
    pose proof (lseg_nil_head _ _ _ _ Hl2) as ->.
    eapply lseg_frame; [|exact Hl2]. intros b Hb. apply Hfr.
    - apply elem_of_app. by right.
    - intros Hqb. apply NoDup_app in Hnd as (_ & Hdis & _).
      apply (Hdis b); [|by right]. apply last_Some in Hqb as [l' ->].
      apply elem_of_app. right. left. }
  destruct l1 as [|qa l1 _] using rev_ind; [done|].
  rewrite last_snoc in *. specialize (Hq qa eq_refl).
  rewrite <-!app_assoc in *. simpl in *.
  apply lseg_app in Hl as (mid & H1 & -> & _).
  apply lseg_app. exists (Some qa). split.
  - eapply lseg_frame; [|exact H1]. intros b Hb. apply Hfr.
    + apply elem_of_app. by left.
    + intros [= ->]. apply NoDup_app in Hnd as (_ & Hdis & _).
      apply (Hdis b Hb). left.
  - simpl. split; [done|]. eauto.
Qed.
End Splice.

(** The fields of the store after [_insertnode]. *)
Lemma insert_heap_length h row col el q succ m below :
  length (insert_heap h row col el q succ m below) = S (length h).
Proof.
  unfold insert_heap. rewrite !upd_length, length_app. simpl. lia.
Qed.

Lemma insert_heap_fld {X} (f : Node.t -> X) h row col el q succ m below b :
  (forall x r, f (Node.with_right x r) = f x) ->
  (forall x d, f (Node.with_down x d) = f x) ->
  fld f (insert_heap h row col el q succ m below) b
  = if decide (b = length h) then Some (f (Node.mk row col el None None))
    else fld f h b.
Proof.
  intros Hr Hd. unfold insert_heap.
  rewrite !fld_upd_same by (intros; first [apply Hr|apply Hd]).
  apply fld_alloc.
Qed.

Lemma insert_heap_right h row col el q succ m below b :
  match q with Some qa => qa < length h | None => True end ->
  fld Node.right (insert_heap h row col el q succ m below) b
  = if decide (b = length h) then Some succ
    else if decide (q = Some b) then Some (Some (length h))
    else fld Node.right h b.
Proof.
  intros Hq. unfold insert_heap.
  rewrite !(fld_upd_same Node.right _ _ (upd _ _ _)) by done.
  rewrite (fld_upd Node.right _ q). simpl.
  destruct (decide (q = Some b)) as [->|Hqb].
  - rewrite decide_False by lia. apply fld_const.
    rewrite !upd_length, length_app. simpl. lia.
  - rewrite (fld_upd Node.right _ (Some _)). simpl.
    destruct (decide (b = length h)) as [->|Hb].
    + rewrite decide_True by done. apply fld_const.
      rewrite length_app. simpl. lia.
    + rewrite decide_False by congruence.
      rewrite fld_alloc. by rewrite decide_False.
Qed.

Lemma insert_heap_down h row col el q succ m below b :
  match m with Some ma => ma < length h | None => True end ->
  fld Node.down (insert_heap h row col el q succ m below) b
  = if decide (b = length h) then Some below
    else if decide (m = Some b) then Some (Some (length h))
    else fld Node.down h b.
Proof.
  intros Hm. unfold insert_heap.
  rewrite (fld_upd Node.down _ m). simpl.
  destruct (decide (m = Some b)) as [->|Hmb].
  - rewrite decide_False by lia. apply fld_const.
    rewrite !upd_length, length_app. simpl. lia.
  - rewrite (fld_upd Node.down _ (Some _)). simpl.
    destruct (decide (b = length h)) as [->|Hb].
    + rewrite decide_True by done. apply fld_const.
      rewrite !upd_length, length_app. simpl. lia.
    + rewrite decide_False by congruence.
      rewrite !(fld_upd_same Node.down) by done.
      rewrite fld_alloc. by rewrite decide_False.
Qed.

(** The fields of the store after [_removenode]. *)
Lemma remove_heap_length h q succ m below :
  length (remove_heap h q succ m below) = length h.
Proof. unfold remove_heap. by rewrite !upd_length. Qed.

Lemma remove_heap_fld {X} (f : Node.t -> X) h q succ m below b :
  (forall x r, f (Node.with_right x r) = f x) ->
  (forall x d, f (Node.with_down x d) = f x) ->
  fld f (remove_heap h q succ m below) b = fld f h b.
Proof.
  intros Hr Hd. unfold remove_heap.
  by rewrite !fld_upd_same by (intros; first [apply Hr|apply Hd]).
Qed.

Lemma remove_heap_right h q succ m below b :
  match q with Some qa => qa < length h | None => True end ->
  fld Node.right (remove_heap h q succ m below) b
  = if decide (q = Some b) then Some succ else fld Node.right h b.
Proof.
  intros Hq. unfold remove_heap.
  rewrite (fld_upd_same Node.right) by done. rewrite fld_upd. simpl.
  case_decide as Hqb; [|done]. subst q. by apply fld_const.
Qed.

Lemma remove_heap_down h q succ m below b :
  match m with Some ma => ma < length h | None => True end ->
  fld Node.down (remove_heap h q succ m below) b
  = if decide (m = Some b) then Some below else fld Node.down h b.
Proof.
  intros Hm. unfold remove_heap. rewrite fld_upd. simpl.
  case_decide as Hmb.
  - subst m. apply fld_const. by rewrite upd_length.
  - by rewrite (fld_upd_same Node.down).
Qed.

(** ** Families of chains *)

Lemma in_chains_insert (L : list (list addr)) i l l' a :
  L !! i = Some l ->
  in_chains (<[i:=l']> L) a <-> a ∈ l' \/ exists j k, j <> i /\ L !! j = Some k /\ a ∈ k.
Proof.
  intros Hi. pose proof (lookup_lt_Some _ _ _ Hi) as Hlt. split.
  - intros (j & k & Hj & Ha). destruct (decide (i = j)) as [->|Hne].
    + rewrite list_lookup_insert_eq in Hj by done. injection Hj as <-. by left.
    + rewrite list_lookup_insert_ne in Hj by done. right. exists j, k. eauto.
  - intros [Ha|(j & k & Hne & Hj & Ha)].
    + exists i, l'. by rewrite list_lookup_insert_eq.
    + exists j, k. by rewrite list_lookup_insert_ne.
Qed.

Lemma in_chains_alt (L : list (list addr)) i l a :
  L !! i = Some l ->
  in_chains L a <-> a ∈ l \/ exists j k, j <> i /\ L !! j = Some k /\ a ∈ k.
Proof.
  intros Hi. rewrite <-(in_chains_insert L i l l a Hi).
  by rewrite list_insert_id.
Qed.

Section Chains_ok.
Variables (nxt : Node.t -> option addr) (key fixed : Node.t -> nat) (bound : nat).

Lemma chain_ok_in_heap h heads i l a :
  chain_ok nxt key fixed bound h heads i l -> a ∈ l -> a < length h.
Proof. intros Hok Ha. eapply fld_lt, (chain_ok_fixed Hok), Ha. Qed.

(** A chain none of whose nodes changed in [nxt], [key] and [fixed]. *)
Lemma chain_ok_frame h h' heads heads' i l :
  chain_ok nxt key fixed bound h heads i l ->
  heads' !! i = heads !! i ->
  (forall b, b ∈ l -> fld nxt h' b = fld nxt h b) ->
  (forall b, b ∈ l -> fld key h' b = fld key h b) ->
  (forall b, b ∈ l -> fld fixed h' b = fld fixed h b) ->
  chain_ok nxt key fixed bound h' heads' i l.
Proof.
  intros [(o & Ho & Hl) Hn Hs] Hh Hnxt Hkey Hfix. split.
  - exists o. split; [by rewrite Hh|]. by eapply lseg_frame.
  - rewrite Forall_forall in Hn |- *. intros b Hb. destruct (Hn b Hb) as [H1 H2].
    unfold key_at in *. by rewrite Hfix, Hkey.
  - by rewrite (key_at_frame key h h' l).
Qed.

(** The chain [i] after a node with key [k] was spliced in between [l1]
    and [l2]. *)
Lemma chain_ok_insert h h' heads i l1 l2 new k :
  chain_ok nxt key fixed bound h heads i (l1 ++ l2) ->
  new = length h ->
  (forall b, b ∈ l1 ++ l2 -> last l1 <> Some b -> fld nxt h' b = fld nxt h b) ->
  (forall b, b ∈ l1 ++ l2 -> fld key h' b = fld key h b) ->
  (forall b, b ∈ l1 ++ l2 -> fld fixed h' b = fld fixed h b) ->
  (forall qa, last l1 = Some qa -> fld nxt h' qa = Some (Some new)) ->
  fld nxt h' new = Some (head l2) ->
  fld key h' new = Some k ->
  fld fixed h' new = Some i ->
  k < bound ->
  Forall (fun a => key_at key h a < k) l1 ->
  Forall (fun a => k < key_at key h a) l2 ->
  chain_ok nxt key fixed bound h'
    (match last l1 with None => <[i:=Some new]> heads | Some _ => heads end)
    i (l1 ++ new :: l2).
Proof.
  intros Hok -> Hnxt Hkey Hfix Hq Hnew Hk Hf Hb H1 H2.
  pose proof (chain_ok_NoDup Hok) as Hnd.
  destruct Hok as [(o & Ho & Hl) Hn Hs].
  assert (key_at key h' <$> l1 ++ l2 = key_at key h <$> l1 ++ l2) as Hkeys
    by (by apply key_at_frame).
  rewrite !fmap_app in Hkeys. apply app_inj_1 in Hkeys as [Hk1 Hk2];
    [|by rewrite !length_fmap].
  split.
  - exists (match last l1 with None => Some (length h) | Some _ => o end). split.
    + destruct (last l1); [done|].
      apply list_lookup_insert_eq. by eapply lookup_lt_Some.
    + by apply (lseg_insert nxt h h' o l1 l2 (length h)).
  - rewrite Forall_app, Forall_cons. rewrite Forall_app in Hn.
    assert (forall l, (forall b, b ∈ l -> b ∈ l1 ++ l2) ->
              Forall (fun a => fld fixed h a = Some i /\ key_at key h a < bound) l ->
              Forall (fun a => fld fixed h' a = Some i /\ key_at key h' a < bound) l) as Hstep.
    { intros l Hsub Hall. rewrite Forall_forall in Hall |- *. intros b Hbl.
      destruct (Hall b Hbl) as [Hx Hy]. unfold key_at in *.
      rewrite Hfix, Hkey by (by apply Hsub). done. }
    split; [|split].
    + apply Hstep; [|by apply Hn]. intros b ?. apply elem_of_app. by left.
    + split; [done|]. by rewrite (key_at_fld _ _ _ _ Hk).
    + apply Hstep; [|by apply Hn]. intros b ?. apply elem_of_app. by right.
  - rewrite fmap_app, fmap_cons, Hk1, Hk2, (key_at_fld _ _ _ _ Hk).
    rewrite fmap_app in Hs. apply StronglySorted_app in Hs as (H12 & Hs1 & Hs2).
    apply StronglySorted_app. split; [|split; [done|]].
    + intros x1 x2 Hx1 [->|Hx2]%elem_of_cons.
      * apply list_elem_of_fmap in Hx1 as (a & -> & Ha).
        rewrite Forall_forall in H1. by apply H1.
      * by apply H12.
    + apply StronglySorted_cons. split; [|done].
      rewrite Forall_fmap. done.
Qed.

(** The chain [i] after the node [p] was spliced out. *)
Lemma chain_ok_remove h h' heads i l1 p l2 :
  chain_ok nxt key fixed bound h heads i (l1 ++ p :: l2) ->
  (forall b, b ∈ l1 ++ l2 -> last l1 <> Some b -> fld nxt h' b = fld nxt h b) ->
  (forall b, b ∈ l1 ++ l2 -> fld key h' b = fld key h b) ->
  (forall b, b ∈ l1 ++ l2 -> fld fixed h' b = fld fixed h b) ->
  (forall qa, last l1 = Some qa -> fld nxt h' qa = Some (head l2)) ->
  chain_ok nxt key fixed bound h'
    (match last l1 with None => <[i:=head l2]> heads | Some _ => heads end)
    i (l1 ++ l2).
Proof.
  intros Hok Hnxt Hkey Hfix Hq.
  pose proof (chain_ok_NoDup Hok) as Hnd.
  destruct Hok as [(o & Ho & Hl) Hn Hs].
  assert (key_at key h' <$> l1 ++ l2 = key_at key h <$> l1 ++ l2) as Hkeys
    by (by apply key_at_frame).
  split.
  - exists (match last l1 with None => head l2 | Some _ => o end). split.
    + destruct (last l1); [done|].
      apply list_lookup_insert_eq. by eapply lookup_lt_Some.
    + by apply (lseg_remove nxt h h' o l1 p l2).
  - rewrite Forall_forall in Hn |- *. intros b Hb.
    destruct (Hn b) as [Hx Hy].
    { apply elem_of_app in Hb as [?|?]; apply elem_of_app; [by left|right; by right]. }
    unfold key_at in *. by rewrite Hfix, Hkey.
  - rewrite Hkeys. rewrite fmap_app in Hs |- *. simpl in Hs.
    apply StronglySorted_app in Hs as (H12 & Hs1 & Hs2).
    apply StronglySorted_cons in Hs2 as [_ Hs2].
    apply StronglySorted_app. split; [|done].
    intros x1 x2 Hx1 Hx2. apply H12; [done|by right].
Qed.
End Chains_ok.

Lemma in_chains_insert_new (L : list (list addr)) i l1 l2 new a :
  L !! i = Some (l1 ++ l2) ->
  in_chains (<[i:=l1 ++ new :: l2]> L) a <-> a = new \/ in_chains L a.
Proof.
  intros Hi. rewrite (in_chains_insert L i _ _ a Hi), (in_chains_alt L i _ a Hi).
  assert (a ∈ l1 ++ new :: l2 <-> a = new \/ a ∈ l1 ++ l2) as ->; [|tauto].
  rewrite !elem_of_app, elem_of_cons. tauto.
Qed.

Lemma sorted_head_lt (f : addr -> nat) (l : list addr) k :
  StronglySorted lt (f <$> l) ->
  (forall b, head l = Some b -> k < f b) ->
  Forall (fun a => k < f a) l.
Proof.
  destruct l as [|b l]; [constructor|]. simpl.
  intros [Hall _]%StronglySorted_cons Hb. specialize (Hb b eq_refl).
  constructor; [done|]. rewrite Forall_fmap in Hall.
  eapply Forall_impl; [exact Hall|]. simpl. intros. lia.
Qed.

Section Families.
Variables (nxt : Node.t -> option addr) (key fixed : Node.t -> nat) (bound : nat).

(** Two nodes of different chains are different. *)
Lemma chains_disjoint h heads (L : list (list addr)) i j l l' a :
  (forall j l, L !! j = Some l -> chain_ok nxt key fixed bound h heads j l) ->
  L !! i = Some l -> L !! j = Some l' -> a ∈ l -> a ∈ l' -> i = j.
Proof.
  intros Hall Hi Hj Ha Ha'.
  pose proof (chain_ok_fixed (Hall _ _ Hi) a Ha) as H1.
  pose proof (chain_ok_fixed (Hall _ _ Hj) a Ha') as H2. congruence.
Qed.

Lemma chains_insert h h' heads (L : list (list addr)) i l1 l2 k :
  (forall j l, L !! j = Some l -> chain_ok nxt key fixed bound h heads j l) ->
  L !! i = Some (l1 ++ l2) ->
  (forall b, b < length h -> last l1 <> Some b -> fld nxt h' b = fld nxt h b) ->
  (forall b, b < length h -> fld key h' b = fld key h b) ->
  (forall b, b < length h -> fld fixed h' b = fld fixed h b) ->
  (forall qa, last l1 = Some qa -> fld nxt h' qa = Some (Some (length h))) ->
  fld nxt h' (length h) = Some (head l2) ->
  fld key h' (length h) = Some k ->
  fld fixed h' (length h) = Some i ->
  k < bound ->
  Forall (fun a => key_at key h a < k) l1 ->
  Forall (fun a => k < key_at key h a) l2 ->
  forall j l, <[i:=l1 ++ length h :: l2]> L !! j = Some l ->
    chain_ok nxt key fixed bound h'
      (match last l1 with None => <[i:=Some (length h)]> heads | Some _ => heads end)
      j l.
Proof.
  intros Hall Hi Hnxt Hkey Hfix Hq Hnew Hk Hf Hb H1 H2 j l Hj.
  pose proof (lookup_lt_Some _ _ _ Hi) as Hlt.
  pose proof (Hall _ _ Hi) as Hoki.
  destruct (decide (i = j)) as [<-|Hne].
  - rewrite list_lookup_insert_eq in Hj by done. injection Hj as <-.
    apply (chain_ok_insert nxt key fixed bound h h' heads i l1 l2 (length h) k);
      try done.
    + intros b Hbl. apply Hnxt. by eapply chain_ok_in_heap.
    + intros b Hbl. apply Hkey. by eapply chain_ok_in_heap.
    + intros b Hbl. apply Hfix. by eapply chain_ok_in_heap.
  - rewrite list_lookup_insert_ne in Hj by done.
    pose proof (Hall _ _ Hj) as Hokj.
    apply (chain_ok_frame nxt key fixed bound h h' heads); try done.
    + destruct (last l1); [done|]. by rewrite list_lookup_insert_ne.
    + intros b Hbl. apply Hnxt; [by eapply chain_ok_in_heap|].
      intros Hlast. apply Hne.
      eapply (chains_disjoint h heads L i j _ _ b Hall Hi Hj); [|done].
      apply elem_of_app. left. apply last_Some in Hlast as [l' ->].
      apply elem_of_app. right. left.
    + intros b Hbl. apply Hkey. by eapply chain_ok_in_heap.
    + intros b Hbl. apply Hfix. by eapply chain_ok_in_heap.
Qed.

Lemma chains_remove h h' heads (L : list (list addr)) i l1 p l2 :
  (forall j l, L !! j = Some l -> chain_ok nxt key fixed bound h heads j l) ->
  L !! i = Some (l1 ++ p :: l2) ->
  (forall b, last l1 <> Some b -> fld nxt h' b = fld nxt h b) ->
  (forall b, fld key h' b = fld key h b) ->
  (forall b, fld fixed h' b = fld fixed h b) ->
  (forall qa, last l1 = Some qa -> fld nxt h' qa = Some (head l2)) ->
  forall j l, <[i:=l1 ++ l2]> L !! j = Some l ->
    chain_ok nxt key fixed bound h'
      (match last l1 with None => <[i:=head l2]> heads | Some _ => heads end)
      j l.
Proof.
  intros Hall Hi Hnxt Hkey Hfix Hq j l Hj.
  pose proof (lookup_lt_Some _ _ _ Hi) as Hlt.
  pose proof (Hall _ _ Hi) as Hoki.
  destruct (decide (i = j)) as [<-|Hne].
  - rewrite list_lookup_insert_eq in Hj by done. injection Hj as <-.
    apply (chain_ok_remove nxt key fixed bound h h' heads i l1 p l2); auto.
  - rewrite list_lookup_insert_ne in Hj by done.
    pose proof (Hall _ _ Hj) as Hokj.
    apply (chain_ok_frame nxt key fixed bound h h' heads); auto.
    + destruct (last l1); [done|]. by rewrite list_lookup_insert_ne.
    + intros b Hbl. apply Hnxt.
      intros Hlast. apply Hne.
      eapply (chains_disjoint h heads L i j _ _ b Hall Hi Hj); [|done].
      apply elem_of_app. left. apply last_Some in Hlast as [l' ->].
      apply elem_of_app. right. left.
Qed.

Lemma chains_frame h h' heads (L : list (list addr)) :
  (forall j l, L !! j = Some l -> chain_ok nxt key fixed bound h heads j l) ->
  (forall b, fld nxt h' b = fld nxt h b) ->
  (forall b, fld key h' b = fld key h b) ->
  (forall b, fld fixed h' b = fld fixed h b) ->
  forall j l, L !! j = Some l -> chain_ok nxt key fixed bound h' heads j l.
Proof.
  intros Hall Hnxt Hkey Hfix j l Hj.
  apply (chain_ok_frame nxt key fixed bound h h' heads); auto.
Qed.
End Families.

Lemma in_chains_remove (L : list (list addr)) i l1 p l2 a :
  L !! i = Some (l1 ++ p :: l2) ->
  NoDup (l1 ++ p :: l2) ->
  (forall j k, j <> i -> L !! j = Some k -> p ∉ k) ->
  in_chains (<[i:=l1 ++ l2]> L) a <-> a <> p /\ in_chains L a.
Proof.
  intros Hi Hnd Hp.
  rewrite (in_chains_insert L i _ _ a Hi), (in_chains_alt L i _ a Hi).
  apply NoDup_app in Hnd as (_ & Hdis & [Hp2 _]%NoDup_cons).
  rewrite !elem_of_app, elem_of_cons. split.
  - intros [[Ha|Ha]|(j & k & Hne & Hj & Ha)].
    + split; [|tauto]. intros ->. apply (Hdis p Ha). left.
    + split; [|tauto]. by intros ->.
    + split; [|eauto 8]. intros ->. by apply (Hp j k).
  - intros [Hne [[Ha|[->|Ha]]|H]]; tauto.
Qed.

Lemma lseg_mid nxt h o l1 p l2 :
  lseg nxt h o (l1 ++ p :: l2) None -> fld nxt h p = Some (head l2).
Proof.
  intros (mid & _ & _ & o' & Ho' & Hl2)%lseg_app.
  by rewrite (lseg_nil_head _ _ _ _ Hl2) in Ho'.
Qed.

(** ** The methods preserve the invariants *)

Lemma wf_row_of self h R C a r l :
  wf self h R C -> R !! r = Some l -> a ∈ l -> fld Node.row h a = Some r.
Proof. intros Hwf Hr Ha. exact (chain_ok_fixed (wf_rows _ _ _ _ Hwf _ _ Hr) a Ha). Qed.

Lemma wf_col_of self h R C a c k :
  wf self h R C -> C !! c = Some k -> a ∈ k -> fld Node.col h a = Some c.
Proof. intros Hwf Hc Ha. exact (chain_ok_fixed (wf_cols _ _ _ _ Hwf _ _ Hc) a Ha). Qed.

(** A node of the column chain [c] whose row is [r] is in the row chain [r]. *)
Lemma wf_col_in_row self h R C a c k r l :
  wf self h R C -> C !! c = Some k -> a ∈ k ->
  R !! r = Some l -> key_at Node.row h a = r -> a ∈ l.
Proof.
  intros Hwf Hc Ha Hr Hkey.
  destruct (proj2 (wf_same _ _ _ _ Hwf a)) as (r' & l' & Hr' & Ha'); [by exists c, k|].
  pose proof (wf_row_of _ _ _ _ _ _ _ Hwf Hr' Ha') as Hrow.
  rewrite (key_at_fld _ _ _ _ Hrow) in Hkey. subst r'. congruence.
Qed.

Lemma wf_row_in_col self h R C a r l c k :
  wf self h R C -> R !! r = Some l -> a ∈ l ->
  C !! c = Some k -> key_at Node.col h a = c -> a ∈ k.
Proof.
  intros Hwf Hr Ha Hc Hkey.
  destruct (proj1 (wf_same _ _ _ _ Hwf a)) as (c' & k' & Hc' & Ha'); [by exists r, l|].
  pose proof (wf_col_of _ _ _ _ _ _ _ Hwf Hc' Ha') as Hcol.
  rewrite (key_at_fld _ _ _ _ Hcol) in Hkey. subst c'. congruence.
Qed.

(** [_insertnode] at a free place [(row, col)], whose row chain splits into
    the nodes [l1] before and [l2] after the column [col]. *)
Lemma wf_insert self h R C row col el l1 l2 :
  wf self h R C ->
  row < nrows self -> col < ncols self ->
  R !! row = Some (l1 ++ l2) ->
  Forall (fun a => key_at Node.col h a < col) l1 ->
  Forall (fun a => col < key_at Node.col h a) l2 ->
  exists self' k1 k2,
    C !! col = Some (k1 ++ k2) /\
    _insertnode self row col (last l1) el h
    = Return self' (insert_heap h row col el (last l1) (head l2) (last k1) (head k2)) /\
    nrows self' = nrows self /\ ncols self' = ncols self /\
    wf self' (insert_heap h row col el (last l1) (head l2) (last k1) (head k2))
       (<[row:=l1 ++ length h :: l2]> R) (<[col:=k1 ++ length h :: k2]> C).
Proof.
  intros Hwf Hrow Hcol HR H1 H2.
  destruct (lookup_lt_is_Some_2 C col) as [k HC]; [by rewrite (wf_C _ _ _ _ Hwf)|].
  pose proof (wf_rows _ _ _ _ Hwf _ _ HR) as Hokr.
  pose proof (wf_cols _ _ _ _ Hwf _ _ HC) as Hokc.
  destruct (ok_lseg _ _ _ _ _ _ _ _ Hokr) as (o & Ho & Hl).
  destruct (ok_lseg _ _ _ _ _ _ _ _ Hokc) as (oc & Hoc & Hk).
  destruct (lseg_split _ _ _ _ _ Hl) as [_ Hlast].
  destruct (insertnode_run self h row col (last l1) el (head l2) oc k)
    as (k1 & k2 & -> & Hk1 & Hk2 & Hrun); try done.
  { destruct (last l1); [done|]. by subst o. }
  { exact (chain_ok_NoDup Hokc). }
  { rewrite Forall_forall. intros a Ha Hkey.
    pose proof (wf_col_in_row _ _ _ _ _ _ _ _ _ Hwf HC Ha HR Hkey) as Hal.
    pose proof (wf_col_of _ _ _ _ _ _ _ Hwf HC Ha) as Hc.
    apply key_at_fld in Hc. rewrite Forall_forall in H1, H2.
    apply elem_of_app in Hal as [Hal|Hal]; [specialize (H1 a Hal)|specialize (H2 a Hal)]; lia. }
  assert (Forall (fun a => row < key_at Node.row h a) k2) as Hk2'.
  { apply sorted_head_lt; [|done].
    pose proof (ok_sorted _ _ _ _ _ _ _ _ Hokc) as Hs.
    rewrite fmap_app in Hs. by apply StronglySorted_app_1_r in Hs. }
  assert (match last l1 with Some qa => qa < length h | None => True end) as Hq.
  { destruct (last l1) as [qa|] eqn:E; [|done].
    eapply (chain_ok_in_heap _ _ _ _ _ _ _ _ _ Hokr).
    apply last_Some in E as [l' ->]. rewrite !elem_of_app. left. right. left. }
  assert (match last k1 with Some ma => ma < length h | None => True end) as Hm.
  { destruct (last k1) as [ma|] eqn:E; [|done].
    eapply (chain_ok_in_heap _ _ _ _ _ _ _ _ _ Hokc).
    apply last_Some in E as [l' ->]. rewrite !elem_of_app. left. right. left. }
  eexists _, k1, k2. split; [done|]. split; [exact Hrun|].
  split; [done|]. split; [done|].
  set (h' := insert_heap h row col el (last l1) (head l2) (last k1) (head k2)).
  split; simpl.
  - destruct (last l1); [|rewrite length_insert]; apply (wf_prow _ _ _ _ Hwf).
  - destruct (last k1); [|rewrite length_insert]; apply (wf_pcol _ _ _ _ Hwf).
  - rewrite length_insert. apply (wf_R _ _ _ _ Hwf).
  - rewrite length_insert. apply (wf_C _ _ _ _ Hwf).
  - unfold row_chain_ok. simpl.
    apply (chains_insert Node.right Node.col Node.row (ncols self) h h' (_prow self)
             R row l1 l2 col); try done.
    + apply (wf_rows _ _ _ _ Hwf).
    + intros b Hb Hne. unfold h'. rewrite insert_heap_right by done.
      rewrite decide_False by lia. by rewrite decide_False by done.
    + intros b Hb. unfold h'. rewrite insert_heap_fld by done. by rewrite decide_False by lia.
    + intros b Hb. unfold h'. rewrite insert_heap_fld by done. by rewrite decide_False by lia.
    + intros qa Hqa. unfold h'. rewrite insert_heap_right by done.
      rewrite Hqa in Hq. rewrite decide_False by lia. by rewrite decide_True.
    + unfold h'. rewrite insert_heap_right by done. by rewrite decide_True.
    + unfold h'. rewrite insert_heap_fld by done. by rewrite decide_True.
    + unfold h'. rewrite insert_heap_fld by done. by rewrite decide_True.
  - unfold col_chain_ok. simpl.
    apply (chains_insert Node.down Node.row Node.col (nrows self) h h' (_pcol self)
             C col k1 k2 row); try done.
    + apply (wf_cols _ _ _ _ Hwf).
    + intros b Hb Hne. unfold h'. rewrite insert_heap_down by done.
      rewrite decide_False by lia. by rewrite decide_False by done.
    + intros b Hb. unfold h'. rewrite insert_heap_fld by done. by rewrite decide_False by lia.
    + intros b Hb. unfold h'. rewrite insert_heap_fld by done. by rewrite decide_False by lia.
    + intros ma Hma. unfold h'. rewrite insert_heap_down by done.
      rewrite Hma in Hm. rewrite decide_False by lia. by rewrite decide_True.
    + unfold h'. rewrite insert_heap_down by done. by rewrite decide_True.
    + unfold h'. rewrite insert_heap_fld by done. by rewrite decide_True.
    + unfold h'. rewrite insert_heap_fld by done. by rewrite decide_True.
  - intros a. rewrite (in_chains_insert_new R row l1 l2 _ a HR).
    rewrite (in_chains_insert_new C col k1 k2 _ a HC).
    by rewrite (wf_same _ _ _ _ Hwf a).
Qed.

(** [_removenode] on the node [pa] of the row chain [row], found between
    [l1] and [l2]. *)
Lemma wf_remove self h R C row l1 pa l2 :
  wf self h R C ->
  R !! row = Some (l1 ++ pa :: l2) ->
  exists self' c k1 k2,
    fld Node.col h pa = Some c /\
    C !! c = Some (k1 ++ pa :: k2) /\
    _removenode self (Some pa) (last l1) h
    = Return self' (remove_heap h (last l1) (head l2) (last k1) (head k2)) /\
    nrows self' = nrows self /\ ncols self' = ncols self /\
    wf self' (remove_heap h (last l1) (head l2) (last k1) (head k2))
       (<[row:=l1 ++ l2]> R) (<[c:=k1 ++ k2]> C).
Proof.
  intros Hwf HR.
  pose proof (wf_rows _ _ _ _ Hwf _ _ HR) as Hokr.
  assert (pa ∈ l1 ++ pa :: l2) as Hpa by (apply elem_of_app; right; left).
  pose proof (wf_row_of _ _ _ _ _ _ _ Hwf HR Hpa) as Hprow.
  destruct (fld_is_Some Node.row Node.col h pa _ Hprow) as [c Hpcol].
  pose proof (chain_ok_bound Hokr pa Hpa) as Hc.
  rewrite (key_at_fld _ _ _ _ Hpcol) in Hc.
  destruct (lookup_lt_is_Some_2 C c) as [k HC]; [by rewrite (wf_C _ _ _ _ Hwf)|].
  pose proof (wf_cols _ _ _ _ Hwf _ _ HC) as Hokc.
  assert (pa ∈ k) as Hpk.
  { eapply (wf_row_in_col _ _ _ _ _ _ _ _ _ Hwf HR Hpa HC). by apply key_at_fld. }
  apply list_elem_of_split in Hpk as (k1 & k2 & ->).
  destruct (ok_lseg _ _ _ _ _ _ _ _ Hokr) as (o & Ho & Hl).
  destruct (ok_lseg _ _ _ _ _ _ _ _ Hokc) as (oc & Hoc & Hk).
  pose proof (lseg_mid _ _ _ _ _ _ Hl) as Hright.
  pose proof (lseg_mid _ _ _ _ _ _ Hk) as Hdown.
  pose proof (chain_ok_NoDup Hokr) as Hndr.
  pose proof (chain_ok_NoDup Hokc) as Hndc.
  assert (match last l1 with Some qa => qa < length h | None => True end) as Hq.
  { destruct (last l1) as [qa|] eqn:E; [|done].
    eapply (chain_ok_in_heap _ _ _ _ _ _ _ _ _ Hokr).
    apply last_Some in E as [l' ->]. rewrite !elem_of_app. left. right. left. }
  assert (match last k1 with Some ma => ma < length h | None => True end) as Hm.
  { destruct (last k1) as [ma|] eqn:E; [|done].
    eapply (chain_ok_in_heap _ _ _ _ _ _ _ _ _ Hokc).
    apply last_Some in E as [l' ->]. rewrite !elem_of_app. left. right. left. }
  assert (row < length (_prow self)) as Hrow by (by eapply lookup_lt_Some).
  pose proof (removenode_run self h pa (last l1) row c (head l2) (head k2) oc k1 k2
                Hprow Hpcol Hright Hdown) as Hrun.
  exists (mkMatrix (nrows self) (ncols self)
            (match last l1 with
             | None => <[row:=head l2]> (_prow self)
             | Some _ => _prow self
             end)
            (match last k1 with
             | None => <[c:=head k2]> (_pcol self)
             | Some _ => _pcol self
             end)), c, k1, k2.
  split; [done|]. split; [done|]. split.
  { apply Hrun; try done.
    - by destruct (last l1).
    - rewrite Forall_forall. intros a Ha Hkey.
      assert (a = pa) as ->.
      { apply (chain_ok_key_inj Hokc).
        - apply elem_of_app. by left.
        - apply elem_of_app. right. left.
        - by rewrite Hkey, (key_at_fld _ _ _ _ Hprow). }
      apply NoDup_app in Hndc as (_ & Hdis & _). apply (Hdis pa Ha). left. }
  split; [done|]. split; [done|].
  set (h' := remove_heap h (last l1) (head l2) (last k1) (head k2)).
  split; simpl.
  - destruct (last l1); [|rewrite length_insert]; apply (wf_prow _ _ _ _ Hwf).
  - destruct (last k1); [|rewrite length_insert]; apply (wf_pcol _ _ _ _ Hwf).
  - rewrite length_insert. apply (wf_R _ _ _ _ Hwf).
  - rewrite length_insert. apply (wf_C _ _ _ _ Hwf).
  - unfold row_chain_ok. simpl.
    apply (chains_remove Node.right Node.col Node.row (ncols self) h h' (_prow self)
             R row l1 pa l2); try done.
    + apply (wf_rows _ _ _ _ Hwf).
    + intros b Hne. unfold h'. rewrite remove_heap_right by done.
      by rewrite decide_False by done.
    + intros b. unfold h'. by rewrite remove_heap_fld.
    + intros b. unfold h'. by rewrite remove_heap_fld.
    + intros qa Hqa. unfold h'. rewrite remove_heap_right by done.
      by rewrite decide_True.
  - unfold col_chain_ok. simpl.
    apply (chains_remove Node.down Node.row Node.col (nrows self) h h' (_pcol self)
             C c k1 pa k2); try done.
    + apply (wf_cols _ _ _ _ Hwf).
    + intros b Hne. unfold h'. rewrite remove_heap_down by done.
      by rewrite decide_False by done.
    + intros b. unfold h'. by rewrite remove_heap_fld.
    + intros b. unfold h'. by rewrite remove_heap_fld.
    + intros ma Hma. unfold h'. rewrite remove_heap_down by done.
      by rewrite decide_True.
  - intros a.
    rewrite (in_chains_remove R row l1 pa l2 a HR Hndr).
    2:{ intros j k' Hne Hj Hin. apply Hne.
        pose proof (wf_row_of _ _ _ _ _ _ _ Hwf Hj Hin). congruence. }
    rewrite (in_chains_remove C c k1 pa k2 a HC Hndc).
    2:{ intros j k' Hne Hj Hin. apply Hne.
        pose proof (wf_col_of _ _ _ _ _ _ _ Hwf Hj Hin). congruence. }
    by rewrite (wf_same _ _ _ _ Hwf a).
Qed.

(** Overwriting the element of a node. *)
Lemma wf_set_el self h R C p v :
  wf self h R C -> wf self (upd (fun x => Node.with_el x v) p h) R C.
Proof.
  intros Hwf. split; try apply Hwf.
  - apply (chains_frame Node.right Node.col Node.row (ncols self) h); [apply Hwf|..];
      intros b; by rewrite fld_upd_same.
  - apply (chains_frame Node.down Node.row Node.col (nrows self) h); [apply Hwf|..];
      intros b; by rewrite fld_upd_same.
Qed.

(** ** [__setitem__] *)

Lemma lookup_row_skip h l1 a l2 c :
  key_at Node.col h a <> c ->
  lookup_row h (l1 ++ a :: l2) c = lookup_row h (l1 ++ l2) c.
Proof.
  intros Ha. induction l1 as [|b l1 IH]; simpl.
  - by rewrite (proj2 (Nat.eqb_neq _ _) Ha).
  - by rewrite IH.
Qed.

Lemma lookup_row_hit h l1 a l2 c v :
  Forall (fun b => key_at Node.col h b <> c) l1 ->
  fld Node.col h a = Some c -> fld Node.el h a = Some v ->
  lookup_row h (l1 ++ a :: l2) c = v.
Proof.
  intros H1 Hc Hv. rewrite lookup_row_app by done. simpl.
  by rewrite (key_at_fld _ _ _ _ Hc), Nat.eqb_refl, Hv.
Qed.

Lemma Forall_key_frame (P : nat -> Prop) key h h' (l : list addr) :
  (forall a, a ∈ l -> fld key h' a = fld key h a) ->
  Forall (fun a => P (key_at key h a)) l -> Forall (fun a => P (key_at key h' a)) l.
Proof.
  intros Hfr Hall. rewrite Forall_forall in Hall |- *. intros a Ha.
  unfold key_at. rewrite Hfr by done. by apply Hall.
Qed.

(** The place [(r, c)] is free and the value is not zero: a node is
    inserted. *)
Lemma setitem_insert self h R C r c v l1 l2 :
  wf self h R C -> r < nrows self -> c < ncols self ->
  R !! r = Some (l1 ++ l2) ->
  Forall (fun a => key_at Node.col h a < c) l1 ->
  Forall (fun a => c < key_at Node.col h a) l2 ->
  exists self' h' R' C',
    _insertnode self r c (last l1) v h = Return self' h' /\
    wf self' h' R' C' /\ nrows self' = nrows self /\ ncols self' = ncols self /\
    (forall r' c' l l', R !! r' = Some l -> R' !! r' = Some l' ->
       lookup_row h' l' c' = if decide (r' = r /\ c' = c) then v else lookup_row h l c').
Proof.
  intros Hwf Hr Hc HR H1 H2.
  destruct (wf_insert self h R C r c v l1 l2 Hwf Hr Hc HR H1 H2)
    as (self' & k1 & k2 & HC & Hrun & Hnr & Hnc & Hwf').
  eexists self', _, _, _. split; [exact Hrun|]. split; [exact Hwf'|].
  split; [done|]. split; [done|].
  set (h' := insert_heap h r c v (last l1) (head l2) (last k1) (head k2)).
  assert (forall X (f : Node.t -> X) b, b < length h ->
            (forall x s, f (Node.with_right x s) = f x) ->
            (forall x d, f (Node.with_down x d) = f x) ->
            fld f h' b = fld f h b) as Hold.
  { intros X f b Hb Hfr Hfd. unfold h'. rewrite insert_heap_fld by done.
    by rewrite decide_False by lia. }
  assert (forall X (f : Node.t -> X),
            (forall x s, f (Node.with_right x s) = f x) ->
            (forall x d, f (Node.with_down x d) = f x) ->
            fld f h' (length h) = Some (f (Node.mk r c v None None))) as Hnew.
  { intros X f Hfr Hfd. unfold h'. rewrite insert_heap_fld by done.
    by rewrite decide_True. }
  pose proof (wf_rows _ _ _ _ Hwf _ _ HR) as Hokr.
  assert (forall b, b ∈ l1 ++ l2 -> b < length h) as Hin.
  { intros b Hb. by eapply chain_ok_in_heap. }
  intros r' c' l l' Hl Hl'.
  destruct (decide (r' = r)) as [->|Hne].
  - rewrite list_lookup_insert_eq in Hl' by (by eapply lookup_lt_Some).
    injection Hl' as <-. rewrite HR in Hl. injection Hl as <-.
    destruct (decide (c' = c)) as [->|Hnec].
    + rewrite decide_True by done.
      apply lookup_row_hit; [|by apply Hnew..].
      apply (Forall_key_frame (fun x => x <> c) Node.col h h').
      * intros a Ha. apply Hold; [|done..]. apply Hin, elem_of_app. by left.
      * eapply Forall_impl; [exact H1|]. simpl. intros. lia.
    + rewrite decide_False by tauto.
      rewrite lookup_row_skip
        by (rewrite (key_at_fld _ _ _ _ (Hnew _ Node.col ltac:(done) ltac:(done))); simpl; congruence).
      apply lookup_row_frame; intros a Ha; intros; apply Hold; auto.
  - rewrite list_lookup_insert_ne in Hl' by done.
    rewrite Hl in Hl'. injection Hl' as <-.
    rewrite decide_False by tauto.
    pose proof (wf_rows _ _ _ _ Hwf _ _ Hl) as Hokl.
    apply lookup_row_frame; intros a Ha; intros; apply Hold; auto;
      by eapply chain_ok_in_heap.
Qed.

(** The place [(r, c)] holds the node [pa] and the value is zero: the node
    is removed. *)
Lemma setitem_remove self h R C r c l1 pa l2 :
  wf self h R C ->
  R !! r = Some (l1 ++ pa :: l2) ->
  key_at Node.col h pa = c ->
  exists self' h' R' C',
    _removenode self (Some pa) (last l1) h = Return self' h' /\
    wf self' h' R' C' /\ nrows self' = nrows self /\ ncols self' = ncols self /\
    set_post h R r c 0 h' R'.
Proof.
  intros Hwf HR Hkey.
  destruct (wf_remove self h R C r l1 pa l2 Hwf HR)
    as (self' & c0 & k1 & k2 & Hpcol & HC & Hrun & Hnr & Hnc & Hwf').
  rewrite (key_at_fld _ _ _ _ Hpcol) in Hkey. subst c0.
  eexists self', _, _, _. split; [exact Hrun|]. split; [exact Hwf'|].
  split; [done|]. split; [done|].
  set (h' := remove_heap h (last l1) (head l2) (last k1) (head k2)) in *.
  assert (forall X (f : Node.t -> X) b,
            (forall x s, f (Node.with_right x s) = f x) ->
            (forall x d, f (Node.with_down x d) = f x) ->
            fld f h' b = fld f h b) as Hold.
  { intros X f b Hfr Hfd. unfold h'. by rewrite remove_heap_fld. }
  pose proof (wf_rows _ _ _ _ Hwf _ _ HR) as Hokr.
  assert (Forall (fun a => key_at Node.col h a <> c) (l1 ++ l2)) as Habs.
  { rewrite Forall_forall. intros a Ha Hk.
    assert (a = pa) as ->.
    { apply (chain_ok_key_inj Hokr).
      - apply elem_of_app in Ha as [?|?]; apply elem_of_app; [by left|right; by right].
      - apply elem_of_app. right. left.
      - by rewrite Hk, (key_at_fld _ _ _ _ Hpcol). }
    pose proof (chain_ok_NoDup Hokr) as Hnd.
    apply NoDup_app in Hnd as (_ & Hdis & [Hp2 _]%NoDup_cons).
    apply elem_of_app in Ha as [Ha|Ha]; [|done]. apply (Hdis pa Ha). left. }
  assert (Forall (fun a => key_at Node.col h' a <> c) (l1 ++ l2)) as Habs'.
  { apply (Forall_key_frame (fun x => x <> c) Node.col h h'); [|done].
    intros a _. by apply Hold. }
  split.
  - intros r' c' l l' Hl Hl'.
    destruct (decide (r' = r)) as [->|Hne].
    + rewrite list_lookup_insert_eq in Hl' by (by eapply lookup_lt_Some).
      injection Hl' as <-. rewrite HR in Hl. injection Hl as <-.
      destruct (decide (c' = c)) as [->|Hnec].
      * rewrite decide_True by done. by apply lookup_row_absent.
      * rewrite decide_False by tauto.
        rewrite (lookup_row_skip h l1 pa l2 c')
          by (rewrite (key_at_fld _ _ _ _ Hpcol); congruence).
        apply lookup_row_frame; intros; by apply Hold.
    + rewrite list_lookup_insert_ne in Hl' by done.
      rewrite Hl in Hl'. injection Hl' as <-.
      rewrite decide_False by tauto.
      apply lookup_row_frame; intros; by apply Hold.
  - intros _ a (j & l & Hj & Ha) [Hrow Hcol].
    pose proof (wf_row_of _ _ _ _ _ _ _ Hwf' Hj Ha) as Hrow'.
    assert (j = r) as -> by congruence.
    rewrite list_lookup_insert_eq in Hj by (by eapply lookup_lt_Some).
    injection Hj as <-. rewrite Forall_forall in Habs'.
    apply (Habs' a Ha). by apply key_at_fld.
Qed.

(** No node of a well-formed matrix other than those of the row chain [r]
    has the row [r]. *)
Lemma wf_in_row self h R C a r l :
  wf self h R C -> R !! r = Some l -> in_chains R a ->
  fld Node.row h a = Some r -> a ∈ l.
Proof.
  intros Hwf Hr (j & l' & Hj & Ha) Hrow.
  pose proof (wf_row_of _ _ _ _ _ _ _ Hwf Hj Ha) as Hrow'.
  assert (j = r) as -> by congruence. congruence.
Qed.

(** [__setitem__] returns, keeps the matrix well formed, stores [v] at
    [(r, c)] and changes no other value. *)
Lemma setitem_spec self h R C r c v :
  wf self h R C -> r < nrows self -> c < ncols self ->
  exists self' h' R' C',
    __setitem__ self r c v h = Return self' h' /\
    wf self' h' R' C' /\ nrows self' = nrows self /\ ncols self' = ncols self /\
    set_post h R r c v h' R'.
Proof.
  intros Hwf Hr Hc.
  destruct (lookup_lt_is_Some_2 R r) as [l HR]; [by rewrite (wf_R _ _ _ _ Hwf)|].
  pose proof (wf_rows _ _ _ _ Hwf _ _ HR) as Hokr.
  destruct (findnode_spec self h r l c Hokr) as (l1 & l2 & -> & H1 & H2 & Hf).
  unfold __setitem__, bind. rewrite Hf, last_or_None.
  unfold hit. destruct l2 as [|pa l2]; simpl.
  - (* the walk reached the end of the row *)
    destruct (Z.eqb_spec v 0) as [->|Hv]; simpl.
    + exists self, h, R, C. do 4 (split; [done|]). split.
      * intros r' c' l l' Hl Hl'. rewrite Hl in Hl'. injection Hl' as <-.
        case_decide as Hd; [|done]. destruct Hd as [-> ->].
        rewrite HR in Hl. injection Hl as <-. apply lookup_row_absent.
        rewrite app_nil_r. eapply Forall_impl; [exact H1|]. simpl. intros. lia.
      * intros _ a Hin [Hrow Hcol].
        pose proof (wf_in_row _ _ _ _ _ _ _ Hwf HR Hin Hrow) as Ha.
        rewrite app_nil_r in Ha. rewrite Forall_forall in H1.
        specialize (H1 a Ha). rewrite (key_at_fld _ _ _ _ Hcol) in H1. lia.
    + destruct (setitem_insert self h R C r c v l1 [] Hwf Hr Hc HR H1)
        as (self' & h' & R' & C' & Hrun & Hwf' & Hnr & Hnc & Hpost); [constructor|].
      exists self', h', R', C'. do 4 (split; [done|]). by split.
  - assert (pa ∈ l1 ++ pa :: l2) as Hpa by (apply elem_of_app; right; left).
    pose proof (chain_ok_in_heap _ _ _ _ _ _ _ _ pa Hokr Hpa) as Hlt.
    destruct (key_at Node.col h pa =? c) eqn:E.
    + (* the node [pa] holds the place *)
      apply Nat.eqb_eq in E.
      destruct (Z.eqb_spec v 0) as [->|Hv].
      * destruct (setitem_remove self h R C r c l1 pa l2 Hwf HR E)
          as (self' & h' & R' & C' & Hrun & Hwf' & Hnr & Hnc & Hpost).
        by exists self', h', R', C'.
      * rewrite set_el_run by done. simpl.
        set (h' := upd (fun x => Node.with_el x v) (Some pa) h).
        exists self, h', R, C. split; [done|].
        split; [by apply wf_set_el|]. split; [done|]. split; [done|].
        split; [|done].
        intros r' c' l l' Hl Hl'. rewrite Hl in Hl'. injection Hl' as <-.
        assert (forall b, fld Node.col h' b = fld Node.col h b) as Hcol
          by (intros b; unfold h'; by rewrite fld_upd_same).
        case_decide as Hd.
        -- destruct Hd as [-> ->]. rewrite HR in Hl. injection Hl as <-.
           pose proof (wf_row_of _ _ _ _ _ _ _ Hwf HR Hpa) as Hprow.
           destruct (fld_is_Some Node.row Node.col h pa _ Hprow) as [c0 Hpcol].
           rewrite (key_at_fld _ _ _ _ Hpcol) in E. subst c0.
           apply lookup_row_hit.
           ++ apply (Forall_key_frame (fun x => x <> c) Node.col h h'); [by intros|].
              eapply Forall_impl; [exact H1|]. simpl. intros. lia.
           ++ by rewrite Hcol.
           ++ unfold h'. rewrite fld_upd, decide_True by done. simpl.
              by apply fld_const.
        -- apply lookup_row_frame; [by intros|].
           intros a Ha Hk. unfold h'. rewrite fld_upd.
           case_decide as Hap; [|done]. injection Hap as <-.
           exfalso. apply Hd. split; [|congruence].
           pose proof (wf_row_of _ _ _ _ _ _ _ Hwf HR Hpa).
           pose proof (wf_row_of _ _ _ _ _ _ _ Hwf Hl Ha). congruence.
    + (* the next node of the row is beyond the place *)
      apply Nat.eqb_neq in E.
      assert (Forall (fun a => c < key_at Node.col h a) (pa :: l2)) as H2'.
      { apply sorted_head_lt.
        - pose proof (ok_sorted _ _ _ _ _ _ _ _ Hokr) as Hs.
          rewrite fmap_app in Hs. by apply StronglySorted_app_1_r in Hs.
        - intros b [= <-]. apply Forall_cons_1 in H2 as [Hb _]. lia. }
      destruct (Z.eqb_spec v 0) as [->|Hv]; simpl.
      * exists self, h, R, C. do 4 (split; [done|]). split.
        -- intros r' c' l l' Hl Hl'. rewrite Hl in Hl'. injection Hl' as <-.
           case_decide as Hd; [|done]. destruct Hd as [-> ->].
           rewrite HR in Hl. injection Hl as <-. apply lookup_row_absent.
           apply Forall_app. split; (eapply Forall_impl; [eassumption|]);
             simpl; intros; lia.
        -- intros _ a Hin [Hrow Hcol].
           pose proof (wf_in_row _ _ _ _ _ _ _ Hwf HR Hin Hrow) as Ha.
           rewrite Forall_forall in H1, H2'. apply key_at_fld in Hcol.
           apply elem_of_app in Ha as [Ha|Ha];
             [specialize (H1 a Ha)|specialize (H2' a Ha)]; lia.
      * destruct (setitem_insert self h R C r c v l1 (pa :: l2) Hwf Hr Hc HR H1 H2')
          as (self' & h' & R' & C' & Hrun & Hwf' & Hnr & Hnc & Hpost).
        exists self', h', R', C'. do 4 (split; [done|]). by split.
Qed.

(** ** The scan for the first non-empty row or column *)

(** On heads that are all [None] the scan runs past the end of the list. *)
Lemma scan_zero n fuel : forall i h,
  i < n -> n - i <= fuel ->
  while fuel scan_cond (scan_body (replicate n None)) (i, None) h
  = Raise IndexError h.
Proof.
  induction fuel as [|fuel IH]; intros i h Hi Hfuel; [lia|].
  rewrite while_unfold. unfold scan_cond at 1, scan_body at 1, bind, ret, index.
  simpl. destruct (decide (i + 1 < n)) as [Hlt|Hge].
  - rewrite lookup_replicate_2 by done. apply IH; lia.
  - by rewrite (proj2 (lookup_ge_None _ _)) by (rewrite length_replicate; lia).
Qed.

(** [multiplyRight] raises [IndexError] on every matrix without entries. *)
Lemma mul_zero_matrix_raises nr (v : list Z) h :
  __mul__ (__init__ nr (length v)) v h = Raise IndexError h.
Proof.
  unfold __mul__. simpl. rewrite Nat.eqb_refl. simpl.
  destruct nr as [|nr]; [done|].
  unfold bind at 1. simpl. unfold bind at 1.
  change (while ?f _ _ ?s ?h0)
    with (while f scan_cond (scan_body (replicate (S nr) None)) s h0).
  rewrite scan_zero; [done|lia|].
  unfold scan_fuel. simpl. rewrite ?length_replicate. lia.
Qed.

(** [transpose] raises [IndexError] on every matrix without entries. *)
Lemma transposed_zero_matrix_raises nr nc h :
  transposed (__init__ nr nc) h = Raise IndexError h.
Proof.
  unfold transposed. simpl.
  destruct nc as [|nc]; [done|].
  unfold bind at 1. simpl. unfold bind at 1.
  change (while ?f _ _ ?s ?h0)
    with (while f scan_cond (scan_body (replicate (S nc) None)) s h0).
  rewrite scan_zero; [done|lia|].
  unfold scan_fuel. simpl. rewrite ?length_replicate. lia.
Qed.

(** [add] raises [IndexError] whenever its left operand has no entries. *)
Lemma add_zero_matrix_raises nr nc rhs h :
  nrows rhs = nr -> ncols rhs = nc ->
  __add__ (__init__ nr nc) rhs h = Raise IndexError h.
Proof.
  intros <- <-. unfold __add__. simpl. rewrite !Nat.eqb_refl. simpl.
  destruct (nrows rhs) as [|nr]; [done|].
  unfold bind at 1. simpl. unfold bind at 1.
  change (while ?f _ _ ?s ?h0)
    with (while f scan_cond (scan_body (replicate (S nr) None)) s h0).
  rewrite scan_zero; [done|lia|].
  unfold scan_fuel. simpl. rewrite ?length_replicate. lia.
Qed.

(** * Properties of the specification *)

(** ** A constructed matrix is well formed *)

Lemma wf_init nr nc h :
  wf (__init__ nr nc) h (replicate nr []) (replicate nc []).
Proof.
  assert (forall nxt key fixed bound n j (l : list addr),
            replicate n [] !! j = Some l ->
            chain_ok nxt key fixed bound h (replicate n None) j l) as Hok.
  { intros nxt key fixed bound n j l [-> Hj]%lookup_replicate. split.
    - exists None. split; [by apply lookup_replicate_2|done].
    - constructor.
    - constructor. }
  split; simpl; try by rewrite length_replicate.
  - intros r l. apply Hok.
  - intros c l. apply Hok.
  - intros a. split; intros (j & l & [-> _]%lookup_replicate & Ha);
      by apply elem_of_nil in Ha.
Qed.

(** A sequence of assignments within the bounds returns and keeps the
    matrix well formed. *)
Lemma set_all_wf ops : forall self h R C,
  wf self h R C ->
  Forall (fun '(r, c, _) => r < nrows self /\ c < ncols self) ops ->
  exists self' h' R' C',
    set_all self ops h = Return self' h' /\ wf self' h' R' C' /\
    nrows self' = nrows self /\ ncols self' = ncols self.
Proof.
  induction ops as [|[[r c] v] ops IH]; intros self h R C Hwf Hops.
  - by exists self, h, R, C.
  - apply Forall_cons_1 in Hops as [[Hr Hc] Hops].
    destruct (setitem_spec self h R C r c v Hwf Hr Hc)
      as (self1 & h1 & R1 & C1 & Hrun & Hwf1 & Hnr & Hnc & _).
    destruct (IH self1 h1 R1 C1 Hwf1) as (self' & h' & R' & C' & Hrun' & Hwf' & Hnr' & Hnc').
    { by rewrite Hnr, Hnc. }
    exists self', h', R', C'. simpl. unfold bind. rewrite Hrun.
    split; [done|]. split; [done|]. split; congruence.
Qed.

(** C7: after any sequence of [set] calls with coordinates within the bounds
    on a constructed matrix, the run returns a matrix whose row chains [R] and
    column chains [C] satisfy: every row chain starts at its row head, holds
    nodes of that row only and has strictly increasing columns (I1); every
    column chain starts at its column head, holds nodes of that column only
    and has strictly increasing rows (I2); the nodes of the row chains are the
    nodes of the column chains (I4), and every node occurs in one chain of
    each kind, once. *)
Theorem C7_set_keeps_chains_ordered nr nc ops h0 :
  Forall (fun '(r, c, _) => r < nr /\ c < nc) ops ->
  exists self h R C,
    set_all (__init__ nr nc) ops h0 = Return self h /\
    length R = nr /\ length C = nc /\
    (forall r l, R !! r = Some l -> row_chain_ok self h r l /\ NoDup l) /\
    (forall c l, C !! c = Some l -> col_chain_ok self h c l /\ NoDup l) /\
    (forall a, in_chains R a <-> in_chains C a) /\
    (forall a i j l l', R !! i = Some l -> R !! j = Some l' ->
       a ∈ l -> a ∈ l' -> i = j) /\
    (forall a i j l l', C !! i = Some l -> C !! j = Some l' ->
       a ∈ l -> a ∈ l' -> i = j).
Proof.
  intros Hops.
  destruct (set_all_wf ops (__init__ nr nc) h0 _ _ (wf_init nr nc h0) Hops)
    as (self & h & R & C & Hrun & Hwf & Hnr & Hnc).
  simpl in Hnr, Hnc.
  exists self, h, R, C. split; [done|].
  split; [by rewrite (wf_R _ _ _ _ Hwf)|]. split; [by rewrite (wf_C _ _ _ _ Hwf)|].
  split; [|split; [|split; [|split]]].
  - intros r l Hl. pose proof (wf_rows _ _ _ _ Hwf _ _ Hl) as Hok.
    split; [done|]. exact (chain_ok_NoDup Hok).
  - intros c l Hl. pose proof (wf_cols _ _ _ _ Hwf _ _ Hl) as Hok.
    split; [done|]. exact (chain_ok_NoDup Hok).
  - apply (wf_same _ _ _ _ Hwf).
  - intros a i j l l'.
    apply (chains_disjoint Node.right Node.col Node.row (ncols self) h (_prow self)).
    apply (wf_rows _ _ _ _ Hwf).
  - intros a i j l l'.
    apply (chains_disjoint Node.down Node.row Node.col (nrows self) h (_pcol self)).
    apply (wf_cols _ _ _ _ Hwf).
Qed.

Lemma C7_set_keeps_chains_ordered_witness :
  Forall (fun '(r, c, _) => r < 2 /\ c < 2) [(0, 1, 5%Z); (1, 1, 3%Z); (0, 1, 0%Z)] /\
  exists self h R C,
    set_all (__init__ 2 2) [(0, 1, 5%Z); (1, 1, 3%Z); (0, 1, 0%Z)] [] = Return self h /\
    length R = 2 /\ length C = 2 /\
    (forall r l, R !! r = Some l -> row_chain_ok self h r l /\ NoDup l) /\
    (forall c l, C !! c = Some l -> col_chain_ok self h c l /\ NoDup l) /\
    (forall a, in_chains R a <-> in_chains C a) /\
    (forall a i j l l', R !! i = Some l -> R !! j = Some l' ->
       a ∈ l -> a ∈ l' -> i = j) /\
    (forall a i j l l', C !! i = Some l -> C !! j = Some l' ->
       a ∈ l -> a ∈ l' -> i = j).
Proof.
  assert (Forall (fun '(r, c, _) => r < 2 /\ c < 2)
            [(0, 1, 5%Z); (1, 1, 3%Z); (0, 1, 0%Z)]) as Hops
    by (repeat constructor; lia).
  split; [exact Hops|].
  exact (C7_set_keeps_chains_ordered 2 2 _ [] Hops).
Defined.

(** ** Reading back what was set *)

(** C8: on a matrix that satisfies the invariants of the data model, and for
    coordinates [(r, c)] within the bounds, [set(M, r, c, v)] returns and
    [get(M, r, c)] then returns [v] (so [v] itself when it is not zero, and
    zero after setting zero); the matrix still satisfies the invariants, and
    after setting zero no node of a row chain or of a column chain has the
    coordinates [(r, c)]. *)
Theorem C8_get_after_set self h R C r c v :
  wf self h R C -> r < nrows self -> c < ncols self ->
  exists self' h' R' C',
    __setitem__ self r c v h = Return self' h' /\
    __getitem__ self' r c h' = Return v h' /\
    wf self' h' R' C' /\
    (v = 0%Z -> forall a, in_chains R' a \/ in_chains C' a ->
       ~ (fld Node.row h' a = Some r /\ fld Node.col h' a = Some c)).
Proof.
  intros Hwf Hr Hc.
  destruct (setitem_spec self h R C r c v Hwf Hr Hc)
    as (self' & h' & R' & C' & Hrun & Hwf' & Hnr & Hnc & Hval & Habs).
  exists self', h', R', C'. split; [done|].
  destruct (lookup_lt_is_Some_2 R r) as [l Hl]; [by rewrite (wf_R _ _ _ _ Hwf)|].
  destruct (lookup_lt_is_Some_2 R' r) as [l' Hl'];
    [by rewrite (wf_R _ _ _ _ Hwf'), Hnr|].
  split; [|split; [done|]].
  - rewrite (getitem_spec self' h' r l' c (wf_rows _ _ _ _ Hwf' _ _ Hl')).
    rewrite (Hval r c l l' Hl Hl'). by rewrite decide_True.
  - intros Hv a [Ha|Ha]; [by apply Habs|].
    apply Habs; [done|]. by apply (wf_same _ _ _ _ Hwf').
Qed.

Lemma C8_get_after_set_witness :
  wf (__init__ 2 3) [] (replicate 2 []) (replicate 3 []) /\
  1 < nrows (__init__ 2 3) /\ 2 < ncols (__init__ 2 3) /\
  exists self' h' R' C',
    __setitem__ (__init__ 2 3) 1 2 4%Z [] = Return self' h' /\
    __getitem__ self' 1 2 h' = Return 4%Z h' /\
    wf self' h' R' C' /\
    (4%Z = 0%Z -> forall a, in_chains R' a \/ in_chains C' a ->
       ~ (fld Node.row h' a = Some 1 /\ fld Node.col h' a = Some 2)).
Proof.
  split; [apply wf_init|]. split; [simpl; lia|]. split; [simpl; lia|].
  apply (C8_get_after_set (__init__ 2 3) [] (replicate 2 []) (replicate 3 []) 1 2 4%Z).
  - apply wf_init.
  - simpl; lia.
  - simpl; lia.
Defined.

(** C10: on a matrix that satisfies the invariants of the data model,
    [set(M, r, c, v)] within the bounds leaves the value read at every other
    coordinate [(r', c')] within the bounds as it was. *)
Theorem C10_set_frames_other_entries self h R C r c v r' c' :
  wf self h R C ->
  r < nrows self -> c < ncols self ->
  r' < nrows self -> c' < ncols self ->
  (r', c') <> (r, c) ->
  exists self' h' x,
    __setitem__ self r c v h = Return self' h' /\
    __getitem__ self r' c' h = Return x h /\
    __getitem__ self' r' c' h' = Return x h'.
Proof.
  intros Hwf Hr Hc Hr' Hc' Hne.
  destruct (setitem_spec self h R C r c v Hwf Hr Hc)
    as (self' & h' & R' & C' & Hrun & Hwf' & Hnr & Hnc & Hval & _).
  destruct (lookup_lt_is_Some_2 R r') as [l Hl]; [by rewrite (wf_R _ _ _ _ Hwf)|].
  destruct (lookup_lt_is_Some_2 R' r') as [l' Hl'];
    [by rewrite (wf_R _ _ _ _ Hwf'), Hnr|].
  exists self', h', (lookup_row h l c'). split; [done|]. split.
  - apply getitem_spec, (wf_rows _ _ _ _ Hwf _ _ Hl).
  - rewrite (getitem_spec self' h' r' l' c' (wf_rows _ _ _ _ Hwf' _ _ Hl')).
    rewrite (Hval r' c' l l' Hl Hl'). rewrite decide_False; [done|].
    intros [-> ->]. by apply Hne.
Qed.

Lemma C10_set_frames_other_entries_witness :
  wf (__init__ 2 3) [] (replicate 2 []) (replicate 3 []) /\
  1 < nrows (__init__ 2 3) /\ 2 < ncols (__init__ 2 3) /\
  0 < nrows (__init__ 2 3) /\ 2 < ncols (__init__ 2 3) /\
  (0, 2) <> (1, 2) /\
  exists self' h' x,
    __setitem__ (__init__ 2 3) 1 2 4%Z [] = Return self' h' /\
    __getitem__ (__init__ 2 3) 0 2 [] = Return x [] /\
    __getitem__ self' 0 2 h' = Return x h'.
Proof.
  assert ((0, 2) <> (1, 2)) as Hne by (intros [=]).
  split; [apply wf_init|]. do 4 (split; [simpl; lia|]). split; [exact Hne|].
  apply (C10_set_frames_other_entries (__init__ 2 3) [] (replicate 2 [])
           (replicate 3 []) 1 2 4%Z 0 2).
  - apply wf_init.
  - simpl; lia.
  - simpl; lia.
  - simpl; lia.
  - simpl; lia.
  - exact Hne.
Defined.

(** ** Dimension errors *)

(** C9: [multiplyRight] raises the dimension error when the length of the
    vector is not the number of columns, [multiplyLeft] when it is not the
    number of rows, and [add] when the dimensions of the operands differ; the
    error is raised in the store in which the call started, before any node
    was read or written. *)
Theorem C9_dimension_mismatch self rhs (v : list Z) h :
  (length v <> ncols self -> __mul__ self v h = Raise ValueError h) /\
  (length v <> nrows self -> __rmul__ self v h = Raise ValueError h) /\
  (nrows self <> nrows rhs \/ ncols self <> ncols rhs ->
     __add__ self rhs h = Raise ValueError h).
Proof.
  split; [|split].
  - intros Hne. unfold __mul__.
    by rewrite (proj2 (Nat.eqb_neq (ncols self) (length v))) by congruence.
  - intros Hne. unfold __rmul__.
    by rewrite (proj2 (Nat.eqb_neq (nrows self) (length v))) by congruence.
  - intros Hne. unfold __add__.
    destruct (Nat.eqb_spec (nrows self) (nrows rhs)) as [Hr|Hr]; [|done].
    destruct (Nat.eqb_spec (ncols self) (ncols rhs)) as [Hc|Hc]; [|done].
    tauto.
Qed.

Lemma C9_dimension_mismatch_witness :
  (length [1; 2]%Z <> ncols (__init__ 2 3) /\
   __mul__ (__init__ 2 3) [1; 2]%Z [] = Raise ValueError []) /\
  (length [1; 2; 3]%Z <> nrows (__init__ 2 3) /\
   __rmul__ (__init__ 2 3) [1; 2; 3]%Z [] = Raise ValueError []) /\
  ((nrows (__init__ 2 3) <> nrows (__init__ 3 2) \/
    ncols (__init__ 2 3) <> ncols (__init__ 3 2)) /\
   __add__ (__init__ 2 3) (__init__ 3 2) [] = Raise ValueError []).
Proof.
  assert (length [1; 2]%Z <> ncols (__init__ 2 3)) as H1 by (simpl; lia).
  assert (length [1; 2; 3]%Z <> nrows (__init__ 2 3)) as H2 by (simpl; lia).
  assert (nrows (__init__ 2 3) <> nrows (__init__ 3 2) \/
          ncols (__init__ 2 3) <> ncols (__init__ 3 2)) as H3
    by (left; simpl; lia).
  split; [|split].
  - split; [exact H1|].
    exact (proj1 (C9_dimension_mismatch (__init__ 2 3) (__init__ 3 2) [1; 2]%Z []) H1).
  - split; [exact H2|].
    exact (proj1 (proj2 (C9_dimension_mismatch (__init__ 2 3) (__init__ 3 2)
                           [1; 2; 3]%Z [])) H2).
  - split; [exact H3|].
    exact (proj2 (proj2 (C9_dimension_mismatch (__init__ 2 3) (__init__ 3 2)
                           [1; 2]%Z [])) H3).
Defined.

(** ** The scenario of the demonstration script *)

(** C6, as the code behaves: on the matrix of the scenario,
    [multiplyRight(M, [1, 2, 3, 4])] returns [[-8, 14, 29, 0]]: the entry
    [(0, 0)] was set to zero, so the first row only holds [-2] at column 3. *)
Theorem C6_demo_mul : result (demo_mul []) = inr [-8; 14; 29; 0]%Z.
Proof. vm_compute. reflexivity. Qed.

(** C6, as the specification states it: the result of the scenario is not
    the list [[-7, 14, 29, 0]]. *)
Lemma C6_demo_mul_counterexample : result (demo_mul []) <> inr [-7; 14; 29; 0]%Z.
Proof. vm_compute. intros [=]. Qed.

(** ** Runs that lose an entry or raise *)

(** C1: [add] of the 1 x 2 matrices [[1, 0]] and [[-1, 5]] returns a matrix
    whose entry [(0, 1)] reads [0], while the entries of the operands there are
    [0] and [5]: after the cancellation at column 0 the cursor of the merge
    still refers to the removed node, and the next entry is linked behind
    it. *)
Theorem C1_add_loses_entry_after_cancellation :
  result (cancel_sum []) = inr (0, 0, 5)%Z.
Proof. vm_compute. reflexivity. Qed.

(** C2: [multiplyRight] of the all-zero 2 x 2 matrix raises [IndexError]: the
    scan for the first row with an entry runs past the last row. *)
Theorem C2_mul_zero_matrix_raises :
  __mul__ (__init__ 2 2) [1; 2]%Z [] = Raise IndexError [].
Proof. vm_compute. reflexivity. Qed.

(** C3: [add(identity(2), Matrix(2, 2))] raises [IndexError]: the scan for
    the first row with an entry of the right operand runs past the last row. *)
Theorem C3_add_zero_matrix_raises : result (add_zero []) = inl IndexError.
Proof. vm_compute. reflexivity. Qed.

(** C4: [transpose] of the all-zero 2 x 2 matrix raises [IndexError]: the
    scan for the first column with an entry runs past the last column. *)
Theorem C4_transposed_zero_matrix_raises :
  transposed (__init__ 2 2) [] = Raise IndexError [].
Proof. vm_compute. reflexivity. Qed.

(** C5: for the all-zero 2 x 3 matrix [M], the run of
    [equals(transpose(transpose(M)), M)] raises [IndexError] in the first
    [transpose]. *)
Theorem C5_transpose_twice_zero_matrix_raises :
  result (transpose_twice_zero []) = inl IndexError.
Proof. vm_compute. reflexivity. Qed.

(** * Further properties of the code *)

(** ** A matrix behaves like a dense array *)

Lemma set_all_values ops : forall self h R C f,
  wf self h R C ->
  Forall (fun '(r, c, _) => r < nrows self /\ c < ncols self) ops ->
  (forall r c l, R !! r = Some l -> lookup_row h l c = f r c) ->
  exists self' h' R' C',
    set_all self ops h = Return self' h' /\ wf self' h' R' C' /\
    nrows self' = nrows self /\ ncols self' = ncols self /\
    (forall r c l, R' !! r = Some l -> lookup_row h' l c = array_set_all f ops r c).
Proof.
  induction ops as [|[[r c] v] ops IH]; intros self h R C f Hwf Hops Hf.
  - by exists self, h, R, C.
  - apply Forall_cons_1 in Hops as [[Hr Hc] Hops].
    destruct (setitem_spec self h R C r c v Hwf Hr Hc)
      as (self1 & h1 & R1 & C1 & Hrun & Hwf1 & Hnr & Hnc & Hval & _).
    destruct (IH self1 h1 R1 C1 (array_set f r c v) Hwf1)
      as (self' & h' & R' & C' & Hrun' & Hwf' & Hnr' & Hnc' & Hval').
    { by rewrite Hnr, Hnc. }
    { intros r' c' l1 Hl1.
      destruct (lookup_lt_is_Some_2 R r') as [l Hl].
      { rewrite (wf_R _ _ _ _ Hwf), <-Hnr, <-(wf_R _ _ _ _ Hwf1).
        by eapply lookup_lt_Some. }
      rewrite (Hval r' c' l l1 Hl Hl1). unfold array_set.
      case_decide; [done|]. by apply Hf. }
    exists self', h', R', C'. simpl. unfold bind. rewrite Hrun.
    split; [done|]. split; [done|]. split; [congruence|]. split; [congruence|done].
Qed.

(** X1: a sequence of [set] calls within the bounds on a matrix that
    satisfies the invariants returns, and the matrix then reads like the dense
    array obtained from the values read before by the same assignments in the
    same order: the last assignment to a place wins and the other places keep
    their values. *)
Theorem X1_sets_refine_dense_array self h R C ops (f : nat -> nat -> Z) :
  wf self h R C ->
  Forall (fun '(r, c, _) => r < nrows self /\ c < ncols self) ops ->
  (forall r c, r < nrows self -> __getitem__ self r c h = Return (f r c) h) ->
  exists self' h',
    set_all self ops h = Return self' h' /\
    nrows self' = nrows self /\ ncols self' = ncols self /\
    forall r c, r < nrows self ->
      __getitem__ self' r c h' = Return (array_set_all f ops r c) h'.
Proof.
  intros Hwf Hops Hf.
  destruct (set_all_values ops self h R C f Hwf Hops)
    as (self' & h' & R' & C' & Hrun & Hwf' & Hnr & Hnc & Hval).
  { intros r c l Hl.
    pose proof (lookup_lt_Some _ _ _ Hl) as Hr. rewrite (wf_R _ _ _ _ Hwf) in Hr.
    specialize (Hf r c Hr).
    rewrite (getitem_spec self h r l c (wf_rows _ _ _ _ Hwf _ _ Hl)) in Hf.
    congruence. }
  exists self', h'. split; [done|]. split; [done|]. split; [done|].
  intros r c Hr.
  destruct (lookup_lt_is_Some_2 R' r) as [l Hl];
    [by rewrite (wf_R _ _ _ _ Hwf'), Hnr|].
  rewrite (getitem_spec self' h' r l c (wf_rows _ _ _ _ Hwf' _ _ Hl)).
  by rewrite (Hval r c l Hl).
Qed.

Lemma getitem_init nr nc r c h :
  r < nr -> __getitem__ (__init__ nr nc) r c h = Return 0%Z h.
Proof.
  intros Hr.
  assert (replicate nr ([] : list addr) !! r = Some []) as Hl
    by (by apply lookup_replicate_2).
  by rewrite (getitem_spec _ h r [] c (wf_rows _ _ _ _ (wf_init nr nc h) _ _ Hl)).
Qed.

(** X2: in a matrix just constructed every place of a row within the bounds
    reads zero, and reading leaves the store as it was. *)
Theorem X2_constructed_reads_zero nr nc r c h :
  r < nr -> __getitem__ (__init__ nr nc) r c h = Return 0%Z h.
Proof. apply getitem_init. Qed.

Lemma X2_constructed_reads_zero_witness :
  1 < 2 /\ __getitem__ (__init__ 2 3) 1 2 [] = Return 0%Z [].
Proof.
  assert (1 < 2) as H by lia.
  split; [exact H|]. exact (X2_constructed_reads_zero 2 3 1 2 [] H).
Defined.

Lemma X1_sets_refine_dense_array_witness :
  wf (__init__ 2 3) [] (replicate 2 []) (replicate 3 []) /\
  Forall (fun '(r, c, _) => r < nrows (__init__ 2 3) /\ c < ncols (__init__ 2 3))
    [(0, 1, 5%Z); (1, 2, 3%Z); (0, 1, 0%Z)] /\
  (forall r c, r < nrows (__init__ 2 3) ->
     __getitem__ (__init__ 2 3) r c [] = Return 0%Z []) /\
  exists self' h',
    set_all (__init__ 2 3) [(0, 1, 5%Z); (1, 2, 3%Z); (0, 1, 0%Z)] [] = Return self' h' /\
    nrows self' = nrows (__init__ 2 3) /\ ncols self' = ncols (__init__ 2 3) /\
    forall r c, r < nrows (__init__ 2 3) ->
      __getitem__ self' r c h'
      = Return (array_set_all (fun _ _ => 0%Z)
                  [(0, 1, 5%Z); (1, 2, 3%Z); (0, 1, 0%Z)] r c) h'.
Proof.
  assert (Forall (fun '(r, c, _) => r < nrows (__init__ 2 3) /\ c < ncols (__init__ 2 3))
            [(0, 1, 5%Z); (1, 2, 3%Z); (0, 1, 0%Z)]) as Hops
    by (repeat constructor; simpl; lia).
  assert (forall r c, r < nrows (__init__ 2 3) ->
            __getitem__ (__init__ 2 3) r c [] = Return 0%Z []) as Hf
    by (intros r c Hr; by apply getitem_init).
  split; [apply wf_init|]. split; [exact Hops|]. split; [exact Hf|].
  exact (X1_sets_refine_dense_array (__init__ 2 3) [] _ _ _ (fun _ _ => 0%Z)
           (wf_init 2 3 []) Hops Hf).
Defined.

(** ** [identity] *)

Lemma for_each_diag (l : list nat) : forall self h,
  for_each l (fun i m => __setitem__ m i i 1%Z) self h
  = set_all self ((fun i => (i, i, 1%Z)) <$> l) h.
Proof.
  induction l as [|i l IH]; intros self h; [done|]. simpl. unfold bind.
  destruct (__setitem__ self i i 1%Z h); [apply IH|done].
Qed.

Lemma array_set_all_diag (l : list nat) : forall f r c,
  array_set_all f ((fun i => (i, i, 1%Z)) <$> l) r c
  = if decide (r = c /\ r ∈ l) then 1%Z else f r c.
Proof.
  induction l as [|i l IH]; intros f r c; simpl.
  - rewrite decide_False; [done|]. intros [_ H]. by apply elem_of_nil in H.
  - rewrite IH. unfold array_set.
    destruct (decide (r = c /\ r ∈ l)) as [[-> Hl]|Hl].
    + rewrite decide_True; [done|]. split; [done|]. by right.
    + destruct (decide (r = i /\ c = i)) as [[-> ->]|Hi].
      * rewrite decide_True; [done|]. split; [done|]. left.
      * rewrite decide_False; [done|]. intros [-> [->|H]%elem_of_cons]; tauto.
Qed.

Lemma identity_spec n h :
  exists self h' R C,
    identity n h = Return self h' /\
    nrows self = n /\ ncols self = n /\ wf self h' R C /\
    forall i j, i < n ->
      __getitem__ self i j h' = Return (if decide (i = j) then 1%Z else 0%Z) h'.
Proof.
  unfold identity. rewrite for_each_diag.
  destruct (set_all_values ((fun i => (i, i, 1%Z)) <$> seq 0 n) (__init__ n n) h
              _ _ (fun _ _ => 0%Z) (wf_init n n h))
    as (self & h' & R & C & Hrun & Hwf & Hnr & Hnc & Hval).
  { rewrite Forall_fmap, Forall_forall. intros i Hi%elem_of_seq. simpl. lia. }
  { intros r c l [-> _]%lookup_replicate. done. }
  simpl in Hnr, Hnc.
  exists self, h', R, C. do 4 (split; [done|]).
  intros i j Hi.
  destruct (lookup_lt_is_Some_2 R i) as [l Hl];
    [by rewrite (wf_R _ _ _ _ Hwf), Hnr|].
  rewrite (getitem_spec self h' i l j (wf_rows _ _ _ _ Hwf _ _ Hl)).
  rewrite (Hval i j l Hl), array_set_all_diag.
  destruct (decide (i = j)) as [->|Hne].
  - rewrite decide_True; [done|]. split; [done|]. apply elem_of_seq. lia.
  - rewrite decide_False; [done|]. tauto.
Qed.

(** X3: [identity(n)] returns an n x n matrix that satisfies the invariants
    of the data model and reads 1 on the diagonal and 0 elsewhere. *)
Theorem X3_identity_reads_diagonal n h :
  exists self h' R C,
    identity n h = Return self h' /\
    nrows self = n /\ ncols self = n /\ wf self h' R C /\
    forall i j, i < n ->
      __getitem__ self i j h' = Return (if decide (i = j) then 1%Z else 0%Z) h'.
Proof. apply identity_spec. Qed.

(** ** Coordinates out of the bounds *)

(** The columns of a row chain are below the number of columns. *)
Lemma row_keys_below self h r l c :
  row_chain_ok self h r l -> ncols self <= c ->
  Forall (fun a => key_at Node.col h a <> c) l.
Proof.
  intros Hok Hc. rewrite Forall_forall. intros a Ha.
  pose proof (chain_ok_bound Hok a Ha). lia.
Qed.

(** X4: [get] checks the row but not the column: on a matrix that satisfies
    the invariants, a row out of the bounds raises [IndexError], and a column
    out of the bounds (in a row within the bounds) reads zero; the store is
    left as it was in both cases. *)
Theorem X4_get_out_of_bounds self h R C r c :
  wf self h R C ->
  (nrows self <= r -> __getitem__ self r c h = Raise IndexError h) /\
  (r < nrows self -> ncols self <= c -> __getitem__ self r c h = Return 0%Z h).
Proof.
  intros Hwf. split.
  - intros Hr. unfold __getitem__, _findnode, bind, index.
    by rewrite (proj2 (lookup_ge_None _ _)) by (rewrite (wf_prow _ _ _ _ Hwf); lia).
  - intros Hr Hc.
    destruct (lookup_lt_is_Some_2 R r) as [l Hl]; [by rewrite (wf_R _ _ _ _ Hwf)|].
    pose proof (wf_rows _ _ _ _ Hwf _ _ Hl) as Hok.
    rewrite (getitem_spec self h r l c Hok).
    by rewrite (lookup_row_absent h l c (row_keys_below self h r l c Hok Hc)).
Qed.

Lemma X4_get_out_of_bounds_witness :
  wf (__init__ 2 3) [] (replicate 2 []) (replicate 3 []) /\
  (nrows (__init__ 2 3) <= 2 /\ __getitem__ (__init__ 2 3) 2 0 [] = Raise IndexError []) /\
  (1 < nrows (__init__ 2 3) /\ ncols (__init__ 2 3) <= 3 /\
   __getitem__ (__init__ 2 3) 1 3 [] = Return 0%Z []).
Proof.
  assert (nrows (__init__ 2 3) <= 2) as H1 by (simpl; lia).
  assert (1 < nrows (__init__ 2 3)) as H2 by (simpl; lia).
  assert (ncols (__init__ 2 3) <= 3) as H3 by (simpl; lia).
  split; [apply wf_init|]. split.
  - split; [exact H1|].
    exact (proj1 (X4_get_out_of_bounds (__init__ 2 3) [] _ _ 2 0 (wf_init 2 3 [])) H1).
  - split; [exact H2|]. split; [exact H3|].
    exact (proj2 (X4_get_out_of_bounds (__init__ 2 3) [] _ _ 1 3 (wf_init 2 3 [])) H2 H3).
Defined.

(** The run of [_insertnode] when the column is out of the bounds of the
    column heads: the node is created and linked into its row, then reading
    the column head raises. *)
Lemma insertnode_column_out_of_bounds self h row col q el succ :
  match q with
  | None => _prow self !! row = Some succ
  | Some qa => fld Node.right h qa = Some succ
  end ->
  _pcol self !! col = None ->
  _insertnode self row col q el h
  = Raise IndexError
      (upd (fun x => Node.with_right x (Some (length h))) q
         (upd (fun x => Node.with_right x succ) (Some (length h))
            (h ++ [Node.mk row col el None None]))).
Proof.
  intros Hq Hcol.
  set (n := length h).
  set (N0 := Node.mk row col el None None).
  set (h1 := h ++ [N0]).
  set (h2 := upd (fun x => Node.with_right x succ) (Some n) h1).
  assert (length h1 = S n) as Hlen1 by (unfold h1; rewrite length_app; simpl; lia).
  assert (length h2 = S n) as Hlen2 by (unfold h2; by rewrite upd_length).
  unfold _insertnode, bind at 1, alloc. fold N0 n h1.
  unfold bind at 1. destruct q as [qa|].
  - pose proof (fld_lt _ _ _ _ Hq) as Hqa. fold n in Hqa.
    destruct (deref_run Node.right qa h1 succ) as (qn & Hd & Hr).
    { unfold h1. rewrite fld_alloc, decide_False; [done|]. fold n. lia. }
    unfold bind at 1. rewrite Hd, Hr.
    unfold bind at 1. rewrite set_right_run by lia. fold h2.
    unfold bind at 1. rewrite set_right_run by lia.
    unfold ret, bind, index. by rewrite Hcol.
  - unfold bind at 1. rewrite (index_run _ _ _ _ Hq).
    unfold bind at 1. rewrite set_right_run by lia. fold h2.
    unfold bind at 1. rewrite assign_run by (by eapply lookup_lt_Some).
    unfold ret, bind, index. simpl. by rewrite Hcol.
Qed.



(** ** The locator *)

(** X6: on a matrix that satisfies the invariants, [_findnode(row, col)]
    leaves the store as it was and splits the row chain into the nodes [l1]
    with a column below [col] and the nodes [l2] with a column from [col] on;
    it returns the first node of [l2] when that node has the column [col]
    ([None] otherwise), together with the last node of [l1] ([None] when [l1]
    is empty). *)
Theorem X6_findnode_locates self h R C r c l :
  wf self h R C -> R !! r = Some l ->
  exists l1 l2,
    l = l1 ++ l2 /\
    Forall (fun a => key_at Node.col h a < c) l1 /\
    Forall (fun a => c <= key_at Node.col h a) l2 /\
    _findnode self r c h = Return (hit h l2 c, last l1) h.
Proof.
  intros Hwf Hl.
  destruct (findnode_spec self h r l c (wf_rows _ _ _ _ Hwf _ _ Hl))
    as (l1 & l2 & El & H1 & H2 & Hf).
  exists l1, l2. rewrite last_or_None in Hf. done.
Qed.

Lemma X6_findnode_locates_witness :
  wf (__init__ 2 3) [] (replicate 2 []) (replicate 3 []) /\
  replicate 2 ([] : list nat) !! 1 = Some [] /\
  exists l1 l2,
    [] = l1 ++ l2 /\
    Forall (fun a => key_at Node.col [] a < 2) l1 /\
    Forall (fun a => 2 <= key_at Node.col [] a) l2 /\
    _findnode (__init__ 2 3) 1 2 [] = Return (hit [] l2 2, last l1) [].
Proof.
  split; [apply wf_init|]. split; [reflexivity|].
  exact (X6_findnode_locates (__init__ 2 3) [] _ _ 1 2 [] (wf_init 2 3 []) eq_refl).
Defined.

(** ** Zero means absent *)

Lemma lookup_row_in self h r l c a :
  row_chain_ok self h r l -> a ∈ l -> key_at Node.col h a = c ->
  lookup_row h l c = default 0%Z (fld Node.el h a).
Proof.
  intros Hok Ha Hk. apply list_elem_of_split in Ha as (l1 & l2 & ->).
  rewrite lookup_row_app.
  - simpl. by rewrite Hk, Nat.eqb_refl.
  - rewrite Forall_forall. intros b Hb Hkb.
    assert (b = a) as ->.
    { apply (chain_ok_key_inj Hok); [apply elem_of_app; by left| |congruence].
      apply elem_of_app. right. left. }
    pose proof (chain_ok_NoDup Hok) as Hnd.
    apply NoDup_app in Hnd as (_ & Hdis & _). apply (Hdis a Hb). left.
Qed.

Lemma lookup_row_nonzero h l c :
  lookup_row h l c <> 0%Z -> exists a, a ∈ l /\ key_at Node.col h a = c.
Proof.
  induction l as [|b l IH]; simpl; [done|].
  destruct (key_at Node.col h b =? c) eqn:E.
  - intros _. exists b. split; [left|by apply Nat.eqb_eq].
  - intros (a & Ha & Hk)%IH. exists a. split; [by right|done].
Qed.

(** [__setitem__] keeps the linked elements non-zero. *)
Lemma setitem_nonzero self h R C r c v :
  wf self h R C -> nonzero h R -> r < nrows self -> c < ncols self ->
  exists self' h' R' C',
    __setitem__ self r c v h = Return self' h' /\
    wf self' h' R' C' /\ nrows self' = nrows self /\ ncols self' = ncols self /\
    nonzero h' R'.
Proof.
  intros Hwf Hnz Hr Hc.
  destruct (lookup_lt_is_Some_2 R r) as [l HR]; [by rewrite (wf_R _ _ _ _ Hwf)|].
  pose proof (wf_rows _ _ _ _ Hwf _ _ HR) as Hokr.
  destruct (findnode_spec self h r l c Hokr) as (l1 & l2 & -> & H1 & H2 & Hf).
  assert (forall a, in_chains R a -> a < length h) as Hin.
  { intros a (j & k & Hj & Ha).
    exact (chain_ok_in_heap _ _ _ _ _ _ _ _ a (wf_rows _ _ _ _ Hwf _ _ Hj) Ha). }
  (* the two ways in which a node is inserted *)
  assert (forall l2', l2 = l2' -> Forall (fun a => c < key_at Node.col h a) l2' ->
            v <> 0%Z ->
            exists self' h' R' C',
              _insertnode self r c (last l1) v h = Return self' h' /\
              wf self' h' R' C' /\ nrows self' = nrows self /\
              ncols self' = ncols self /\ nonzero h' R') as Hins.
  { intros ? <- H2' Hv.
    destruct (wf_insert self h R C r c v l1 l2 Hwf Hr Hc HR H1 H2')
      as (self' & k1 & k2 & HC & Hrun & Hnr & Hnc & Hwf').
    eexists self', _, _, _. do 4 (split; [done|]).
    intros a x [->|Ha]%(in_chains_insert_new R r l1 l2 _ a HR).
    - rewrite insert_heap_fld, decide_True by done. simpl. congruence.
    - rewrite insert_heap_fld by done.
      rewrite decide_False by (specialize (Hin a Ha); lia). by apply Hnz. }
  unfold __setitem__, bind. rewrite Hf, last_or_None.
  unfold hit. destruct l2 as [|pa l2]; simpl.
  - destruct (Z.eqb_spec v 0) as [->|Hv]; simpl.
    + by exists self, h, R, C.
    + by apply (Hins []); [|constructor|].
  - assert (pa ∈ l1 ++ pa :: l2) as Hpa by (apply elem_of_app; right; left).
    pose proof (chain_ok_in_heap _ _ _ _ _ _ _ _ pa Hokr Hpa) as Hlt.
    destruct (key_at Node.col h pa =? c) eqn:E.
    + destruct (Z.eqb_spec v 0) as [->|Hv].
      * destruct (wf_remove self h R C r l1 pa l2 Hwf HR)
          as (self' & c0 & k1 & k2 & Hpcol & HC & Hrun & Hnr & Hnc & Hwf').
        eexists self', _, _, _. do 4 (split; [done|]).
        intros a x Ha.
        apply (in_chains_remove R r l1 pa l2 a HR (chain_ok_NoDup Hokr)) in Ha as [_ Ha].
        -- rewrite remove_heap_fld by done. by apply Hnz.
        -- intros j k' Hne Hj Hin'. apply Hne.
           pose proof (wf_row_of _ _ _ _ _ _ _ Hwf Hj Hin').
           pose proof (wf_row_of _ _ _ _ _ _ _ Hwf HR Hpa). congruence.
      * rewrite set_el_run by done. simpl.
        exists self, (upd (fun x => Node.with_el x v) (Some pa) h), R, C.
        split; [done|]. split; [by apply wf_set_el|]. do 2 (split; [done|]).
        intros a x Ha. rewrite fld_upd. case_decide as Hap.
        -- injection Hap as <-. simpl. rewrite fld_const by done. congruence.
        -- by apply Hnz.
    + apply Nat.eqb_neq in E.
      destruct (Z.eqb_spec v 0) as [->|Hv]; simpl.
      * by exists self, h, R, C.
      * apply (Hins (pa :: l2)); [done| |done].
        apply sorted_head_lt.
        -- pose proof (ok_sorted _ _ _ _ _ _ _ _ Hokr) as Hs.
           rewrite fmap_app in Hs. by apply StronglySorted_app_1_r in Hs.
        -- intros b [= <-]. apply Forall_cons_1 in H2 as [Hb _]. lia.
Qed.

Lemma set_all_nonzero ops : forall self h R C,
  wf self h R C -> nonzero h R ->
  Forall (fun '(r, c, _) => r < nrows self /\ c < ncols self) ops ->
  exists self' h' R' C',
    set_all self ops h = Return self' h' /\ wf self' h' R' C' /\
    nrows self' = nrows self /\ ncols self' = ncols self /\ nonzero h' R'.
Proof.
  induction ops as [|[[r c] v] ops IH]; intros self h R C Hwf Hnz Hops.
  - by exists self, h, R, C.
  - apply Forall_cons_1 in Hops as [[Hr Hc] Hops].
    destruct (setitem_nonzero self h R C r c v Hwf Hnz Hr Hc)
      as (self1 & h1 & R1 & C1 & Hrun & Hwf1 & Hnr & Hnc & Hnz1).
    destruct (IH self1 h1 R1 C1 Hwf1 Hnz1)
      as (self' & h' & R' & C' & Hrun' & Hwf' & Hnr' & Hnc' & Hnz').
    { by rewrite Hnr, Hnc. }
    exists self', h', R', C'. simpl. unfold bind. rewrite Hrun.
    split; [done|]. split; [done|]. split; [congruence|]. split; [congruence|done].
Qed.

(** X7: after any sequence of [set] calls within the bounds on a constructed
    matrix, an entry is stored exactly where the matrix reads non-zero (I3):
    every linked node holds a non-zero element, and [get(M, r, c)] is not zero
    if and only if a linked node has the coordinates [(r, c)]. *)
Theorem X7_zero_means_absent nr nc ops h0 :
  Forall (fun '(r, c, _) => r < nr /\ c < nc) ops ->
  exists self h R C,
    set_all (__init__ nr nc) ops h0 = Return self h /\
    wf self h R C /\ nonzero h R /\
    forall r c, r < nr ->
      exists x, __getitem__ self r c h = Return x h /\
        (x <> 0%Z <->
         exists a, in_chains R a /\
           fld Node.row h a = Some r /\ fld Node.col h a = Some c).
Proof.
  intros Hops.
  destruct (set_all_nonzero ops (__init__ nr nc) h0 _ _ (wf_init nr nc h0))
    as (self & h & R & C & Hrun & Hwf & Hnr & Hnc & Hnz); [|done|].
  { intros a x (j & l & [-> _]%lookup_replicate & Ha). by apply elem_of_nil in Ha. }
  simpl in Hnr, Hnc.
  exists self, h, R, C. do 3 (split; [done|]).
  intros r c Hr.
  destruct (lookup_lt_is_Some_2 R r) as [l Hl];
    [by rewrite (wf_R _ _ _ _ Hwf), Hnr|].
  pose proof (wf_rows _ _ _ _ Hwf _ _ Hl) as Hok.
  exists (lookup_row h l c). split; [by apply getitem_spec|]. split.
  - intros (a & Ha & Hk)%lookup_row_nonzero.
    exists a. split; [by exists r, l|]. split; [exact (chain_ok_fixed Hok a Ha)|].
    destruct (fld_is_Some Node.row Node.col h a _ (chain_ok_fixed Hok a Ha)) as [c0 Hc0].
    rewrite (key_at_fld _ _ _ _ Hc0) in Hk. congruence.
  - intros (a & Ha & Hrow & Hcol).
    pose proof (wf_in_row _ _ _ _ _ _ _ Hwf Hl Ha Hrow) as Hal.
    rewrite (lookup_row_in self h r l c a Hok Hal (key_at_fld _ _ _ _ Hcol)).
    destruct (fld_is_Some Node.row Node.el h a _ Hrow) as [x Hx].
    rewrite Hx. simpl. by apply (Hnz a x).
Qed.

Lemma X7_zero_means_absent_witness :
  Forall (fun '(r, c, _) => r < 2 /\ c < 2) [(0, 1, 5%Z); (1, 1, 3%Z); (0, 1, 0%Z)] /\
  exists self h R C,
    set_all (__init__ 2 2) [(0, 1, 5%Z); (1, 1, 3%Z); (0, 1, 0%Z)] [] = Return self h /\
    wf self h R C /\ nonzero h R /\
    forall r c, r < 2 ->
      exists x, __getitem__ self r c h = Return x h /\
        (x <> 0%Z <->
         exists a, in_chains R a /\
           fld Node.row h a = Some r /\ fld Node.col h a = Some c).
Proof.
  assert (Forall (fun '(r, c, _) => r < 2 /\ c < 2)
            [(0, 1, 5%Z); (1, 1, 3%Z); (0, 1, 0%Z)]) as Hops
    by (repeat constructor; lia).
  split; [exact Hops|].
  exact (X7_zero_means_absent 2 2 _ [] Hops).
Defined.

(** ** [__eq__] *)

Lemma lookup_row_entries h l c : lookup_row h l c = entries_lookup (entries h l) c.
Proof. induction l as [|a l IH]; simpl; [done|]. by rewrite IH. Qed.

(** The comparison of two chains: the loop ends with a [return False] when
    it meets different entries, and otherwise at the end of one of the chains;
    both chains are then at their end exactly when their entries are equal. *)
Lemma eq_loop_spec h l1 : forall l2 p1 p2 fuel,
  lseg Node.right h p1 l1 None -> lseg Node.right h p2 l2 None ->
  length l1 < fuel ->
  exists p1' p2' r,
    while fuel eq_cond eq_body (p1, p2, None) h = Return (p1', p2', r) h /\
    match r with
    | Some b => b = false /\ entries h l1 <> entries h l2
    | None => (p1' = None /\ p2' = None) <-> entries h l1 = entries h l2
    end.
Proof.
  induction l1 as [|a l1 IH]; intros l2 p1 p2 fuel H1 H2 Hfuel.
  - simpl in H1. subst p1. destruct fuel; [simpl in Hfuel; lia|].
    exists None, p2, None. split; [by rewrite while_unfold|].
    destruct l2 as [|b l2]; simpl in H2.
    + by subst p2.
    + destruct H2 as [-> _]. split; [by intros [_ ?]|done].
  - destruct H1 as (-> & o1 & Ho1 & H1).
    destruct fuel as [|fuel]; [simpl in Hfuel; lia|].
    destruct l2 as [|b l2].
    + simpl in H2. subst p2. exists (Some a), None, None.
      split; [by rewrite while_unfold|]. split; [by intros [? _]|done].
    + destruct H2 as (-> & o2 & Ho2 & H2).
      apply fld_Some in Ho1 as (n1 & Hn1 & <-).
      apply fld_Some in Ho2 as (n2 & Hn2 & <-).
      assert (entries h (a :: l1) = entries h (b :: l2) <->
              (Node.col n1 = Node.col n2 /\ Node.el n1 = Node.el n2) /\
              entries h l1 = entries h l2) as Hent.
      { assert (entries h (a :: l1) = (Node.col n1, Node.el n1) :: entries h l1) as ->
          by (unfold entries, key_at, fld; simpl; by rewrite Hn1).
        assert (entries h (b :: l2) = (Node.col n2, Node.el n2) :: entries h l2) as ->
          by (unfold entries, key_at, fld; simpl; by rewrite Hn2).
        split; [intros [= ? ? ?]; auto|intros [[-> ->] ->]; done]. }
      rewrite while_unfold. unfold eq_cond at 1, eq_body at 1, bind, ret, deref, load.
      simpl. rewrite Hn1, Hn2.
      destruct (Nat.eqb_spec (Node.col n1) (Node.col n2)) as [Hc|Hc]; simpl.
      * destruct (Z.eqb_spec (Node.el n1) (Node.el n2)) as [He|He]; simpl.
        -- destruct (IH l2 (Node.right n1) (Node.right n2) fuel H1 H2)
             as (p1' & p2' & r & Hw & Hr); [simpl in Hfuel; lia|].
           exists p1', p2', r. split; [done|].
           destruct r as [bb|].
           ++ destruct Hr as [-> Hr]. split; [done|]. rewrite Hent. tauto.
           ++ rewrite Hent. tauto.
        -- destruct fuel; [simpl in Hfuel; lia|].
           exists (Some a), (Some b), (Some false). split; [by rewrite while_unfold|].
           split; [done|]. rewrite Hent. tauto.
      * destruct fuel; [simpl in Hfuel; lia|].
        exists (Some a), (Some b), (Some false). split; [by rewrite while_unfold|].
        split; [done|]. rewrite Hent. tauto.
Qed.

Lemma eq_rows_spec self rhs h R1 C1 R2 C2 rows :
  wf self h R1 C1 -> wf rhs h R2 C2 ->
  Forall (fun r => r < nrows self /\ r < nrows rhs) rows ->
  exists b,
    eq_rows self rhs rows h = Return b h /\
    (b = true <->
     forall r l1 l2, r ∈ rows -> R1 !! r = Some l1 -> R2 !! r = Some l2 ->
       entries h l1 = entries h l2).
Proof.
  intros Hwf1 Hwf2. induction rows as [|r rows IH]; intros Hrows.
  - exists true. split; [done|]. split; [|done]. by intros _ ? ? ? ?%elem_of_nil.
  - apply Forall_cons_1 in Hrows as [[Hr1 Hr2] Hrows].
    destruct (IH Hrows) as (b & Hrun & Hb).
    destruct (lookup_lt_is_Some_2 R1 r) as [l1 Hl1]; [by rewrite (wf_R _ _ _ _ Hwf1)|].
    destruct (lookup_lt_is_Some_2 R2 r) as [l2 Hl2]; [by rewrite (wf_R _ _ _ _ Hwf2)|].
    pose proof (wf_rows _ _ _ _ Hwf1 _ _ Hl1) as Hok1.
    pose proof (wf_rows _ _ _ _ Hwf2 _ _ Hl2) as Hok2.
    destruct (ok_lseg _ _ _ _ _ _ _ _ Hok1) as (o1 & Ho1 & Hs1).
    destruct (ok_lseg _ _ _ _ _ _ _ _ Hok2) as (o2 & Ho2 & Hs2).
    destruct (eq_loop_spec h l1 l2 o1 o2 (S (length h)) Hs1 Hs2)
      as (p1' & p2' & r' & Hw & Hr').
    { pose proof (chain_ok_length Hok1). lia. }
    assert (forall b0 : bool,
              (b0 = true <-> entries h l1 = entries h l2 /\ b = true) ->
              b0 = true <->
              forall r0 k1 k2, r0 ∈ r :: rows -> R1 !! r0 = Some k1 ->
                R2 !! r0 = Some k2 -> entries h k1 = entries h k2) as Hcombine.
    { intros b0 ->. rewrite Hb. split.
      - intros [He Hall] r0 k1 k2 [->|Hin]%elem_of_cons Hk1 Hk2.
        + congruence.
        + by apply (Hall r0).
      - intros Hall. split.
        + apply (Hall r); [left|done..].
        + intros r0 k1 k2 Hin. apply Hall. by right. }
    simpl. unfold bind at 1. rewrite (index_run _ _ _ _ Ho1).
    unfold bind at 1. rewrite (index_run _ _ _ _ Ho2).
    unfold bind at 1, chain_fuel. unfold bind at 1.
    change (while ?f _ _ ?s ?h0) with (while f eq_cond eq_body s h0).
    rewrite Hw. destruct r' as [bb|].
    + destruct Hr' as [-> Hne]. exists false. split; [done|].
      apply Hcombine. split; [done|]. by intros [? _].
    + destruct p1' as [x1|]; simpl.
      * exists false. split; [done|]. apply Hcombine. split; [done|].
        intros [He _]. by apply Hr' in He as [? _].
      * destruct p2' as [x2|]; simpl.
        -- exists false. split; [done|]. apply Hcombine. split; [done|].
           intros [He _]. by apply Hr' in He as [_ ?].
        -- exists b. split; [done|]. apply Hcombine.
           split; [intros ->; split; [by apply Hr'|done]|by intros [_ ->]].
Qed.

(** The characterisation of [__eq__] on well-formed matrices. *)
Lemma eq_spec self rhs h R1 C1 R2 C2 :
  wf self h R1 C1 -> wf rhs h R2 C2 ->
  exists b,
    __eq__ self rhs h = Return b h /\
    (b = true <->
     nrows self = nrows rhs /\ ncols self = ncols rhs /\
     forall r l1 l2, R1 !! r = Some l1 -> R2 !! r = Some l2 ->
       entries h l1 = entries h l2).
Proof.
  intros Hwf1 Hwf2. unfold __eq__.
  destruct (Nat.eqb_spec (nrows self) (nrows rhs)) as [Hnr|Hnr]; simpl.
  2:{ exists false. split; [done|]. split; [done|]. by intros [? _]. }
  destruct (Nat.eqb_spec (ncols self) (ncols rhs)) as [Hnc|Hnc]; simpl.
  2:{ exists false. split; [done|]. split; [done|]. by intros (_ & ? & _). }
  destruct (eq_rows_spec self rhs h R1 C1 R2 C2 (seq 0 (nrows self)) Hwf1 Hwf2)
    as (b & Hrun & Hb).
  { rewrite Forall_forall. intros r Hr%elem_of_seq. lia. }
  exists b. split; [done|]. rewrite Hb. split.
  - intros Hall. do 2 (split; [done|]). intros r l1 l2 Hl1 Hl2.
    apply (Hall r); [|done..]. apply elem_of_seq.
    pose proof (lookup_lt_Some _ _ _ Hl1) as Hlt.
    rewrite (wf_R _ _ _ _ Hwf1) in Hlt. lia.
  - intros (_ & _ & Hall) r l1 l2 _. apply Hall.
Qed.

Lemma entries_lookup_absent (e : list (nat * Z)) c :
  Forall (fun p => p.1 <> c) e -> entries_lookup e c = 0%Z.
Proof.
  induction 1 as [|[k v] e Hk _ IH]; [done|]. simpl in *.
  by rewrite (proj2 (Nat.eqb_neq _ _) Hk).
Qed.

(** Two lists of non-zero entries with strictly increasing columns that hold
    the same value at every column are equal. *)
Lemma sorted_entries_ext (e1 : list (nat * Z)) : forall e2,
  StronglySorted lt (fst <$> e1) -> StronglySorted lt (fst <$> e2) ->
  Forall (fun p => p.2 <> 0%Z) e1 -> Forall (fun p => p.2 <> 0%Z) e2 ->
  (forall c, entries_lookup e1 c = entries_lookup e2 c) ->
  e1 = e2.
Proof.
  assert (forall k (e : list (nat * Z)) c,
            Forall (lt k) (fst <$> e) -> c <= k -> entries_lookup e c = 0%Z) as Habs.
  { intros k e c Hall Hc. apply entries_lookup_absent.
    rewrite Forall_fmap in Hall. eapply Forall_impl; [exact Hall|].
    simpl. intros. lia. }
  induction e1 as [|[k1 v1] e1 IH]; intros [|[k2 v2] e2] Hs1 Hs2 Hz1 Hz2 Hlk.
  - done.
  - apply Forall_cons_1 in Hz2 as [Hv2 _]. specialize (Hlk k2). simpl in *.
    rewrite Nat.eqb_refl in Hlk. congruence.
  - apply Forall_cons_1 in Hz1 as [Hv1 _]. specialize (Hlk k1). simpl in *.
    rewrite Nat.eqb_refl in Hlk. congruence.
  - simpl in Hs1, Hs2.
    apply StronglySorted_cons in Hs1 as [Hall1 Hs1].
    apply StronglySorted_cons in Hs2 as [Hall2 Hs2].
    apply Forall_cons_1 in Hz1 as [Hv1 Hz1]. apply Forall_cons_1 in Hz2 as [Hv2 Hz2].
    simpl in Hv1, Hv2.
    destruct (lt_eq_lt_dec k1 k2) as [[Hlt| ->]|Hgt].
    + specialize (Hlk k1). simpl in Hlk. rewrite Nat.eqb_refl in Hlk.
      rewrite (proj2 (Nat.eqb_neq k2 k1)) in Hlk by lia.
      rewrite (Habs k2 e2 k1) in Hlk by (done || lia). congruence.
    + pose proof (Hlk k2) as Hv. simpl in Hv. rewrite Nat.eqb_refl in Hv. subst v2.
      f_equal. apply IH; try done.
      intros c. destruct (decide (c = k2)) as [->|Hne].
      * by rewrite (Habs k2 e1 k2), (Habs k2 e2 k2).
      * specialize (Hlk c). simpl in Hlk.
        by rewrite (proj2 (Nat.eqb_neq k2 c)) in Hlk by lia.
    + specialize (Hlk k2). simpl in Hlk. rewrite Nat.eqb_refl in Hlk.
      rewrite (proj2 (Nat.eqb_neq k1 k2)) in Hlk by lia.
      rewrite (Habs k1 e1 k2) in Hlk by (done || lia). congruence.
Qed.

Lemma entries_sorted self h r l :
  row_chain_ok self h r l -> StronglySorted lt (fst <$> entries h l).
Proof.
  intros Hok. unfold entries. rewrite <-list_fmap_compose.
  exact (ok_sorted _ _ _ _ _ _ _ _ Hok).
Qed.

Lemma entries_nonzero self h R C r l :
  wf self h R C -> nonzero h R -> R !! r = Some l ->
  Forall (fun p => p.2 <> 0%Z) (entries h l).
Proof.
  intros Hwf Hnz Hl. unfold entries. rewrite Forall_fmap, Forall_forall.
  intros a Ha. simpl.
  destruct (fld_is_Some Node.row Node.el h a _ (wf_row_of _ _ _ _ _ _ _ Hwf Hl Ha))
    as [x Hx].
  rewrite Hx. simpl. apply (Hnz a x); [by exists r, l|done].
Qed.

(** X8: on two matrices that satisfy the invariants, [equals] returns
    without changing the store, and it returns true exactly when the
    dimensions agree and every row chain of the one has the same (column,
    element) pairs, in the same order, as the row chain of the other. *)
Theorem X8_eq_compares_row_entries self rhs h R1 C1 R2 C2 :
  wf self h R1 C1 -> wf rhs h R2 C2 ->
  exists b,
    __eq__ self rhs h = Return b h /\
    (b = true <->
     nrows self = nrows rhs /\ ncols self = ncols rhs /\
     forall r l1 l2, R1 !! r = Some l1 -> R2 !! r = Some l2 ->
       entries h l1 = entries h l2).
Proof. apply eq_spec. Qed.

Lemma X8_eq_compares_row_entries_witness :
  wf (__init__ 2 3) [] (replicate 2 []) (replicate 3 []) /\
  wf (__init__ 2 2) [] (replicate 2 []) (replicate 2 []) /\
  exists b,
    __eq__ (__init__ 2 3) (__init__ 2 2) [] = Return b [] /\
    (b = true <->
     nrows (__init__ 2 3) = nrows (__init__ 2 2) /\
     ncols (__init__ 2 3) = ncols (__init__ 2 2) /\
     forall r l1 l2, replicate 2 [] !! r = Some l1 -> replicate 2 [] !! r = Some l2 ->
       entries [] l1 = entries [] l2).
Proof.
  split; [apply wf_init|]. split; [apply wf_init|].
  exact (X8_eq_compares_row_entries (__init__ 2 3) (__init__ 2 2) [] _ _ _ _
           (wf_init 2 3 []) (wf_init 2 2 [])).
Defined.

(** X9: [equals] is reflexive on matrices that satisfy the invariants. *)
Theorem X9_eq_reflexive self h R C :
  wf self h R C -> __eq__ self self h = Return true h.
Proof.
  intros Hwf. destruct (eq_spec self self h R C R C Hwf Hwf) as (b & Hrun & Hb).
  rewrite Hrun. f_equal. apply Hb. do 2 (split; [done|]).
  intros r l1 l2 Hl1 Hl2. congruence.
Qed.

Lemma X9_eq_reflexive_witness :
  wf (__init__ 2 3) [] (replicate 2 []) (replicate 3 []) /\
  __eq__ (__init__ 2 3) (__init__ 2 3) [] = Return true [].
Proof.
  split; [apply wf_init|].
  exact (X9_eq_reflexive (__init__ 2 3) [] _ _ (wf_init 2 3 [])).
Defined.

(** X10: on two matrices that satisfy the invariants and store no zero
    element (I3), [equals] returns true exactly when the dimensions agree and
    the two matrices read the same value at every place of every row. *)
Theorem X10_eq_extensional self rhs h R1 C1 R2 C2 :
  wf self h R1 C1 -> wf rhs h R2 C2 -> nonzero h R1 -> nonzero h R2 ->
  exists b,
    __eq__ self rhs h = Return b h /\
    (b = true <->
     nrows self = nrows rhs /\ ncols self = ncols rhs /\
     forall r c, r < nrows self ->
       __getitem__ self r c h = __getitem__ rhs r c h).
Proof.
  intros Hwf1 Hwf2 Hnz1 Hnz2.
  destruct (eq_spec self rhs h R1 C1 R2 C2 Hwf1 Hwf2) as (b & Hrun & Hb).
  exists b. split; [done|]. rewrite Hb. split.
  - intros (Hnr & Hnc & Hall). do 2 (split; [done|]). intros r c Hr.
    destruct (lookup_lt_is_Some_2 R1 r) as [l1 Hl1]; [by rewrite (wf_R _ _ _ _ Hwf1)|].
    destruct (lookup_lt_is_Some_2 R2 r) as [l2 Hl2];
      [by rewrite (wf_R _ _ _ _ Hwf2), <-Hnr|].
    rewrite (getitem_spec self h r l1 c (wf_rows _ _ _ _ Hwf1 _ _ Hl1)).
    rewrite (getitem_spec rhs h r l2 c (wf_rows _ _ _ _ Hwf2 _ _ Hl2)).
    by rewrite !lookup_row_entries, (Hall r l1 l2 Hl1 Hl2).
  - intros (Hnr & Hnc & Hall). do 2 (split; [done|]). intros r l1 l2 Hl1 Hl2.
    pose proof (wf_rows _ _ _ _ Hwf1 _ _ Hl1) as Hok1.
    pose proof (wf_rows _ _ _ _ Hwf2 _ _ Hl2) as Hok2.
    apply sorted_entries_ext.
    + exact (entries_sorted self h r l1 Hok1).
    + exact (entries_sorted rhs h r l2 Hok2).
    + exact (entries_nonzero self h R1 C1 r l1 Hwf1 Hnz1 Hl1).
    + exact (entries_nonzero rhs h R2 C2 r l2 Hwf2 Hnz2 Hl2).
    + intros c. rewrite <-!lookup_row_entries.
      assert (r < nrows self) as Hr.
      { rewrite <-(wf_R _ _ _ _ Hwf1). by eapply lookup_lt_Some. }
      specialize (Hall r c Hr).
      rewrite (getitem_spec self h r l1 c Hok1) in Hall.
      rewrite (getitem_spec rhs h r l2 c Hok2) in Hall. congruence.
Qed.

Lemma X10_eq_extensional_witness :
  wf (__init__ 2 3) [] (replicate 2 []) (replicate 3 []) /\
  wf (__init__ 2 3) [] (replicate 2 []) (replicate 3 []) /\
  nonzero [] (replicate 2 []) /\ nonzero [] (replicate 2 []) /\
  exists b,
    __eq__ (__init__ 2 3) (__init__ 2 3) [] = Return b [] /\
    (b = true <->
     nrows (__init__ 2 3) = nrows (__init__ 2 3) /\
     ncols (__init__ 2 3) = ncols (__init__ 2 3) /\
     forall r c, r < nrows (__init__ 2 3) ->
       __getitem__ (__init__ 2 3) r c [] = __getitem__ (__init__ 2 3) r c []).
Proof.
  assert (nonzero [] (replicate 2 [])) as Hnz.
  { intros a x (j & l & [-> _]%lookup_replicate & Ha). by apply elem_of_nil in Ha. }
  split; [apply wf_init|]. split; [apply wf_init|]. split; [exact Hnz|].
  split; [exact Hnz|].
  exact (X10_eq_extensional (__init__ 2 3) (__init__ 2 3) [] _ _ _ _
           (wf_init 2 3 []) (wf_init 2 3 []) Hnz Hnz).
Defined.

(** ** [__mul__] and [__rmul__] *)

Lemma mul_product self rhs :
  __mul__ self rhs
  = if negb (ncols self =? length rhs) then raise ValueError
    else product Node.right Node.col Z.mul (_prow self) (ncols self) (nrows self) rhs.
Proof. reflexivity. Qed.

Lemma rmul_product self lhs :
  __rmul__ self lhs
  = if negb (nrows self =? length lhs) then raise ValueError
    else product Node.down Node.row (fun e x => (x * e)%Z) (_pcol self)
           (nrows self) (ncols self) lhs.
Proof. reflexivity. Qed.

Lemma neq_pred_true i n : i + 1 <> n -> neq_pred i n = true.
Proof.
  intros Hne. unfold neq_pred. apply negb_true_iff, Z.eqb_neq. lia.
Qed.

Lemma neq_pred_false i n : i + 1 = n -> neq_pred i n = false.
Proof.
  intros He. unfold neq_pred. apply negb_false_iff, Z.eqb_eq. lia.
Qed.

(** The first head that is not [None]. *)
Lemma first_head (heads : list (option addr)) :
  (exists j a, heads !! j = Some (Some a)) ->
  exists i0 a0, heads !! i0 = Some (Some a0) /\
    forall j, j < i0 -> heads !! j = Some None.
Proof.
  induction heads as [|o heads IH]; intros (j & a & Hj); [done|].
  destruct o as [a0|].
  - exists 0, a0. split; [done|]. intros; lia.
  - destruct j as [|j]; [done|]. destruct IH as (i0 & a0 & H0 & Hlt); [eauto|].
    exists (S i0), a0. split; [done|]. intros [|j'] ?; [done|]. apply Hlt. lia.
Qed.

(** The scan stops at the first head that is not [None]. *)
Lemma scan_spec (heads : list (option addr)) i0 a0 h d : forall i o fuel,
  heads !! i0 = Some (Some a0) ->
  (forall j, j < i0 -> heads !! j = Some None) ->
  i + d = i0 -> heads !! i = Some o -> d < fuel ->
  while fuel scan_cond (scan_body heads) (i, o) h = Return (i0, Some a0) h.
Proof.
  induction d as [|d IH]; intros i o fuel H0 Hlt Hi Ho Hfuel.
  - assert (i = i0) as -> by lia. rewrite H0 in Ho. injection Ho as <-.
    destruct fuel; [lia|]. by rewrite while_unfold.
  - destruct fuel as [|fuel]; [lia|].
    rewrite (Hlt i) in Ho by lia. injection Ho as <-.
    destruct (lookup_lt_is_Some_2 heads (i + 1)) as [o' Ho'].
    { pose proof (lookup_lt_Some _ _ _ H0). lia. }
    rewrite while_unfold. unfold scan_cond at 1, scan_body at 1, bind, ret, index.
    simpl. rewrite Ho'. apply IH; try done; lia.
Qed.

Lemma add_at_middle (pre post : list Z) x entry (h : heap) :
  add_at (pre ++ x :: post) (length pre) entry h
  = Return (pre ++ (x + entry)%Z :: post) h.
Proof.
  unfold add_at, bind, index, assign, ret.
  rewrite list_lookup_middle by done.
  rewrite decide_True by (rewrite length_app; simpl; lia).
  by rewrite insert_app_r_alt, Nat.sub_diag by lia.
Qed.

Section ProductProof.
Variables (nxt : Node.t -> option addr) (key fixed : Node.t -> nat) (term : Z -> Z -> Z).
Variables (h : heap) (heads : list (option addr)) (L : list (list addr)).
Variables (bound n : nat) (vec : list Z).
Hypothesis Hok : forall j l, L !! j = Some l -> chain_ok nxt key fixed bound h heads j l.
Hypothesis HL : length L = n.
Hypothesis Hheads : length heads = n.
Hypothesis Hvec : length vec = bound.

Local Abbreviation dot := (chain_dot key term vec h).

(** The walk along a chain adds up its products. *)
Lemma dot_spec l : forall q entry fuel,
  lseg nxt h q l None ->
  Forall (fun a => key_at key h a < bound) l ->
  length l < fuel ->
  while fuel (dot_cond key bound) (dot_body nxt key term vec) (entry, q) h
  = Return ((entry + dot l)%Z, None) h.
Proof.
  induction l as [|a l IH]; intros q entry fuel Hl Hb Hfuel.
  - simpl in Hl. subst q. destruct fuel; [simpl in Hfuel; lia|].
    rewrite while_unfold. simpl. by rewrite Z.add_0_r.
  - destruct Hl as (-> & o' & Ho' & Hl).
    destruct fuel as [|fuel]; [simpl in Hfuel; lia|].
    apply Forall_cons_1 in Hb as [Ha Hb].
    apply fld_Some in Ho' as (qn & Hqn & <-).
    assert (key_at key h a = key qn) as Hk by (unfold key_at, fld; by rewrite Hqn).
    rewrite Hk in Ha.
    destruct (lookup_lt_is_Some_2 vec (key qn)) as [x Hx]; [lia|].
    rewrite while_unfold.
    unfold dot_cond at 1, dot_body at 1, bind, ret, deref, load, index.
    simpl. rewrite Hqn. rewrite (proj2 (Nat.eqb_neq _ _)) by lia. simpl.
    rewrite Hqn, Hx. unfold ret. rewrite IH by (done || simpl in Hfuel; lia).
    do 2 f_equal. simpl. rewrite Hk, Hx. unfold fld. rewrite Hqn. simpl. lia.
Qed.

Lemma dot_run j l o entry :
  L !! j = Some l -> heads !! j = Some o ->
  while (S (length h)) (dot_cond key bound) (dot_body nxt key term vec) (entry, o) h
  = Return ((entry + dot l)%Z, None) h.
Proof.
  intros Hl Ho. pose proof (Hok j l Hl) as Hj.
  destruct (ok_lseg _ _ _ _ _ _ _ _ Hj) as (o' & Ho' & Hseg).
  assert (o' = o) as -> by congruence.
  apply dot_spec; [done| |].
  - rewrite Forall_forall. intros a Ha. exact (chain_ok_bound Hj a Ha).
  - pose proof (chain_ok_length Hj). lia.
Qed.

(** The loop over the rows fills in the products of the rows before the
    last one. *)
Lemma rows_spec olast m : forall i pre o fuel,
  heads !! (n - 1) = Some olast ->
  length pre = i -> i + m + 1 = n -> heads !! i = Some o -> m < fuel ->
  while fuel (rows_cond n) (rows_body nxt key term heads bound vec)
    (pre ++ replicate (m + 1) 0%Z, i, o) h
  = Return (pre ++ (dot <$> take m (drop i L)) ++ [0%Z], n - 1, olast) h.
Proof.
  induction m as [|m IH]; intros i pre o fuel Hlast Hpre Hi Ho Hfuel.
  - assert (i = n - 1) as -> by lia. rewrite Hlast in Ho. injection Ho as <-.
    destruct fuel; [lia|]. rewrite while_unfold. unfold rows_cond at 1, bind, ret.
    by rewrite neq_pred_false by lia.
  - destruct fuel as [|fuel]; [lia|].
    destruct (lookup_lt_is_Some_2 L i) as [l Hl]; [lia|].
    destruct (lookup_lt_is_Some_2 heads (i + 1)) as [o' Ho']; [lia|].
    rewrite while_unfold.
    unfold rows_cond at 1, rows_body at 1. unfold bind at 1, ret at 1.
    rewrite neq_pred_true by lia.
    unfold bind at 1, chain_fuel, ret at 1. unfold bind at 1.
    unfold bind at 1. rewrite (dot_run i l o 0%Z Hl Ho).
    replace (S m + 1) with (S (m + 1)) by lia.
    change (replicate (S (m + 1)) 0%Z) with (0%Z :: replicate (m + 1) 0%Z).
    unfold bind at 1. subst i. rewrite add_at_middle.
    unfold bind at 1. rewrite (index_run _ _ _ _ Ho').
    replace (pre ++ (0 + (0 + dot l))%Z :: replicate (m + 1) 0%Z)
      with ((pre ++ [dot l]) ++ replicate (m + 1) 0%Z)
      by (rewrite <-app_assoc; simpl; do 2 f_equal; lia).
    rewrite (IH (length pre + 1) (pre ++ [dot l]) o' fuel); try done.
    + do 2 f_equal. rewrite (drop_S L l (length pre) Hl). simpl.
      rewrite <-app_assoc. simpl. by rewrite Nat.add_1_r.
    + rewrite length_app. simpl. lia.
    + lia.
    + lia.
Qed.

(** The products of all chains, when some chain has a node. *)
Lemma product_spec :
  (exists j a, heads !! j = Some (Some a)) ->
  product nxt key term heads bound n vec h = Return (dot <$> L) h.
Proof.
  intros Hsome. destruct (first_head heads Hsome) as (i0 & a0 & H0 & Hlt).
  pose proof (lookup_lt_Some _ _ _ H0) as Hi0. rewrite Hheads in Hi0.
  destruct (lookup_lt_is_Some_2 heads 0) as [o0 Ho0]; [lia|].
  destruct (lookup_lt_is_Some_2 heads (n - 1)) as [olast Holast]; [lia|].
  destruct (lookup_lt_is_Some_2 L (n - 1)) as [llast Hllast]; [lia|].
  set (m := n - 1 - i0).
  unfold product, bind at 1. rewrite (index_run _ _ _ _ Ho0).
  unfold bind at 1.
  rewrite (scan_spec heads i0 a0 h i0 0 o0 (scan_fuel heads)); try done;
    [|unfold scan_fuel; lia].
  unfold bind at 1.
  replace (replicate n 0%Z) with (replicate i0 0%Z ++ replicate (m + 1) 0%Z)
    by (rewrite <-replicate_add; f_equal; lia).
  rewrite (rows_spec olast m i0 (replicate i0 0%Z) (Some a0) (scan_fuel heads));
    try done; [|by rewrite length_replicate|lia|unfold scan_fuel; lia].
  unfold bind at 1, chain_fuel. unfold bind at 1.
  rewrite (dot_run (n - 1) llast olast 0%Z Hllast Holast).
  assert (length (replicate i0 0%Z ++ (dot <$> take m (drop i0 L))) = n - 1) as Hlen.
  { rewrite length_app, length_replicate, length_fmap, length_take, length_drop. lia. }
  rewrite app_assoc, <-Hlen. unfold bind. rewrite add_at_middle. unfold ret.
  do 2 f_equal.
  (* the rows before the first head are empty *)
  assert (dot <$> take i0 L = replicate i0 0%Z) as Hpre.
  { apply list_eq. intros j. rewrite list_lookup_fmap.
    destruct (decide (j < i0)) as [Hj|Hj].
    - rewrite lookup_take_lt by done. rewrite lookup_replicate_2 by done.
      destruct (lookup_lt_is_Some_2 L j) as [l Hl]; [lia|]. rewrite Hl. simpl.
      destruct (ok_lseg _ _ _ _ _ _ _ _ (Hok j l Hl)) as (o & Ho & Hseg).
      rewrite (Hlt j Hj) in Ho. injection Ho as <-.
      destruct l; [done|]. by destruct Hseg.
    - rewrite lookup_take_ge by lia.
      symmetry. apply lookup_ge_None. rewrite length_replicate. lia. }
  assert (L = take i0 L ++ take m (drop i0 L) ++ [llast]) as HLeq.
  { rewrite <-(take_drop i0 L) at 1. f_equal.
    rewrite <-(take_drop m (drop i0 L)) at 1. f_equal.
    rewrite drop_drop. replace (i0 + m) with (n - 1) by lia.
    rewrite (drop_S L llast (n - 1) Hllast).
    by rewrite drop_ge by lia. }
  transitivity (dot <$> (take i0 L ++ take m (drop i0 L) ++ [llast]));
    [|by rewrite <-HLeq].
  rewrite !fmap_app, Hpre, <-app_assoc. simpl. by do 3 f_equal.
Qed.
End ProductProof.

(** *** The sample matrix *)

Lemma sample_built :
  set_all (__init__ 2 3) [(0, 1, 2%Z); (1, 0, 3%Z); (1, 2, 4%Z)] []
  = Return sample sample_heap.
Proof. reflexivity. Qed.

Lemma wf_sample : wf sample sample_heap [[0]; [1; 2]] [[1]; [0]; [2]].
Proof.
  split; try done.
  - intros [|[|r]] l Hl; [| |done]; injection Hl as <-; split.
    + exists (Some 0). split; [done|]. simpl. split; [done|]. by exists None.
    + by repeat constructor.
    + by repeat constructor.
    + exists (Some 1). split; [done|]. simpl. split; [done|]. exists (Some 2).
      split; [done|]. split; [done|]. by exists None.
    + repeat constructor; simpl; lia.
    + repeat constructor; simpl; lia.
  - intros [|[|[|c]]] l Hl; [| | |done]; injection Hl as <-; split.
    + exists (Some 1). split; [done|]. simpl. split; [done|]. by exists None.
    + by repeat constructor.
    + by repeat constructor.
    + exists (Some 0). split; [done|]. simpl. split; [done|]. by exists None.
    + by repeat constructor.
    + by repeat constructor.
    + exists (Some 2). split; [done|]. simpl. split; [done|]. by exists None.
    + repeat constructor; simpl; lia.
    + by repeat constructor.
  - intros a. split.
    + intros (i & l & Hl & Ha). destruct i as [|[|i]]; [| |done]; injection Hl as <-.
      * apply list_elem_of_singleton in Ha as ->. by exists 1, [0]; split; [|left].
      * apply elem_of_cons in Ha as [->|Ha].
        -- by exists 0, [1]; split; [|left].
        -- apply list_elem_of_singleton in Ha as ->. by exists 2, [2]; split; [|left].
    + intros (i & l & Hl & Ha). destruct i as [|[|[|i]]]; [| | |done]; injection Hl as <-;
        apply list_elem_of_singleton in Ha as ->.
      * exists 1, [1; 2]. split; [done|left].
      * exists 0, [0]. split; [done|left].
      * exists 1, [1; 2]. split; [done|]. right; left.
Qed.

(** *** Sums over the places of a row or column *)

Lemma sum_range_app lo n1 n2 f :
  sum_range lo (n1 + n2) f = (sum_range lo n1 f + sum_range (lo + n1) n2 f)%Z.
Proof.
  revert lo. induction n1 as [|n1 IH]; intros lo.
  - simpl. by rewrite Nat.add_0_r.
  - unfold sum_range in *. simpl. rewrite IH.
    replace (S lo + n1) with (lo + S n1) by lia. lia.
Qed.

Lemma sum_range_zero lo len f :
  (forall k, lo <= k < lo + len -> f k = 0%Z) -> sum_range lo len f = 0%Z.
Proof.
  revert lo. induction len as [|len IH]; intros lo Hf; [done|].
  unfold sum_range in *. simpl. rewrite Hf by lia. rewrite IH; [done|].
  intros k Hk. apply Hf. lia.
Qed.

Lemma sum_range_ext lo len f g :
  (forall k, lo <= k < lo + len -> f k = g k) -> sum_range lo len f = sum_range lo len g.
Proof.
  revert lo. induction len as [|len IH]; intros lo Hf; [done|].
  unfold sum_range in *. simpl. rewrite Hf by lia. f_equal. apply IH.
  intros k Hk. apply Hf. lia.
Qed.

(** The sum over a sorted chain is the sum over all keys of its range, when
    [val] reads the elements of the chain and zero at the other keys. *)
Lemma sum_chain (kf : addr -> nat) (ef : addr -> Z) (F : nat -> Z -> Z)
    (val : nat -> Z) l : forall lo len,
  StronglySorted lt (kf <$> l) ->
  Forall (fun a => lo <= kf a < lo + len) l ->
  (forall k, F k 0%Z = 0%Z) ->
  (forall a, a ∈ l -> val (kf a) = ef a) ->
  (forall k, lo <= k < lo + len -> (forall a, a ∈ l -> kf a <> k) -> val k = 0%Z) ->
  sum_range lo len (fun k => F k (val k))
  = foldr (fun a acc => (F (kf a) (ef a) + acc)%Z) 0%Z l.
Proof.
  induction l as [|a l IH]; intros lo len Hs Hb HF Hin Hout.
  - simpl. apply sum_range_zero. intros k Hk. rewrite Hout; [apply HF|done|].
    by intros a Ha%elem_of_nil.
  - simpl in Hs. apply StronglySorted_cons in Hs as [Hall Hs].
    apply Forall_cons_1 in Hb as [Ha Hb].
    rewrite Forall_fmap, Forall_forall in Hall. rewrite Forall_forall in Hb.
    replace len with ((kf a - lo) + (1 + (lo + len - kf a - 1))) by lia.
    rewrite sum_range_app, (sum_range_app _ 1).
    replace (lo + (kf a - lo)) with (kf a) by lia.
    rewrite sum_range_zero.
    2:{ intros k Hk. rewrite Hout; [apply HF|lia|].
        intros b [->|Hb']%elem_of_cons; [lia|]. specialize (Hall b Hb'). simpl in Hall. lia. }
    unfold sum_range at 1. simpl. rewrite (Hin a) by left.
    rewrite (IH (kf a + 1) (lo + len - kf a - 1)); [lia|done| |done| |].
    + rewrite Forall_forall. intros b Hb'. specialize (Hall b Hb'). specialize (Hb b Hb').
      simpl in Hall. lia.
    + intros b Hb'. apply Hin. by right.
    + intros k Hk Hno. apply Hout; [lia|].
      intros b [->|Hb']%elem_of_cons; [lia|]. by apply Hno.
Qed.

Lemma fmap_seq_chains {A} (L : list (list addr)) (f : list addr -> A) (g : nat -> A) n :
  length L = n -> (forall r l, L !! r = Some l -> f l = g r) ->
  f <$> L = g <$> seq 0 n.
Proof.
  intros HL Hfg. apply list_eq. intros i. rewrite !list_lookup_fmap.
  destruct (L !! i) as [l|] eqn:E.
  - pose proof (lookup_lt_Some _ _ _ E). rewrite lookup_seq_lt by lia. simpl.
    f_equal. by apply Hfg.
  - apply lookup_ge_None in E. by rewrite lookup_seq_ge by lia.
Qed.

(** A chain with a node gives a head that is not [None]. *)
Lemma in_chains_head nxt key fixed bound h heads (L : list (list addr)) a :
  (forall j l, L !! j = Some l -> chain_ok nxt key fixed bound h heads j l) ->
  in_chains L a -> exists j b, heads !! j = Some (Some b).
Proof.
  intros Hok (j & l & Hl & Ha).
  destruct (ok_lseg _ _ _ _ _ _ _ _ (Hok j l Hl)) as (o & Ho & Hseg).
  destruct l as [|b l]; [by apply elem_of_nil in Ha|].
  destruct Hseg as (-> & _). by exists j, b.
Qed.

(** Chains without nodes have heads that are all [None]. *)
Lemma no_chains_heads nxt key fixed bound h heads (L : list (list addr)) :
  (forall j l, L !! j = Some l -> chain_ok nxt key fixed bound h heads j l) ->
  length heads = length L -> (forall a, ~ in_chains L a) ->
  heads = replicate (length L) None.
Proof.
  intros Hok Hlen Hno. apply list_eq. intros j.
  destruct (L !! j) as [l|] eqn:E.
  - pose proof (lookup_lt_Some _ _ _ E).
    destruct (ok_lseg _ _ _ _ _ _ _ _ (Hok j l E)) as (o & Ho & Hseg).
    rewrite Ho, lookup_replicate_2 by done. f_equal.
    destruct l as [|b l]; [done|]. destruct (Hno b). exists j, (b :: l). split; [done|left].
  - apply lookup_ge_None in E.
    rewrite (proj2 (lookup_ge_None _ _)) by lia.
    symmetry. apply lookup_ge_None. rewrite length_replicate. lia.
Qed.

Lemma entry_at_row self h r l c :
  row_chain_ok self h r l -> entry_at self h r c = lookup_row h l c.
Proof. intros Hok. unfold entry_at. by rewrite (getitem_spec self h r l c Hok). Qed.

(** The sum along the row chain [r] is the dense sum over its columns. *)
Lemma row_dot_dense self h R C r l (v : list Z) :
  wf self h R C -> R !! r = Some l ->
  chain_dot Node.col Z.mul v h l
  = sum_upto (ncols self) (fun c => (entry_at self h r c * default 0 (v !! c))%Z).
Proof.
  intros Hwf Hl. pose proof (wf_rows _ _ _ _ Hwf r l Hl) as Hok.
  unfold sum_upto, chain_dot.
  rewrite (sum_range_ext _ _ _
             (fun c => (fun k e => (e * default 0 (v !! k))%Z) c (lookup_row h l c)))
    by (intros k _; simpl; by rewrite (entry_at_row self h r l k Hok)).
  rewrite (sum_chain (key_at Node.col h) (fun a => default 0%Z (fld Node.el h a))
             (fun k e => (e * default 0 (v !! k))%Z) (lookup_row h l) l 0 (ncols self)).
  - done.
  - exact (ok_sorted _ _ _ _ _ _ _ _ Hok).
  - rewrite Forall_forall. intros a Ha. pose proof (chain_ok_bound Hok a Ha). lia.
  - intros k. lia.
  - intros a Ha. by apply (lookup_row_in self h r l).
  - intros k _ Hno. apply lookup_row_absent. rewrite Forall_forall. intros a Ha. by apply Hno.
Qed.

(** The sum along the column chain [c] is the dense sum over its rows. *)
Lemma col_dot_dense self h R C c k (v : list Z) :
  wf self h R C -> C !! c = Some k ->
  chain_dot Node.row (fun e x => (x * e)%Z) v h k
  = sum_upto (nrows self) (fun r => (default 0 (v !! r) * entry_at self h r c)%Z).
Proof.
  intros Hwf Hk. pose proof (wf_cols _ _ _ _ Hwf c k Hk) as Hok.
  unfold sum_upto, chain_dot.
  rewrite (sum_chain (key_at Node.row h) (fun a => default 0%Z (fld Node.el h a))
             (fun r e => (default 0 (v !! r) * e)%Z)
             (fun r => entry_at self h r c) k 0 (nrows self)).
  - done.
  - exact (ok_sorted _ _ _ _ _ _ _ _ Hok).
  - rewrite Forall_forall. intros a Ha. pose proof (chain_ok_bound Hok a Ha). lia.
  - intros r. lia.
  - intros a Ha. pose proof (chain_ok_bound Hok a Ha) as Hb.
    destruct (lookup_lt_is_Some_2 R (key_at Node.row h a)) as [l Hl];
      [by rewrite (wf_R _ _ _ _ Hwf)|].
    pose proof (wf_rows _ _ _ _ Hwf _ l Hl) as Hokr.
    rewrite (entry_at_row self h _ l c Hokr).
    apply (lookup_row_in self h (key_at Node.row h a) l); [done| |].
    + by apply (wf_col_in_row self h R C a c k (key_at Node.row h a) l).
    + unfold key_at. by rewrite (wf_col_of _ _ _ _ _ _ _ Hwf Hk Ha).
  - intros r Hr Hno.
    destruct (lookup_lt_is_Some_2 R r) as [l Hl]; [rewrite (wf_R _ _ _ _ Hwf); lia|].
    pose proof (wf_rows _ _ _ _ Hwf _ l Hl) as Hokr.
    rewrite (entry_at_row self h r l c Hokr).
    destruct (decide (lookup_row h l c = 0%Z)) as [|Hnz]; [done|].
    destruct (lookup_row_nonzero h l c Hnz) as (a & Ha & Hc).
    destruct (Hno a).
    + by apply (wf_row_in_col self h R C a r l c k).
    + unfold key_at. by rewrite (wf_row_of _ _ _ _ _ _ _ Hwf Hl Ha).
Qed.

Lemma mul_spec self h R C (v : list Z) :
  wf self h R C -> length v = ncols self -> (exists a, in_chains R a) ->
  __mul__ self v h
  = Return ((fun r => sum_upto (ncols self)
                        (fun c => (entry_at self h r c * default 0 (v !! c))%Z))
            <$> seq 0 (nrows self)) h.
Proof.
  intros Hwf Hv [a Ha]. rewrite mul_product, Hv, Nat.eqb_refl. simpl.
  rewrite (product_spec Node.right Node.col Node.row Z.mul h (_prow self) R
             (ncols self) (nrows self) v (wf_rows _ _ _ _ Hwf)
             (wf_R _ _ _ _ Hwf) (wf_prow _ _ _ _ Hwf) Hv).
  - f_equal. apply fmap_seq_chains; [exact (wf_R _ _ _ _ Hwf)|].
    intros r l Hl. exact (row_dot_dense self h R C r l v Hwf Hl).
  - exact (in_chains_head _ _ _ _ _ _ _ a (wf_rows _ _ _ _ Hwf) Ha).
Qed.

Lemma rmul_spec self h R C (v : list Z) :
  wf self h R C -> length v = nrows self -> (exists a, in_chains R a) ->
  __rmul__ self v h
  = Return ((fun c => sum_upto (nrows self)
                        (fun r => (default 0 (v !! r) * entry_at self h r c)%Z))
            <$> seq 0 (ncols self)) h.
Proof.
  intros Hwf Hv [a Ha]. rewrite rmul_product, Hv, Nat.eqb_refl. simpl.
  rewrite (product_spec Node.down Node.row Node.col (fun e x => (x * e)%Z) h
             (_pcol self) C (nrows self) (ncols self) v (wf_cols _ _ _ _ Hwf)
             (wf_C _ _ _ _ Hwf) (wf_pcol _ _ _ _ Hwf) Hv).
  - f_equal. apply fmap_seq_chains; [exact (wf_C _ _ _ _ Hwf)|].
    intros c k Hk. exact (col_dot_dense self h R C c k v Hwf Hk).
  - apply (in_chains_head _ _ _ _ _ _ _ a (wf_cols _ _ _ _ Hwf)).
    by apply (wf_same _ _ _ _ Hwf).
Qed.

(** On heads that are all [None] the opening scan of [product] raises. *)
Lemma product_zero nxt key term bound n vec h :
  product nxt key term (replicate n None) bound n vec h = Raise IndexError h.
Proof.
  unfold product. destruct n as [|n]; [done|].
  assert (replicate (S n) (@None addr) !! 0 = Some None) as H0
    by (apply lookup_replicate_2; lia).
  unfold bind at 1. rewrite (index_run _ _ _ _ H0).
  unfold bind at 1. rewrite scan_zero; [done|lia|].
  unfold scan_fuel. rewrite length_replicate. lia.
Qed.

Lemma mul_no_entries self h R C (v : list Z) :
  wf self h R C -> length v = ncols self -> (forall a, ~ in_chains R a) ->
  __mul__ self v h = Raise IndexError h.
Proof.
  intros Hwf Hv Hno. rewrite mul_product, Hv, Nat.eqb_refl. simpl.
  rewrite (no_chains_heads _ _ _ _ _ _ R (wf_rows _ _ _ _ Hwf)); try done.
  - rewrite (wf_R _ _ _ _ Hwf). apply product_zero.
  - by rewrite (wf_R _ _ _ _ Hwf), (wf_prow _ _ _ _ Hwf).
Qed.

Lemma rmul_no_entries self h R C (v : list Z) :
  wf self h R C -> length v = nrows self -> (forall a, ~ in_chains R a) ->
  __rmul__ self v h = Raise IndexError h.
Proof.
  intros Hwf Hv Hno. rewrite rmul_product, Hv, Nat.eqb_refl. simpl.
  rewrite (no_chains_heads _ _ _ _ _ _ C (wf_cols _ _ _ _ Hwf)); try done.
  - rewrite (wf_C _ _ _ _ Hwf). apply product_zero.
  - by rewrite (wf_C _ _ _ _ Hwf), (wf_pcol _ _ _ _ Hwf).
  - intros a Ha. apply (Hno a). by apply (wf_same _ _ _ _ Hwf).
Qed.

Lemma sample_has_node : exists a, in_chains [[0]; [1; 2]] a.
Proof. exists 0, 0, [0]. split; [done|left]. Qed.

Lemma no_chains_replicate n a : ~ in_chains (replicate n []) a.
Proof. intros (i & l & [-> _]%lookup_replicate & Ha). by apply elem_of_nil in Ha. Qed.





(** X13: on a matrix that satisfies the invariants and stores no entry (a
    new one, or one whose entries were all set back to zero) both products
    with a vector of the right length raise [IndexError]. *)
Theorem X13_products_without_entries_raise self h R C (v w : list Z) :
  wf self h R C -> (forall a, ~ in_chains R a) ->
  length v = ncols self -> length w = nrows self ->
  __mul__ self v h = Raise IndexError h /\ __rmul__ self w h = Raise IndexError h.
Proof.
  intros Hwf Hno Hv Hw. split.
  - by apply (mul_no_entries self h R C).
  - by apply (rmul_no_entries self h R C).
Qed.

Lemma X13_products_without_entries_raise_witness :
  wf (__init__ 2 3) [] (replicate 2 []) (replicate 3 []) /\
  (forall a, ~ in_chains (replicate 2 []) a) /\
  length [1; 2; 3]%Z = ncols (__init__ 2 3) /\
  length [1; 2]%Z = nrows (__init__ 2 3) /\
  __mul__ (__init__ 2 3) [1; 2; 3]%Z [] = Raise IndexError [] /\
  __rmul__ (__init__ 2 3) [1; 2]%Z [] = Raise IndexError [].
Proof.
  split; [apply wf_init|]. split; [apply no_chains_replicate|].
  split; [reflexivity|]. split; [reflexivity|].
  exact (X13_products_without_entries_raise (__init__ 2 3) [] _ _ [1; 2; 3]%Z [1; 2]%Z
           (wf_init 2 3 []) (no_chains_replicate 2) eq_refl eq_refl).
Defined.

(** ** [_insertnode] and [_removenode] *)

Lemma entry_at_lookup self h R C r c :
  wf self h R C -> r < nrows self ->
  exists l, R !! r = Some l /\ entry_at self h r c = lookup_row h l c.
Proof.
  intros Hwf Hr.
  destruct (lookup_lt_is_Some_2 R r) as [l Hl]; [by rewrite (wf_R _ _ _ _ Hwf)|].
  exists l. split; [done|]. apply entry_at_row. exact (wf_rows _ _ _ _ Hwf r l Hl).
Qed.

(** What the rows read is carried from the chains to [entry_at]. *)
Lemma entry_at_changed self h R C self' h' R' C' (f : nat -> nat -> Z -> Z) :
  wf self h R C -> wf self' h' R' C' -> nrows self' = nrows self ->
  (forall r' c' l l', R !! r' = Some l -> R' !! r' = Some l' ->
     lookup_row h' l' c' = f r' c' (lookup_row h l c')) ->
  forall r' c', r' < nrows self ->
    entry_at self' h' r' c' = f r' c' (entry_at self h r' c').
Proof.
  intros Hwf Hwf' Hnr Hread r' c' Hr'.
  destruct (entry_at_lookup self h R C r' c' Hwf Hr') as (l & Hl & ->).
  destruct (entry_at_lookup self' h' R' C' r' c' Hwf') as (l' & Hl' & ->); [lia|].
  by apply Hread.
Qed.

(** X14: [_insertnode] at a free place [(r, c)] of a matrix that satisfies
    the invariants, called with the last node [q] of the row before column
    [c], returns a matrix that satisfies the invariants, has the same
    dimensions, reads [v] at [(r, c)] and reads everywhere else what it
    read before. *)
Theorem X14_insertnode_adds_entry self h R C r c v l1 l2 :
  wf self h R C -> r < nrows self -> c < ncols self ->
  R !! r = Some (l1 ++ l2) ->
  Forall (fun a => key_at Node.col h a < c) l1 ->
  Forall (fun a => c < key_at Node.col h a) l2 ->
  exists self' h' R' C',
    _insertnode self r c (last l1) v h = Return self' h' /\
    wf self' h' R' C' /\ nrows self' = nrows self /\ ncols self' = ncols self /\
    forall r' c', r' < nrows self ->
      entry_at self' h' r' c'
      = if decide (r' = r /\ c' = c) then v else entry_at self h r' c'.
Proof.
  intros Hwf Hr Hc HR H1 H2.
  destruct (setitem_insert self h R C r c v l1 l2 Hwf Hr Hc HR H1 H2)
    as (self' & h' & R' & C' & Hrun & Hwf' & Hnr & Hnc & Hread).
  exists self', h', R', C'. do 4 (split; [done|]).
  exact (entry_at_changed self h R C self' h' R' C'
           (fun r' c' x => if decide (r' = r /\ c' = c) then v else x)
           Hwf Hwf' Hnr Hread).
Qed.

Lemma X14_insertnode_adds_entry_witness :
  wf sample sample_heap [[0]; [1; 2]] [[1]; [0]; [2]] /\
  0 < nrows sample /\ 2 < ncols sample /\
  [[0]; [1; 2]] !! 0 = Some ([0] ++ []) /\
  Forall (fun a => key_at Node.col sample_heap a < 2) [0] /\
  Forall (fun a => 2 < key_at Node.col sample_heap a) [] /\
  exists self' h' R' C',
    _insertnode sample 0 2 (last [0]) 5%Z sample_heap = Return self' h' /\
    wf self' h' R' C' /\ nrows self' = nrows sample /\ ncols self' = ncols sample /\
    forall r' c', r' < nrows sample ->
      entry_at self' h' r' c'
      = if decide (r' = 0 /\ c' = 2) then 5%Z else entry_at sample sample_heap r' c'.
Proof.
  assert (Forall (fun a => key_at Node.col sample_heap a < 2) [0]) as H1
    by (repeat constructor).
  assert (Forall (fun a => 2 < key_at Node.col sample_heap a) []) as H2
    by constructor.
  split; [apply wf_sample|]. split; [simpl; lia|]. split; [simpl; lia|].
  split; [reflexivity|]. split; [exact H1|]. split; [exact H2|].
  exact (X14_insertnode_adds_entry sample sample_heap _ _ 0 2 5%Z [0] []
           wf_sample ltac:(simpl; lia) ltac:(simpl; lia) eq_refl H1 H2).
Defined.

(** X15: [_removenode] on a node [pa] of the row chain [r] of a matrix that
    satisfies the invariants, called with the node [q] in front of [pa] in its
    row, returns a matrix that satisfies the invariants, has the same
    dimensions, reads zero at the place of [pa] and reads everywhere else what
    it read before; no linked node has the coordinates of [pa] any more. *)
Theorem X15_removenode_clears_entry self h R C r l1 pa l2 :
  wf self h R C ->
  R !! r = Some (l1 ++ pa :: l2) ->
  exists self' h' R' C',
    _removenode self (Some pa) (last l1) h = Return self' h' /\
    wf self' h' R' C' /\ nrows self' = nrows self /\ ncols self' = ncols self /\
    (forall r' c', r' < nrows self ->
       entry_at self' h' r' c'
       = if decide (r' = r /\ c' = key_at Node.col h pa) then 0%Z
         else entry_at self h r' c') /\
    (forall a, in_chains R' a ->
       ~ (fld Node.row h' a = Some r /\ fld Node.col h' a = Some (key_at Node.col h pa))).
Proof.
  intros Hwf HR.
  destruct (setitem_remove self h R C r (key_at Node.col h pa) l1 pa l2 Hwf HR eq_refl)
    as (self' & h' & R' & C' & Hrun & Hwf' & Hnr & Hnc & Hread & Hgone).
  exists self', h', R', C'. do 4 (split; [done|]). split.
  - exact (entry_at_changed self h R C self' h' R' C'
             (fun r' c' x => if decide (r' = r /\ c' = key_at Node.col h pa)
                             then 0%Z else x)
             Hwf Hwf' Hnr Hread).
  - by apply Hgone.
Qed.

Lemma X15_removenode_clears_entry_witness :
  wf sample sample_heap [[0]; [1; 2]] [[1]; [0]; [2]] /\
  [[0]; [1; 2]] !! 1 = Some ([1] ++ 2 :: []) /\
  exists self' h' R' C',
    _removenode sample (Some 2) (last [1]) sample_heap = Return self' h' /\
    wf self' h' R' C' /\ nrows self' = nrows sample /\ ncols self' = ncols sample /\
    (forall r' c', r' < nrows sample ->
       entry_at self' h' r' c'
       = if decide (r' = 1 /\ c' = key_at Node.col sample_heap 2) then 0%Z
         else entry_at sample sample_heap r' c') /\
    (forall a, in_chains R' a ->
       ~ (fld Node.row h' a = Some 1
          /\ fld Node.col h' a = Some (key_at Node.col sample_heap 2))).
Proof.
  split; [apply wf_sample|]. split; [reflexivity|].
  exact (X15_removenode_clears_entry sample sample_heap _ _ 1 [1] 2 []
           wf_sample eq_refl).
Defined.

(** ** [transposed] and [__add__] *)

Lemma transposed_copy self :
  transposed self
  = copy Node.down Node.row (_pcol self) (nrows self) (ncols self)
      (fun _ _ => ret None) (__init__ (ncols self) (nrows self)) ret.
Proof. reflexivity. Qed.

Lemma add_copy self rhs :
  __add__ self rhs
  = if negb (nrows self =? nrows rhs) || negb (ncols self =? ncols rhs)
    then raise ValueError
    else copy Node.right Node.col (_prow self) (ncols self) (nrows self)
           (fun result i => index (_prow result) i)
           (__init__ (nrows self) (ncols self)) (merge self rhs).
Proof. reflexivity. Qed.

Lemma upd_lookup_ne g p h b : p <> Some b -> upd g p h !! b = h !! b.
Proof.
  intros Hp. unfold upd. destruct p as [a|]; [|done].
  destruct (h !! a) eqn:E; [|done]. rewrite list_lookup_insert_ne; [done|congruence].
Qed.

(** [_insertnode] leaves the nodes other than [q] and [m] as they are. *)
Lemma insert_heap_lookup h row col el q succ m below b :
  b < length h -> q <> Some b -> m <> Some b ->
  insert_heap h row col el q succ m below !! b = h !! b.
Proof.
  intros Hb Hq Hm. unfold insert_heap.
  rewrite upd_lookup_ne by done.
  rewrite upd_lookup_ne by (intros [= Hx]; lia).
  rewrite upd_lookup_ne by done.
  rewrite upd_lookup_ne by (intros [= Hx]; lia).
  by rewrite lookup_app_l.
Qed.

Lemma entries_frame h h' l :
  (forall a, a ∈ l -> fld Node.col h' a = fld Node.col h a) ->
  (forall a, a ∈ l -> fld Node.el h' a = fld Node.el h a) ->
  entries h' l = entries h l.
Proof.
  intros Hc He. unfold entries. apply list_fmap_ext. intros i a Ha.
  apply list_elem_of_lookup_2 in Ha. unfold key_at. by rewrite Hc, He.
Qed.

Lemma entries_app h l1 l2 : entries h (l1 ++ l2) = entries h l1 ++ entries h l2.
Proof. unfold entries. by rewrite fmap_app. Qed.

Lemma last_in (l : list addr) a : last l = Some a -> a ∈ l.
Proof.
  intros Hl. destruct (last_Some l a) as [[l' ->] _]; [done|].
  apply elem_of_app. right. left.
Qed.

Section CopyProof.
Variables (h0 : heap) (n bound : nat).

(** The nodes of the source are as they were. *)
Lemma copying_src {X} (f : Node.t -> X) h res R' C' E a :
  copying h0 n bound h res R' C' E -> a < length h0 -> fld f h a = fld f h0 a.
Proof. intros Hcp Ha. unfold fld. by rewrite (cp_old _ _ _ _ _ _ _ _ Hcp a Ha). Qed.

(** One insertion at the end of row [i] of the copy. *)
Lemma copy_step h res R' C' E i c v l' :
  copying h0 n bound h res R' C' E ->
  i < n -> c < bound ->
  R' !! i = Some l' ->
  Forall (fun p => p.1 < c) (E i) ->
  exists res' h' C'',
    _insertnode res i c (last l') v h = Return res' h' /\
    copying h0 n bound h' res' (<[i:=l' ++ [length h]]> R') C''
      (fun j => if decide (j = i) then E i ++ [(c, v)] else E j) /\
    length h' = S (length h) /\
    _prow res' !! i = Some (head (l' ++ [length h])) /\
    (forall qa, last l' = Some qa -> fld Node.right h' qa = Some (Some (length h))).
Proof.
  intros Hcp Hi Hc HR HE.
  pose proof (cp_wf _ _ _ _ _ _ _ _ Hcp) as Hwf.
  pose proof (cp_nrows _ _ _ _ _ _ _ _ Hcp) as Hnr.
  pose proof (cp_ncols _ _ _ _ _ _ _ _ Hcp) as Hnc.
  pose proof (cp_len _ _ _ _ _ _ _ _ Hcp) as Hlen.
  assert (forall j l b, R' !! j = Some l -> b ∈ l -> b < length h) as Hin.
  { intros j l b Hj Hb. exact (chain_ok_in_heap _ _ _ _ _ _ _ _ _ (wf_rows _ _ _ _ Hwf j l Hj) Hb). }
  assert (Forall (fun a => key_at Node.col h a < c) l') as H1.
  { rewrite <-(cp_rows _ _ _ _ _ _ _ _ Hcp i l' HR) in HE.
    unfold entries in HE. by rewrite Forall_fmap in HE. }
  assert (R' !! i = Some (l' ++ [])) as HR' by (by rewrite app_nil_r).
  destruct (wf_insert res h R' C' i c v l' [] Hwf) as
    (res' & k1 & k2 & HC & Hrun & Hnr' & Hnc' & Hwf'); [lia|lia|done|done|constructor|].
  set (h' := insert_heap h i c v (last l') (head []) (last k1) (head k2)) in *.
  assert (forall X (f : Node.t -> X) b,
            (forall x r, f (Node.with_right x r) = f x) ->
            (forall x d, f (Node.with_down x d) = f x) ->
            b < length h -> fld f h' b = fld f h b) as Hold.
  { intros X f b Hfr Hfd Hb. unfold h'. rewrite insert_heap_fld by done.
    by rewrite decide_False by lia. }
  exists res', h', (<[c:=k1 ++ length h :: k2]> C').
  split; [exact Hrun|]. split; [|split; [|split]].
  - split.
    + exact Hwf'.
    + lia.
    + lia.
    + unfold h'. rewrite insert_heap_length. lia.
    + intros b Hb. rewrite <-(cp_old _ _ _ _ _ _ _ _ Hcp b Hb).
      apply insert_heap_lookup; [lia| |].
      * intros Hq. apply last_in in Hq.
        pose proof (cp_new _ _ _ _ _ _ _ _ Hcp b) as Hge.
        assert (in_chains R' b) as Hb' by (by exists i, l'). specialize (Hge Hb'). lia.
      * intros Hq. apply last_in in Hq.
        pose proof (cp_new _ _ _ _ _ _ _ _ Hcp b) as Hge.
        assert (in_chains R' b) as Hb'.
        { apply (wf_same _ _ _ _ Hwf). exists c, (k1 ++ k2). split; [done|].
          apply elem_of_app. by left. }
        specialize (Hge Hb'). lia.
    + intros a Ha. rewrite (in_chains_insert_new R' i l' [] (length h) a HR') in Ha.
      destruct Ha as [->|Ha]; [lia|]. exact (cp_new _ _ _ _ _ _ _ _ Hcp a Ha).
    + intros j l Hj. destruct (decide (j = i)) as [->|Hne].
      * rewrite list_lookup_insert_eq in Hj by (by eapply lookup_lt_Some).
        injection Hj as <-. rewrite entries_app. f_equal.
        -- rewrite <-(cp_rows _ _ _ _ _ _ _ _ Hcp i l' HR).
           apply entries_frame; intros a Ha; apply Hold; eauto.
        -- unfold entries. simpl. unfold key_at, h'.
           rewrite !insert_heap_fld by done. by rewrite !decide_True by done.
      * rewrite list_lookup_insert_ne in Hj by done.
        rewrite <-(cp_rows _ _ _ _ _ _ _ _ Hcp j l Hj).
        apply entries_frame; intros a Ha; apply Hold; eauto.
  - unfold h'. apply insert_heap_length.
  - assert (<[i:=l' ++ [length h]]> R' !! i = Some (l' ++ [length h])) as Hrow
      by (apply list_lookup_insert_eq; by eapply lookup_lt_Some).
    destruct (ok_lseg _ _ _ _ _ _ _ _ (wf_rows _ _ _ _ Hwf' i _ Hrow)) as (o & Ho & Hseg).
    by rewrite Ho, (lseg_nil_head _ _ _ _ Hseg).
  - intros qa Hqa. unfold h'. rewrite insert_heap_right.
    + pose proof (Hin i l' qa HR (last_in _ _ Hqa)).
      rewrite decide_False by lia. by rewrite decide_True.
    + rewrite Hqa. exact (Hin i l' qa HR (last_in _ _ Hqa)).
Qed.
End CopyProof.

Lemma copying_ext h0 n bound h res R' C' E E' :
  copying h0 n bound h res R' C' E -> (forall j, E j = E' j) ->
  copying h0 n bound h res R' C' E'.
Proof.
  intros Hcp HE. split; try apply Hcp.
  intros j l Hj. rewrite <-HE. by apply (cp_rows _ _ _ _ _ _ _ _ Hcp).
Qed.

(** The test of the loops over a chain, on a node of the source. *)
Lemma more_run key bound h a qn : h !! a = Some qn -> key qn < bound ->
  more key bound (Some a) h = Return true h.
Proof.
  intros Hqn Hb. unfold more, bind, load, ret. rewrite Hqn.
  by rewrite (proj2 (Nat.eqb_neq _ _)) by lia.
Qed.

(** A row of the copy without entries has no node and a [None] head. *)
Lemma copying_row_empty h0 n bound h res R' C' E i :
  copying h0 n bound h res R' C' E -> i < n -> E i = [] ->
  R' !! i = Some [] /\ _prow res !! i = Some None.
Proof.
  intros Hcp Hi HE. pose proof (cp_wf _ _ _ _ _ _ _ _ Hcp) as Hwf.
  destruct (lookup_lt_is_Some_2 R' i) as [l Hl].
  { rewrite (wf_R _ _ _ _ Hwf), (cp_nrows _ _ _ _ _ _ _ _ Hcp). lia. }
  pose proof (cp_rows _ _ _ _ _ _ _ _ Hcp i l Hl) as Hent. rewrite HE in Hent.
  apply fmap_nil_inv in Hent. subst l. split; [done|].
  destruct (ok_lseg _ _ _ _ _ _ _ _ (wf_rows _ _ _ _ Hwf i [] Hl)) as (o & Ho & Hseg).
  simpl in Hseg. by subst o.
Qed.

Section CopyLoops.
Variables (nxt : Node.t -> option addr) (key fixed : Node.t -> nat).
Variables (h0 : heap) (heads : list (option addr)) (L : list (list addr)).
Variables (bound n : nat) (pre : Matrix -> nat -> M (option addr)).
Hypothesis Hok : forall j l, L !! j = Some l -> chain_ok nxt key fixed bound h0 heads j l.
Hypothesis HL : length L = n.
Hypothesis Hheads : length heads = n.
Hypothesis Hpre : forall res i h, i < length (_prow res) -> exists x, pre res i h = Return x h.

(** One round of a loop over a source chain: the node [a] is read and its
    entry is put at the end of row [i] of the copy. *)
Lemma copy_iter h res R' C' E i l' a k2 :
  copying h0 n bound h res R' C' E ->
  i < n -> R' !! i = Some l' ->
  rest_of nxt key h0 bound (E i) (Some a) (a :: k2) ->
  exists qn res' h1 R'' C'',
    h !! a = Some qn /\ h1 !! a = Some qn /\ key qn < bound /\
    _insertnode res i (key qn) (last l') (Node.el qn) h = Return res' h1 /\
    copying h0 n bound h1 res' R'' C''
      (fun j => if decide (j = i) then E i ++ pairs key h0 [a] else E j) /\
    R'' !! i = Some (l' ++ [length h]) /\
    length h1 = S (length h) /\
    _prow res' !! i = Some (head (l' ++ [length h])) /\
    (forall qa, last l' = Some qa -> fld Node.right h1 qa = Some (Some (length h))) /\
    rest_of nxt key h0 bound (E i ++ pairs key h0 [a]) (nxt qn) k2.
Proof.
  intros Hcp Hi HR (Hseg & Hb & Hs & Hab).
  destruct Hseg as (_ & o' & Ho' & Hseg).
  apply fld_Some in Ho' as (qn & Hqn & <-).
  pose proof (lookup_lt_Some _ _ _ Hqn) as Ha.
  apply Forall_cons_1 in Hb as [Hba Hb].
  apply Forall_cons_1 in Hab as [Haa Hab].
  simpl in Hs. apply StronglySorted_cons in Hs as [Hall Hs].
  assert (key_at key h0 a = key qn) as Hk by (unfold key_at, fld; by rewrite Hqn).
  assert (default 0%Z (fld Node.el h0 a) = Node.el qn) as He
    by (unfold fld; by rewrite Hqn).
  rewrite Hk in Hba, Haa.
  destruct (copy_step h0 n bound h res R' C' E i (key qn) (Node.el qn) l' Hcp Hi Hba HR Haa)
    as (res' & h1 & C'' & Hrun & Hcp1 & Hlen1 & Hhead & Hright).
  exists qn, res', h1, (<[i:=l' ++ [length h]]> R'), C''.
  split; [by rewrite (cp_old _ _ _ _ _ _ _ _ Hcp a Ha)|].
  split; [by rewrite (cp_old _ _ _ _ _ _ _ _ Hcp1 a Ha)|].
  split; [done|]. split; [done|].
  split; [by unfold pairs; simpl; rewrite Hk, He|].
  split; [apply list_lookup_insert_eq; by eapply lookup_lt_Some|].
  do 3 (split; [done|]).
  split; [done|]. split; [done|]. split; [done|].
  rewrite Forall_forall in Hab |- *. intros b Hb'.
  apply Forall_app. split; [by apply Hab|].
  unfold pairs. simpl. constructor; [|constructor]. simpl. rewrite Hk.
  rewrite Forall_fmap, Forall_forall in Hall. specialize (Hall b Hb'). simpl in Hall. lia.
Qed.

Lemma rest_of_nil Ei q : rest_of nxt key h0 bound Ei q [] -> q = None.
Proof. by intros (Hseg & _). Qed.

Lemma rest_of_cons Ei q a k2 : rest_of nxt key h0 bound Ei q (a :: k2) -> q = Some a.
Proof. by intros ((-> & _) & _). Qed.

Lemma rest_of_length Ei q k2 : rest_of nxt key h0 bound Ei q k2 -> length k2 <= length h0.
Proof.
  intros (Hseg & _ & Hs & _).
  apply NoDup_length_le; [by eapply sorted_keys_NoDup|by eapply lseg_in_heap].
Qed.

Lemma deref_node h a qn : h !! a = Some qn -> deref (Some a) h = Return qn h.
Proof. intros Hqn. unfold deref, load. by rewrite Hqn. Qed.

(** The loop over the rest of a chain of the source, in [outer_body]. *)
Lemma inner_spec i k2 : forall h res R' C' E l' q fuel,
  copying h0 n bound h res R' C' E ->
  i < n -> R' !! i = Some l' -> l' <> [] ->
  rest_of nxt key h0 bound (E i) q k2 ->
  length k2 < fuel ->
  exists res' m' h' R'' C'',
    while fuel (inner_cond key bound) (inner_body nxt key i) (res, last l', q) h
    = Return (res', m', None) h' /\
    copying h0 n bound h' res' R'' C''
      (fun j => if decide (j = i) then E i ++ pairs key h0 k2 else E j).
Proof.
  induction k2 as [|a k2 IH]; intros h res R' C' E l' q fuel Hcp Hi HR Hne Hrest Hfuel.
  - rewrite (rest_of_nil _ _ Hrest). destruct fuel; [simpl in Hfuel; lia|].
    exists res, (last l'), h, R', C'. split; [by rewrite while_unfold|].
    apply (copying_ext _ _ _ _ _ _ _ _ _ Hcp). intros j. case_decide; [|done].
    subst j. by rewrite app_nil_r.
  - rewrite (rest_of_cons _ _ _ _ Hrest). destruct fuel as [|fuel]; [simpl in Hfuel; lia|].
    destruct (copy_iter h res R' C' E i l' a k2 Hcp Hi HR)
      as (qn & res' & h1 & R'' & C'' & Hqn & Hqn1 & Hb & Hrun & Hcp1 & HR1 & Hlen1
          & Hhead & Hright & Hrest1).
    { by rewrite <-(rest_of_cons _ _ _ _ Hrest). }
    destruct (last l') as [qa|] eqn:Hlast; [|by apply last_None in Hlast].
    destruct (deref_run Node.right qa h1 _ (Hright qa eq_refl)) as (mn & Hmn & Hmr).
    destruct (IH h1 res' R'' C'' _ (l' ++ [length h]) (nxt qn) fuel Hcp1 Hi HR1)
      as (res2 & m2 & h2 & R2 & C2 & Hrun2 & Hcp2).
    { by destruct l'. }
    { by rewrite decide_True by done. }
    { simpl in Hfuel. lia. }
    exists res2, m2, h2, R2, C2. split.
    + rewrite while_unfold. unfold inner_cond at 1, bind at 1.
      rewrite (more_run key bound h a qn Hqn Hb).
      unfold inner_body at 1. do 2 unfold bind at 1. rewrite (deref_node h a qn Hqn).
      unfold bind at 1. rewrite Hrun.
      unfold bind at 1. rewrite Hmn.
      unfold bind at 1. rewrite (deref_node h1 a qn Hqn1).
      unfold ret at 1. rewrite Hmr. rewrite last_snoc in Hrun2. exact Hrun2.
    + apply (copying_ext _ _ _ _ _ _ _ _ _ Hcp2). intros j.
      destruct (decide (j = i)) as [->|]; [|done].
      rewrite decide_True by done. by rewrite <-app_assoc.
Qed.

(** The loop over the last chain of the source. *)
Lemma last_spec i k2 : forall h res R' C' E l' q fuel,
  copying h0 n bound h res R' C' E ->
  i < n -> R' !! i = Some l' ->
  rest_of nxt key h0 bound (E i) q k2 ->
  length k2 < fuel ->
  exists res' m' h' R'' C'',
    while fuel (last_cond key bound) (last_body nxt key i) (res, q, last l') h
    = Return (res', None, m') h' /\
    copying h0 n bound h' res' R'' C''
      (fun j => if decide (j = i) then E i ++ pairs key h0 k2 else E j).
Proof.
  induction k2 as [|a k2 IH]; intros h res R' C' E l' q fuel Hcp Hi HR Hrest Hfuel.
  - rewrite (rest_of_nil _ _ Hrest). destruct fuel; [simpl in Hfuel; lia|].
    exists res, (last l'), h, R', C'. split; [by rewrite while_unfold|].
    apply (copying_ext _ _ _ _ _ _ _ _ _ Hcp). intros j. case_decide; [|done].
    subst j. by rewrite app_nil_r.
  - rewrite (rest_of_cons _ _ _ _ Hrest). destruct fuel as [|fuel]; [simpl in Hfuel; lia|].
    destruct (copy_iter h res R' C' E i l' a k2 Hcp Hi HR)
      as (qn & res' & h1 & R'' & C'' & Hqn & Hqn1 & Hb & Hrun & Hcp1 & HR1 & Hlen1
          & Hhead & Hright & Hrest1).
    { by rewrite <-(rest_of_cons _ _ _ _ Hrest). }
    destruct (IH h1 res' R'' C'' _ (l' ++ [length h]) (nxt qn) fuel Hcp1 Hi HR1)
      as (res2 & m2 & h2 & R2 & C2 & Hrun2 & Hcp2).
    { by rewrite decide_True by done. }
    { simpl in Hfuel. lia. }
    exists res2, m2, h2, R2, C2. split.
    + rewrite while_unfold. unfold last_cond at 1, bind at 1.
      rewrite (more_run key bound h a qn Hqn Hb).
      unfold last_body at 1. do 2 unfold bind at 1. rewrite (deref_node h a qn Hqn).
      unfold bind at 1. rewrite Hrun.
      rewrite last_snoc in Hrun2.
      destruct (last l') as [qa|] eqn:Hlast.
      * destruct (deref_run Node.right qa h1 _ (Hright qa eq_refl)) as (mn & Hmn & Hmr).
        unfold bind at 1. unfold bind at 1. rewrite Hmn. unfold ret at 1.
        unfold bind at 1. rewrite (deref_node h1 a qn Hqn1).
        unfold ret at 1. rewrite Hmr. exact Hrun2.
      * apply last_None in Hlast. subst l'. simpl in Hhead.
        unfold bind at 1. rewrite (index_run _ _ _ _ Hhead).
        unfold bind at 1. rewrite (deref_node h1 a qn Hqn1).
        unfold ret at 1. exact Hrun2.
    + apply (copying_ext _ _ _ _ _ _ _ _ _ Hcp2). intros j.
      destruct (decide (j = i)) as [->|]; [|done].
      rewrite decide_True by done. by rewrite <-app_assoc.
Qed.
(** The loop that skips the empty chains. *)
Lemma skip_spec h : forall fuel i, i < n -> n - i <= fuel ->
  exists i', i <= i' < n /\
    while fuel (skip_cond heads n) skip_body i h = Return i' h /\
    (forall j, i <= j < i' -> heads !! j = Some None) /\
    (i' + 1 <> n -> heads !! i' <> Some None).
Proof.
  induction fuel as [|fuel IH]; intros i Hi Hfuel; [lia|].
  destruct (lookup_lt_is_Some_2 heads i) as [c Hc]; [lia|].
  destruct (decide (c = None /\ i + 1 <> n)) as [[-> Hne]|Hstop].
  - destruct (IH (i + 1)) as (i' & Hi' & Hrun & Hnone & Hlast); [lia|lia|].
    exists i'. split; [lia|]. split; [|split; [|done]].
    + rewrite while_unfold. unfold skip_cond at 1. do 2 unfold bind at 1.
      rewrite (index_run _ _ _ _ Hc). unfold ret at 1.
      rewrite neq_pred_true by done. simpl. exact Hrun.
    + intros j Hj. destruct (decide (j = i)) as [->|]; [done|]. apply Hnone. lia.
  - exists i. split; [lia|]. split; [|split].
    + rewrite while_unfold. unfold skip_cond at 1. do 2 unfold bind at 1.
      rewrite (index_run _ _ _ _ Hc). unfold ret at 1.
      destruct (decide (c = None)) as [->|Hc'].
      * rewrite neq_pred_false; [done|]. destruct (decide (i + 1 = n)); [done|tauto].
      * by rewrite bool_decide_eq_false_2.
    + intros j Hj. lia.
    + intros Hne. rewrite Hc. intros [= ->]. tauto.
Qed.

Lemma rest_of_chain j l o :
  L !! j = Some l -> heads !! j = Some o -> rest_of nxt key h0 bound [] o l.
Proof.
  intros Hl Ho. pose proof (Hok j l Hl) as Hj.
  destruct (ok_lseg _ _ _ _ _ _ _ _ Hj) as (o' & Ho' & Hseg).
  assert (o' = o) as -> by congruence.
  split; [done|]. split; [|split].
  - rewrite Forall_forall. intros a Ha. exact (chain_ok_bound Hj a Ha).
  - exact (ok_sorted _ _ _ _ _ _ _ _ Hj).
  - rewrite Forall_forall. intros a _. constructor.
Qed.

Lemma empty_chain j : heads !! j = Some None -> default [] (L !! j) = [].
Proof.
  intros Ho. destruct (L !! j) as [l|] eqn:Hl; [|done]. simpl.
  destruct (rest_of_chain j l None Hl Ho) as (Hseg & _).
  destruct l; [done|]. by destruct Hseg.
Qed.

Lemma done_upto_self i : done_upto key h0 L i i = [].
Proof. unfold done_upto. by rewrite decide_False by lia. Qed.

(** The loop over the chains before the last one. *)
Lemma outer_spec : forall fuel i h res R' C' p,
  copying h0 n bound h res R' C' (done_upto key h0 L i) ->
  i < n -> heads !! i = Some p -> (i + 1 <> n -> p <> None) ->
  n - i <= fuel ->
  exists res' h' R'' C'' p',
    while fuel (outer_cond n) (outer_body nxt key heads bound n pre) (res, i, p, None) h
    = Return (res', n - 1, p', None) h' /\
    heads !! (n - 1) = Some p' /\
    copying h0 n bound h' res' R'' C'' (done_upto key h0 L (n - 1)).
Proof.
  induction fuel as [|fuel IH]; intros i h res R' C' p Hcp Hi Hp Hsome Hfuel; [lia|].
  destruct (decide (i + 1 = n)) as [Hlast|Hne].
  - exists res, h, R', C', p. replace (n - 1) with i by lia.
    split; [|done]. rewrite while_unfold. unfold outer_cond at 1, bind at 1, ret at 1.
    by rewrite neq_pred_false.
  - destruct p as [a|]; [|by destruct (Hsome Hne)].
    destruct (lookup_lt_is_Some_2 L i) as [l Hl]; [lia|].
    pose proof (rest_of_chain i l (Some a) Hl Hp) as Hrest.
    destruct l as [|a' k2]; [by destruct Hrest|].
    pose proof (rest_of_cons _ _ _ _ Hrest) as [= <-].
    destruct (copying_row_empty h0 n bound h res R' C' _ i Hcp Hi (done_upto_self i)) as [HR Hhd].
    rewrite <-(done_upto_self i) in Hrest.
    destruct (copy_iter h res R' C' _ i [] a k2 Hcp Hi HR Hrest)
      as (qn & res1 & h1 & R1 & C1 & Hqn & Hqn1 & Hb & Hrun1 & Hcp1 & HR1 & Hlen1
          & Hhead1 & _ & Hrest1).
    pose proof (cp_wf _ _ _ _ _ _ _ _ Hcp1) as Hwf1.
    destruct (Hpre res1 i h1) as [x Hx].
    { rewrite (wf_prow _ _ _ _ Hwf1), (cp_nrows _ _ _ _ _ _ _ _ Hcp1). lia. }
    destruct (inner_spec i k2 h1 res1 R1 C1 _ ([] ++ [length h]) (nxt qn) (S (length h1))
                Hcp1 Hi HR1)
      as (res2 & m2 & h2 & R2 & C2 & Hrun2 & Hcp2).
    { done. }
    { by rewrite decide_True by done. }
    { pose proof (rest_of_length _ _ _ Hrest1).
      pose proof (cp_len _ _ _ _ _ _ _ _ Hcp1). lia. }
    destruct (skip_spec h2 (scan_fuel heads) (i + 1)) as (i' & Hi' & Hskip & Hnone & Hstop);
      [lia|unfold scan_fuel; lia|].
    destruct (lookup_lt_is_Some_2 heads i') as [p' Hp']; [lia|].
    assert (forall j,
              (if decide (j = i)
               then (if decide (i = i) then done_upto key h0 L i i ++ pairs key h0 [a]
                     else done_upto key h0 L i i) ++ pairs key h0 k2
               else if decide (j = i) then done_upto key h0 L i i ++ pairs key h0 [a]
                    else done_upto key h0 L i j)
              = done_upto key h0 L i' j) as HE.
    { intros j. unfold done_upto. destruct (decide (j = i)) as [->|Hji].
      - rewrite decide_True by done. rewrite decide_False by lia.
        rewrite decide_True by lia. by rewrite Hl.
      - destruct (decide (j < i)) as [Hlt|Hge]; [by rewrite decide_True by lia|].
        destruct (decide (j < i')) as [Hlt'|]; [|done].
        rewrite (empty_chain j); [done|]. apply Hnone. lia. }
    pose proof (copying_ext _ _ _ _ _ _ _ _ _ Hcp2 HE) as Hcp3.
    destruct (copying_row_empty h0 n bound h2 res2 R2 C2 _ i' Hcp3 ltac:(lia) (done_upto_self i'))
      as [_ Hhd2].
    destruct (IH i' h2 res2 R2 C2 p' Hcp3) as (res' & h' & R'' & C'' & p'' & Hrun & Hp'' & Hcp');
      [lia|done| |lia|].
    { intros Hn ->. by apply Hstop. }
    exists res', h', R'', C'', p''. split; [|done].
    rewrite while_unfold. unfold outer_cond at 1, bind at 1, ret at 1.
    rewrite neq_pred_true by done.
    unfold outer_body at 1. do 2 unfold bind at 1. rewrite (deref_node h a qn Hqn).
    unfold bind at 1. simpl last in Hrun1. rewrite Hrun1.
    unfold bind at 1. rewrite Hx.
    unfold bind at 1. rewrite (deref_node h1 a qn Hqn1).
    unfold bind at 1. rewrite (index_run _ _ _ _ Hhead1).
    unfold bind at 1, chain_fuel at 1.
    unfold bind at 1.
    change (head ([] ++ [length h])) with (Some (length h)).
    change (last ([] ++ [length h])) with (Some (length h)) in Hrun2.
    rewrite Hrun2.
    unfold bind at 1. rewrite Hskip.
    unfold bind at 1. rewrite (index_run _ _ _ _ Hp').
    unfold bind at 1. rewrite (index_run _ _ _ _ Hhd2).
    unfold ret at 1. exact Hrun.
Qed.
(** The copy of all chains, when some chain has a node. *)
Lemma copy_spec {A} (k : Matrix -> M A) :
  (exists j a, heads !! j = Some (Some a)) ->
  exists res' h' R' C',
    copy nxt key heads bound n pre (__init__ n bound) k h0 = k res' h' /\
    copying h0 n bound h' res' R' C' (fun j => pairs key h0 (default [] (L !! j))).
Proof.
  intros Hsome. destruct (first_head heads Hsome) as (i0 & a0 & H0 & Hlt).
  pose proof (lookup_lt_Some _ _ _ H0) as Hi0. rewrite Hheads in Hi0.
  destruct (lookup_lt_is_Some_2 heads 0) as [o0 Ho0]; [lia|].
  assert (copying h0 n bound h0 (__init__ n bound) (replicate n []) (replicate bound [])
            (done_upto key h0 L i0)) as Hcp0.
  { split.
    - apply wf_init.
    - done.
    - done.
    - done.
    - done.
    - intros a Ha. by apply no_chains_replicate in Ha.
    - intros j l [-> Hj]%lookup_replicate. unfold done_upto.
      case_decide as Hji; [|done]. by rewrite (empty_chain j (Hlt j Hji)). }
  destruct (copying_row_empty h0 n bound h0 _ _ _ _ i0 Hcp0 Hi0 (done_upto_self i0)) as [_ Hhd0].
  destruct (outer_spec (scan_fuel heads) i0 h0 _ _ _ (Some a0) Hcp0 Hi0 H0)
    as (res1 & h1 & R1 & C1 & p1 & Hrun1 & Hp1 & Hcp1); [done|unfold scan_fuel; lia|].
  destruct (lookup_lt_is_Some_2 L (n - 1)) as [llast Hllast]; [lia|].
  pose proof (rest_of_chain (n - 1) llast p1 Hllast Hp1) as Hrest.
  destruct (copying_row_empty h0 n bound h1 res1 R1 C1 _ (n - 1) Hcp1 ltac:(lia)
              (done_upto_self (n - 1))) as [HR1 _].
  rewrite <-(done_upto_self (n - 1)) in Hrest.
  destruct (last_spec (n - 1) llast h1 res1 R1 C1 _ [] p1 (S (length h1)) Hcp1
              ltac:(lia) HR1 Hrest)
    as (res2 & m2 & h2 & R2 & C2 & Hrun2 & Hcp2).
  { pose proof (rest_of_length _ _ _ Hrest).
    pose proof (cp_len _ _ _ _ _ _ _ _ Hcp1). lia. }
  exists res2, h2, R2, C2. split.
  - unfold copy. unfold bind at 1. rewrite (index_run _ _ _ _ Ho0).
    unfold bind at 1.
    rewrite (scan_spec heads i0 a0 h0 i0 0 o0 (scan_fuel heads)); try done;
      [|unfold scan_fuel; lia].
    unfold bind at 1. rewrite (index_run _ _ _ _ Hhd0).
    unfold bind at 1. rewrite Hrun1.
    unfold bind at 1, chain_fuel at 1. unfold bind at 1.
    change (last []) with (@None addr) in Hrun2. by rewrite Hrun2.
  - apply (copying_ext _ _ _ _ _ _ _ _ _ Hcp2). intros j. unfold done_upto.
    destruct (decide (j = n - 1)) as [->|Hne].
    + rewrite decide_False by lia. by rewrite Hllast.
    + case_decide as Hj; [done|].
      by rewrite (proj2 (lookup_ge_None L j)) by lia.
Qed.
End CopyLoops.

(** On heads that are all [None] the opening scan of [copy] raises. *)
Lemma copy_zero {A} nxt key bound n pre result (k : Matrix -> M A) h :
  copy nxt key (replicate n None) bound n pre result k h = Raise IndexError h.
Proof.
  unfold copy. destruct n as [|n]; [done|].
  assert (replicate (S n) (@None addr) !! 0 = Some None) as H0
    by (apply lookup_replicate_2; lia).
  unfold bind at 1. rewrite (index_run _ _ _ _ H0).
  unfold bind at 1. rewrite scan_zero; [done|lia|].
  unfold scan_fuel. rewrite length_replicate. lia.
Qed.

Lemma pairs_lookup_absent key h k r :
  Forall (fun a => key_at key h a <> r) k -> entries_lookup (pairs key h k) r = 0%Z.
Proof.
  induction 1 as [|a k Ha _ IH]; [done|]. simpl.
  by rewrite (proj2 (Nat.eqb_neq _ _) Ha).
Qed.

Lemma pairs_lookup_in key h k a r :
  StronglySorted lt (key_at key h <$> k) -> a ∈ k -> key_at key h a = r ->
  entries_lookup (pairs key h k) r = default 0%Z (fld Node.el h a).
Proof.
  induction k as [|b k IH]; intros Hs Ha Hr; [by apply elem_of_nil in Ha|].
  simpl in Hs. apply StronglySorted_cons in Hs as [Hall Hs].
  rewrite Forall_fmap, Forall_forall in Hall. simpl.
  apply elem_of_cons in Ha as [->|Ha].
  - by rewrite Hr, Nat.eqb_refl.
  - specialize (Hall a Ha). simpl in Hall.
    rewrite (proj2 (Nat.eqb_neq _ _)) by lia. by apply IH.
Qed.

(** Reading the place [(r, c)] along the column chain [c] gives what
    [self[r, c]] reads along the row chain [r]. *)
Lemma col_lookup self h R C r c k :
  wf self h R C -> C !! c = Some k -> r < nrows self ->
  entries_lookup (pairs Node.row h k) r = entry_at self h r c.
Proof.
  intros Hwf Hk Hr. pose proof (wf_cols _ _ _ _ Hwf c k Hk) as Hokc.
  destruct (entry_at_lookup self h R C r c Hwf Hr) as (l & Hl & ->).
  pose proof (wf_rows _ _ _ _ Hwf r l Hl) as Hokr.
  destruct (decide (Forall (fun a => key_at Node.row h a <> r) k)) as [Hno|Hyes].
  - rewrite pairs_lookup_absent by done.
    destruct (decide (lookup_row h l c = 0%Z)) as [|Hnz]; [done|].
    destruct (lookup_row_nonzero h l c Hnz) as (a & Ha & Hc).
    rewrite Forall_forall in Hno. destruct (Hno a).
    + by apply (wf_row_in_col self h R C a r l c k).
    + unfold key_at. by rewrite (wf_row_of _ _ _ _ _ _ _ Hwf Hl Ha).
  - apply not_Forall_Exists in Hyes; [|apply _].
    apply Exists_exists in Hyes as (a & Ha & Hrow).
    assert (key_at Node.row h a = r) as Hrow'.
    { destruct (decide (key_at Node.row h a = r)); [done|]. by destruct Hrow. }
    rewrite (pairs_lookup_in Node.row h k a r (ok_sorted _ _ _ _ _ _ _ _ Hokc) Ha Hrow').
    symmetry. apply (lookup_row_in self h r l); [done| |].
    + by apply (wf_col_in_row self h R C a c k r l).
    + unfold key_at. by rewrite (wf_col_of _ _ _ _ _ _ _ Hwf Hk Ha).
Qed.

(** A store that kept its first nodes and did not shrink. *)
Lemma take_old (h0 h : heap) :
  length h0 <= length h -> (forall b, b < length h0 -> h !! b = h0 !! b) ->
  take (length h0) h = h0.
Proof.
  intros Hlen Hold. apply list_eq. intros b.
  destruct (decide (b < length h0)) as [Hb|Hb].
  - rewrite lookup_take_lt by done. by apply Hold.
  - rewrite lookup_take_ge by lia. symmetry. apply lookup_ge_None. lia.
Qed.

Lemma transposed_copying self h R C :
  wf self h R C -> (exists a, in_chains R a) ->
  exists res h' R' C',
    transposed self h = Return res h' /\
    copying h (ncols self) (nrows self) h' res R' C'
      (fun j => pairs Node.row h (default [] (C !! j))).
Proof.
  intros Hwf [a Ha]. rewrite transposed_copy.
  apply (copy_spec Node.down Node.row Node.col h (_pcol self) C (nrows self)
           (ncols self) (fun _ _ => ret None) (wf_cols _ _ _ _ Hwf)
           (wf_C _ _ _ _ Hwf) (wf_pcol _ _ _ _ Hwf)
           ltac:(by intros res i h1 _; exists None) ret).
  apply (in_chains_head _ _ _ _ _ _ _ a (wf_cols _ _ _ _ Hwf)).
  by apply (wf_same _ _ _ _ Hwf).
Qed.

Lemma transposed_spec self h R C :
  wf self h R C -> (exists a, in_chains R a) ->
  exists res h' R' C',
    transposed self h = Return res h' /\
    wf res h' R' C' /\ nrows res = ncols self /\ ncols res = nrows self /\
    take (length h) h' = h /\
    forall r c, r < nrows self -> c < ncols self ->
      entry_at res h' c r = entry_at self h r c.
Proof.
  intros Hwf Hnode.
  destruct (transposed_copying self h R C Hwf Hnode) as (res & h' & R' & C' & Hrun & Hcp).
  pose proof (cp_wf _ _ _ _ _ _ _ _ Hcp) as Hwf'.
  exists res, h', R', C'. split; [exact Hrun|]. split; [done|].
  split; [exact (cp_nrows _ _ _ _ _ _ _ _ Hcp)|].
  split; [exact (cp_ncols _ _ _ _ _ _ _ _ Hcp)|]. split.
  - apply take_old; [exact (cp_len _ _ _ _ _ _ _ _ Hcp)|exact (cp_old _ _ _ _ _ _ _ _ Hcp)].
  - intros r c Hr Hc.
    destruct (entry_at_lookup res h' R' C' c r Hwf') as (l' & Hl' & ->).
    { rewrite (cp_nrows _ _ _ _ _ _ _ _ Hcp). lia. }
    rewrite lookup_row_entries, (cp_rows _ _ _ _ _ _ _ _ Hcp c l' Hl').
    destruct (lookup_lt_is_Some_2 C c) as [k Hk]; [by rewrite (wf_C _ _ _ _ Hwf)|].
    rewrite Hk. simpl. by apply (col_lookup self h R C).
Qed.

(** X16: on a matrix that satisfies the invariants and stores at least one
    entry, [transposed] returns a matrix with swapped dimensions that satisfies
    the invariants and reads at [(c, r)] what the source reads at [(r, c)]; the
    nodes of the store are left as they were, the new ones are added behind
    them. *)
Theorem X16_transposed_swaps_entries self h R C :
  wf self h R C -> (exists a, in_chains R a) ->
  exists res h' R' C',
    transposed self h = Return res h' /\
    wf res h' R' C' /\ nrows res = ncols self /\ ncols res = nrows self /\
    take (length h) h' = h /\
    forall r c, r < nrows self -> c < ncols self ->
      entry_at res h' c r = entry_at self h r c.
Proof. apply transposed_spec. Qed.

Lemma X16_transposed_swaps_entries_witness :
  wf sample sample_heap [[0]; [1; 2]] [[1]; [0]; [2]] /\
  (exists a, in_chains [[0]; [1; 2]] a) /\
  exists res h' R' C',
    transposed sample sample_heap = Return res h' /\
    wf res h' R' C' /\ nrows res = ncols sample /\ ncols res = nrows sample /\
    take (length sample_heap) h' = sample_heap /\
    forall r c, r < nrows sample -> c < ncols sample ->
      entry_at res h' c r = entry_at sample sample_heap r c.
Proof.
  split; [apply wf_sample|]. split; [apply sample_has_node|].
  exact (X16_transposed_swaps_entries sample sample_heap _ _ wf_sample sample_has_node).
Defined.

Lemma in_chains_dec (L : list (list addr)) :
  (exists a, in_chains L a) \/ (forall a, ~ in_chains L a).
Proof.
  induction L as [|l L IH].
  - right. by intros a (i & l & Hl & _).
  - destruct l as [|b l].
    + destruct IH as [[a (i & l & Hl & Ha)]|Hno].
      * left. exists a, (S i), l. done.
      * right. intros a (i & l & Hl & Ha). destruct i as [|i].
        -- injection Hl as <-. by apply elem_of_nil in Ha.
        -- apply (Hno a). by exists i, l.
    + left. exists b, 0, (b :: l). split; [done|left].
Qed.

(** On a right operand without entries the opening scan of [merge] raises. *)
Lemma merge_zero self rhs result n h :
  _prow rhs = replicate n None -> merge self rhs result h = Raise IndexError h.
Proof.
  intros Hr. unfold merge. rewrite Hr. destruct n as [|n]; [done|].
  assert (replicate (S n) (@None addr) !! 0 = Some None) as H0
    by (apply lookup_replicate_2; lia).
  unfold bind at 1. rewrite (index_run _ _ _ _ H0).
  unfold bind at 1. rewrite scan_zero; [done|lia|].
  unfold scan_fuel. rewrite length_replicate. lia.
Qed.

Lemma add_empty_operand self rhs h R1 C1 R2 C2 :
  wf self h R1 C1 -> wf rhs h R2 C2 ->
  nrows self = nrows rhs -> ncols self = ncols rhs ->
  (forall a, ~ in_chains R1 a) \/ (forall a, ~ in_chains R2 a) ->
  exists h', __add__ self rhs h = Raise IndexError h' /\ take (length h) h' = h.
Proof.
  intros Hwf1 Hwf2 Hnr Hnc Hempty. rewrite add_copy, Hnr, Hnc, !Nat.eqb_refl. simpl.
  rewrite <-Hnr, <-Hnc.
  destruct (in_chains_dec R1) as [[a Ha]|Hno1].
  - destruct Hempty as [Hno1|Hno2]; [by destruct (Hno1 a)|].
    destruct (copy_spec Node.right Node.col Node.row h (_prow self) R1 (ncols self)
                (nrows self) (fun result i => index (_prow result) i)
                (wf_rows _ _ _ _ Hwf1) (wf_R _ _ _ _ Hwf1) (wf_prow _ _ _ _ Hwf1)
                ltac:(intros res i h1 [x Hx]%lookup_lt_is_Some_2; exists x;
                      by apply index_run)
                (merge self rhs))
      as (res & h' & R' & C' & Hrun & Hcp).
    { exact (in_chains_head _ _ _ _ _ _ _ a (wf_rows _ _ _ _ Hwf1) Ha). }
    exists h'. rewrite Hrun. split.
    + apply (merge_zero self rhs res (length R2)).
      apply (no_chains_heads _ _ _ _ _ _ R2 (wf_rows _ _ _ _ Hwf2)); [|done].
      by rewrite (wf_R _ _ _ _ Hwf2), (wf_prow _ _ _ _ Hwf2).
    + apply take_old; [exact (cp_len _ _ _ _ _ _ _ _ Hcp)|exact (cp_old _ _ _ _ _ _ _ _ Hcp)].
  - exists h. split; [|by rewrite firstn_all].
    rewrite (no_chains_heads _ _ _ _ _ _ R1 (wf_rows _ _ _ _ Hwf1)); try done.
    + rewrite (wf_R _ _ _ _ Hwf1). apply copy_zero.
    + by rewrite (wf_R _ _ _ _ Hwf1), (wf_prow _ _ _ _ Hwf1).
Qed.

(** X17: [m + rhs] raises [IndexError] whenever one of the two operands, of
    equal dimensions and satisfying the invariants, stores no entry: adding a
    zero matrix never succeeds.  The nodes already in the store are left as
    they were. *)
Theorem X17_add_without_entries_raises self rhs h R1 C1 R2 C2 :
  wf self h R1 C1 -> wf rhs h R2 C2 ->
  nrows self = nrows rhs -> ncols self = ncols rhs ->
  (forall a, ~ in_chains R1 a) \/ (forall a, ~ in_chains R2 a) ->
  exists h', __add__ self rhs h = Raise IndexError h' /\ take (length h) h' = h.
Proof. apply add_empty_operand. Qed.

Lemma X17_add_without_entries_raises_witness :
  wf sample sample_heap [[0]; [1; 2]] [[1]; [0]; [2]] /\
  wf (__init__ 2 3) sample_heap (replicate 2 []) (replicate 3 []) /\
  nrows sample = nrows (__init__ 2 3) /\ ncols sample = ncols (__init__ 2 3) /\
  ((forall a, ~ in_chains [[0]; [1; 2]] a) \/ (forall a, ~ in_chains (replicate 2 []) a)) /\
  exists h', __add__ sample (__init__ 2 3) sample_heap = Raise IndexError h'
             /\ take (length sample_heap) h' = sample_heap.
Proof.
  split; [apply wf_sample|]. split; [apply wf_init|].
  split; [reflexivity|]. split; [reflexivity|].
  split; [right; apply no_chains_replicate|].
  exact (X17_add_without_entries_raises sample (__init__ 2 3) sample_heap _ _ _ _
           wf_sample (wf_init 2 3 sample_heap) eq_refl eq_refl
           (or_intror (no_chains_replicate 2))).
Defined.

(** *** The entries of a row during the merge *)

Lemma pairs_absent_lookup (E : list (nat * Z)) c :
  Forall (fun p => p.1 <> c) E -> entries_lookup E c = 0%Z.
Proof.
  induction 1 as [|[k x] E Hk _ IH]; [done|]. simpl in *.
  by rewrite (proj2 (Nat.eqb_neq _ _) Hk).
Qed.

Lemma insert_entry_new E1 E2 c v :
  Forall (fun p => p.1 < c) E1 -> Forall (fun p => c < p.1) E2 ->
  insert_entry (E1 ++ E2) c v = E1 ++ (c, v) :: E2.
Proof.
  intros H1 H2. induction H1 as [|[k x] E1 Hk _ IH]; simpl.
  - destruct H2 as [|[k x] E2 Hk _]; [done|]. simpl in Hk. simpl.
    by rewrite (proj2 (Nat.ltb_lt _ _)) by lia.
  - simpl in Hk. rewrite (proj2 (Nat.ltb_ge _ _)) by lia.
    rewrite (proj2 (Nat.eqb_neq _ _)) by lia. by rewrite IH.
Qed.

Lemma insert_entry_hit E1 E2 c x v :
  Forall (fun p => p.1 < c) E1 ->
  insert_entry (E1 ++ (c, x) :: E2) c v = E1 ++ (c, (x + v)%Z) :: E2.
Proof.
  intros H1. induction H1 as [|[k y] E1 Hk _ IH]; simpl.
  - by rewrite Nat.ltb_irrefl, Nat.eqb_refl.
  - simpl in Hk. rewrite (proj2 (Nat.ltb_ge _ _)) by lia.
    rewrite (proj2 (Nat.eqb_neq _ _)) by lia. by rewrite IH.
Qed.

Lemma insert_entry_lookup E c v c' :
  StronglySorted lt (E.*1) ->
  entries_lookup (insert_entry E c v) c'
  = (entries_lookup E c' + if decide (c' = c) then v else 0)%Z.
Proof.
  induction E as [|[k x] E IH]; intros Hs; simpl.
  - destruct (Nat.eqb_spec c c') as [->|Hne].
    + by rewrite decide_True.
    + rewrite decide_False by done. lia.
  - simpl in Hs. apply StronglySorted_cons in Hs as [Hall Hs].
    destruct (Nat.ltb_spec c k) as [Hlt|Hge]; simpl.
    + destruct (Nat.eqb_spec c c') as [->|Hne].
      * rewrite decide_True by done. rewrite (proj2 (Nat.eqb_neq _ _)) by lia.
        rewrite pairs_absent_lookup; [lia|].
        change (Forall (lt k) (fst <$> E)) in Hall.
        rewrite Forall_fmap in Hall. apply (Forall_impl _ _ _ Hall).
        intros p Hp. simpl in Hp. lia.
      * rewrite decide_False by done. lia.
    + destruct (Nat.eqb_spec c k) as [->|Hne]; simpl.
      * destruct (Nat.eqb_spec k c') as [->|Hne'].
        -- by rewrite decide_True.
        -- rewrite decide_False by done. lia.
      * destruct (Nat.eqb_spec k c') as [->|Hne'].
        -- rewrite decide_False by done. lia.
        -- by apply IH.
Qed.

Lemma entries_keys h l : (entries h l).*1 = key_at Node.col h <$> l.
Proof. unfold entries. rewrite <-list_fmap_compose. by apply list_fmap_ext. Qed.

(** A sorted chain around one of its nodes. *)
Lemma sorted_split (f : addr -> nat) l1 b l2 :
  StronglySorted lt (f <$> l1 ++ b :: l2) ->
  Forall (fun a => f a < f b) l1 /\ Forall (fun a => f b < f a) l2.
Proof.
  rewrite fmap_app, fmap_cons. intros Hs.
  apply StronglySorted_app in Hs as (H12 & _ & H2).
  apply StronglySorted_cons in H2 as [H2 _]. split.
  - rewrite Forall_forall. intros a Ha. apply H12; [by apply list_elem_of_fmap_2|left].
  - by rewrite Forall_fmap in H2.
Qed.

Section MergeSteps.
Variables (h0 : heap) (n bound : nat).

(** One insertion between the parts [l1] and [l2] of row [i] of the result. *)
Lemma insert_step h res R' C' E i c v l1 l2 :
  copying h0 n bound h res R' C' E ->
  i < n -> c < bound ->
  R' !! i = Some (l1 ++ l2) ->
  Forall (fun a => key_at Node.col h a < c) l1 ->
  Forall (fun a => c < key_at Node.col h a) l2 ->
  exists res' h' C'',
    _insertnode res i c (last l1) v h = Return res' h' /\
    copying h0 n bound h' res' (<[i:=l1 ++ length h :: l2]> R') C''
      (fun j => if decide (j = i) then insert_entry (E i) c v else E j) /\
    length h' = S (length h) /\
    _prow res' !! i = Some (head (l1 ++ length h :: l2)) /\
    (forall qa, last l1 = Some qa -> fld Node.right h' qa = Some (Some (length h))) /\
    fld Node.col h' (length h) = Some c /\
    (forall b, b < length h -> fld Node.col h' b = fld Node.col h b).
Proof.
  intros Hcp Hi Hc HR H1 H2.
  pose proof (cp_wf _ _ _ _ _ _ _ _ Hcp) as Hwf.
  pose proof (cp_nrows _ _ _ _ _ _ _ _ Hcp) as Hnr.
  pose proof (cp_ncols _ _ _ _ _ _ _ _ Hcp) as Hnc.
  pose proof (cp_len _ _ _ _ _ _ _ _ Hcp) as Hlen.
  assert (forall j l b, R' !! j = Some l -> b ∈ l -> b < length h) as Hin.
  { intros j l b Hj Hb. exact (chain_ok_in_heap _ _ _ _ _ _ _ _ _ (wf_rows _ _ _ _ Hwf j l Hj) Hb). }
  destruct (wf_insert res h R' C' i c v l1 l2 Hwf) as
    (res' & k1 & k2 & HC & Hrun & Hnr' & Hnc' & Hwf'); [lia|lia|done|done|done|].
  set (h' := insert_heap h i c v (last l1) (head l2) (last k1) (head k2)) in *.
  assert (forall X (f : Node.t -> X) b,
            (forall x r, f (Node.with_right x r) = f x) ->
            (forall x d, f (Node.with_down x d) = f x) ->
            b < length h -> fld f h' b = fld f h b) as Hold.
  { intros X f b Hfr Hfd Hb. unfold h'. rewrite insert_heap_fld by done.
    by rewrite decide_False by lia. }
  assert (forall l, (forall b, b ∈ l -> b < length h) -> entries h' l = entries h l) as Hent.
  { intros l Hl. apply entries_frame; intros a Ha; apply Hold; auto. }
  exists res', h', (<[c:=k1 ++ length h :: k2]> C').
  split; [exact Hrun|]. split; [|split; [|split; [|split; [|split]]]].
  - split.
    + exact Hwf'.
    + lia.
    + lia.
    + unfold h'. rewrite insert_heap_length. lia.
    + intros b Hb. rewrite <-(cp_old _ _ _ _ _ _ _ _ Hcp b Hb).
      apply insert_heap_lookup; [lia| |].
      * intros Hq. apply last_in in Hq.
        pose proof (cp_new _ _ _ _ _ _ _ _ Hcp b) as Hge.
        assert (in_chains R' b) as Hb'.
        { exists i, (l1 ++ l2). split; [done|]. apply elem_of_app. by left. }
        specialize (Hge Hb'). lia.
      * intros Hq. apply last_in in Hq.
        pose proof (cp_new _ _ _ _ _ _ _ _ Hcp b) as Hge.
        assert (in_chains R' b) as Hb'.
        { apply (wf_same _ _ _ _ Hwf). exists c, (k1 ++ k2). split; [done|].
          apply elem_of_app. by left. }
        specialize (Hge Hb'). lia.
    + intros a Ha. rewrite (in_chains_insert_new R' i l1 l2 (length h) a HR) in Ha.
      destruct Ha as [->|Ha]; [lia|]. exact (cp_new _ _ _ _ _ _ _ _ Hcp a Ha).
    + intros j l Hj. destruct (decide (j = i)) as [->|Hne].
      * rewrite list_lookup_insert_eq in Hj by (by eapply lookup_lt_Some).
        injection Hj as <-.
        rewrite <-(cp_rows _ _ _ _ _ _ _ _ Hcp i _ HR), (entries_app h).
        rewrite insert_entry_new.
        -- rewrite entries_app. f_equal.
           ++ apply Hent. intros b Hb. apply (Hin i _ b HR). apply elem_of_app. by left.
           ++ change (entries h' (length h :: l2))
                with ((key_at Node.col h' (length h),
                       default 0%Z (fld Node.el h' (length h))) :: entries h' l2).
              f_equal.
              ** unfold key_at, h'. rewrite !insert_heap_fld by done.
                 by rewrite !decide_True by done.
              ** apply Hent. intros b Hb. apply (Hin i _ b HR). apply elem_of_app. by right.
        -- unfold entries. by rewrite Forall_fmap.
        -- unfold entries. by rewrite Forall_fmap.
      * rewrite list_lookup_insert_ne in Hj by done.
        rewrite <-(cp_rows _ _ _ _ _ _ _ _ Hcp j l Hj).
        apply Hent. intros b Hb. by apply (Hin j l).
  - unfold h'. apply insert_heap_length.
  - assert (<[i:=l1 ++ length h :: l2]> R' !! i = Some (l1 ++ length h :: l2)) as Hrow
      by (apply list_lookup_insert_eq; by eapply lookup_lt_Some).
    destruct (ok_lseg _ _ _ _ _ _ _ _ (wf_rows _ _ _ _ Hwf' i _ Hrow)) as (o & Ho & Hseg).
    by rewrite Ho, (lseg_nil_head _ _ _ _ Hseg).
  - intros qa Hqa. unfold h'. rewrite insert_heap_right.
    + assert (qa < length h) as Hqa'.
      { apply (Hin i _ qa HR). apply elem_of_app. left. by apply last_in. }
      rewrite decide_False by lia. by rewrite decide_True.
    + rewrite Hqa. apply (Hin i _ qa HR). apply elem_of_app. left. by apply last_in.
  - unfold h'. rewrite insert_heap_fld by done. by rewrite decide_True.
  - intros b Hb. by apply Hold.
Qed.

(** One update of the element of the node [b] of row [i] of the result. *)
Lemma update_step h res R' C' E i l1 b l2 v :
  copying h0 n bound h res R' C' E ->
  R' !! i = Some (l1 ++ b :: l2) ->
  exists x,
    fld Node.el h b = Some x /\
    set_el (Some b) (x + v)%Z h
    = Return () (upd (fun y => Node.with_el y (x + v)%Z) (Some b) h) /\
    copying h0 n bound (upd (fun y => Node.with_el y (x + v)%Z) (Some b) h) res R' C'
      (fun j => if decide (j = i) then insert_entry (E i) (key_at Node.col h b) v else E j) /\
    (forall a, fld Node.col (upd (fun y => Node.with_el y (x + v)%Z) (Some b) h) a
               = fld Node.col h a) /\
    (forall a, fld Node.right (upd (fun y => Node.with_el y (x + v)%Z) (Some b) h) a
               = fld Node.right h a).
Proof.
  intros Hcp HR.
  pose proof (cp_wf _ _ _ _ _ _ _ _ Hcp) as Hwf.
  pose proof (wf_rows _ _ _ _ Hwf i _ HR) as Hokr.
  assert (b ∈ l1 ++ b :: l2) as Hb by (apply elem_of_app; right; left).
  pose proof (chain_ok_in_heap _ _ _ _ _ _ _ _ _ Hokr Hb) as Hblt.
  destruct (lookup_lt_is_Some_2 h b Hblt) as [bn Hbn].
  exists (Node.el bn). set (h' := upd _ _ h).
  assert (forall X (f : Node.t -> X) a,
            (forall y w, f (Node.with_el y w) = f y) -> fld f h' a = fld f h a) as Hold.
  { intros X f a Hf. unfold h'. by apply fld_upd_same. }
  assert (fld Node.el h b = Some (Node.el bn)) as Hel by (unfold fld; by rewrite Hbn).
  split; [done|]. split; [by apply set_el_run|]. split; [|split].
  - split.
    + by apply wf_set_el.
    + exact (cp_nrows _ _ _ _ _ _ _ _ Hcp).
    + exact (cp_ncols _ _ _ _ _ _ _ _ Hcp).
    + unfold h'. rewrite upd_length. exact (cp_len _ _ _ _ _ _ _ _ Hcp).
    + intros a Ha. rewrite <-(cp_old _ _ _ _ _ _ _ _ Hcp a Ha).
      apply upd_lookup_ne. intros [= ->].
      pose proof (cp_new _ _ _ _ _ _ _ _ Hcp a) as Hge.
      assert (in_chains R' a) as Ha' by (by exists i, (l1 ++ a :: l2)).
      specialize (Hge Ha'). lia.
    + exact (cp_new _ _ _ _ _ _ _ _ Hcp).
    + pose proof (chain_ok_NoDup Hokr) as Hnd.
      apply NoDup_app in Hnd as (Hnd1 & Hnd12 & Hnd2).
      apply NoDup_cons in Hnd2 as [Hnb2 Hnd2].
      assert (forall l, b ∉ l -> entries h' l = entries h l) as Hent.
      { intros l Hl. apply entries_frame; intros a Ha.
        - by apply Hold.
        - unfold h'. rewrite fld_upd. rewrite decide_False; [done|].
          intros [= ->]. by apply Hl. }
      intros j l Hj. destruct (decide (j = i)) as [->|Hne].
      * assert (l = l1 ++ b :: l2) as -> by congruence.
        rewrite <-(cp_rows _ _ _ _ _ _ _ _ Hcp i _ HR), !entries_app.
        change (entries h (b :: l2))
          with ((key_at Node.col h b, default 0%Z (fld Node.el h b)) :: entries h l2).
        change (entries h' (b :: l2))
          with ((key_at Node.col h' b, default 0%Z (fld Node.el h' b)) :: entries h' l2).
        rewrite insert_entry_hit.
        -- rewrite Hent by (intros Hb1; by apply (Hnd12 b Hb1); left).
           rewrite (Hent l2) by done. do 2 f_equal.
           unfold key_at. rewrite Hold by done. f_equal.
           unfold h'. rewrite fld_upd, decide_True by done.
           unfold fld. by rewrite Hbn.
        -- destruct (sorted_split _ _ _ _ (ok_sorted _ _ _ _ _ _ _ _ Hokr)) as [Hs _].
           unfold entries. by rewrite Forall_fmap.
      * rewrite <-(cp_rows _ _ _ _ _ _ _ _ Hcp j l Hj). apply Hent.
        intros Hbl. apply Hne.
        exact (chains_disjoint _ _ _ _ _ _ _ _ _ _ _ _ (wf_rows _ _ _ _ Hwf) Hj HR Hbl Hb).
  - intros a. by apply Hold.
  - intros a. by apply Hold.
Qed.
End MergeSteps.

Lemma merge_entry_place result i ma qn mn h :
  h !! ma = Some mn ->
  (Node.col qn <? Node.col mn) = false -> (Node.col mn =? Node.col qn) = false ->
  forall a, h !! a = Some qn ->
  merge_entry result i (Some ma) (Some a) h
  = (let* fuel := chain_fuel in
     let* (result, m, n) :=
       while (S fuel) (place_cond qn) (place_body i qn) (result, Some ma, Some ma) in
     ret (result, m)) h.
Proof.
  intros Hmn Hlt Heq a Hqn. unfold merge_entry.
  unfold bind at 1. rewrite (deref_node h a qn Hqn).
  unfold bind at 1. rewrite (deref_node h ma mn Hmn).
  by rewrite Hlt, Heq.
Qed.

Section MergeLoops.
Variables (h0 : heap) (n bound : nat).

(** A node of a row of the result, with its entry. *)
Lemma row_node h res R' C' E i l b :
  copying h0 n bound h res R' C' E -> R' !! i = Some l -> b ∈ l ->
  exists bn, h !! b = Some bn /\ key_at Node.col h b = Node.col bn /\
             (Node.col bn, Node.el bn) ∈ E i.
Proof.
  intros Hcp HR Hb. pose proof (cp_wf _ _ _ _ _ _ _ _ Hcp) as Hwf.
  pose proof (chain_ok_in_heap _ _ _ _ _ _ _ _ _ (wf_rows _ _ _ _ Hwf i l HR) Hb) as Hlt.
  destruct (lookup_lt_is_Some_2 h b Hlt) as [bn Hbn]. exists bn.
  assert (key_at Node.col h b = Node.col bn) as Hk by (unfold key_at, fld; by rewrite Hbn).
  split; [done|]. split; [done|].
  rewrite <-(cp_rows _ _ _ _ _ _ _ _ Hcp i l HR). unfold entries.
  apply (list_elem_of_fmap_2' _ _ b); [done|].
  rewrite Hk. unfold fld. by rewrite Hbn.
Qed.

Lemma row_right h res R' C' E i l1 ma l2 :
  copying h0 n bound h res R' C' E -> R' !! i = Some (l1 ++ ma :: l2) ->
  fld Node.right h ma = Some (head l2).
Proof.
  intros Hcp HR. pose proof (cp_wf _ _ _ _ _ _ _ _ Hcp) as Hwf.
  destruct (ok_lseg _ _ _ _ _ _ _ _ (wf_rows _ _ _ _ Hwf i _ HR)) as (o & _ & Hseg).
  exact (lseg_mid _ _ _ _ _ _ Hseg).
Qed.

Lemma row_sorted h res R' C' E i l :
  copying h0 n bound h res R' C' E -> R' !! i = Some l ->
  StronglySorted lt (key_at Node.col h <$> l).
Proof.
  intros Hcp HR. pose proof (cp_wf _ _ _ _ _ _ _ _ Hcp) as Hwf.
  exact (ok_sorted _ _ _ _ _ _ _ _ (wf_rows _ _ _ _ Hwf i _ HR)).
Qed.

(** The place loop stops on a node of the column it looks for. *)
Lemma place_stop i qn res ma mn nd h fuel :
  h !! ma = Some mn -> Node.col mn = Node.col qn ->
  while (S fuel) (place_cond qn) (place_body i qn) (res, nd, Some ma) h
  = Return (res, nd, Some ma) h.
Proof.
  intros Hmn Hc. rewrite while_unfold. unfold place_cond at 1, bind at 1.
  unfold bind at 1, load. rewrite Hmn. unfold ret at 1.
  by rewrite Hc, Nat.ltb_irrefl.
Qed.

(** The insertion behind the cursor [ma], in front of [l2]. *)
Lemma place_insert h res R' C' E i c v l1 ma l2 :
  copying h0 n bound h res R' C' E -> i < n -> c < bound ->
  R' !! i = Some (l1 ++ ma :: l2) ->
  key_at Node.col h ma < c ->
  Forall (fun a => c < key_at Node.col h a) l2 ->
  exists res1 h1 R'' C'' mn1 nn,
    _insertnode res i c (Some ma) v h = Return res1 h1 /\
    deref (Some ma) h1 = Return mn1 h1 /\ Node.right mn1 = Some (length h) /\
    h1 !! length h = Some nn /\ Node.col nn = c /\
    copying h0 n bound h1 res1 R'' C''
      (fun j => if decide (j = i) then insert_entry (E i) c v else E j) /\
    R'' !! i = Some ((l1 ++ [ma]) ++ length h :: l2) /\
    key_at Node.col h1 (length h) = c.
Proof.
  intros Hcp Hi Hc HR Hma H2.
  assert (R' !! i = Some ((l1 ++ [ma]) ++ l2)) as HR' by (by rewrite <-app_assoc).
  destruct (sorted_split _ _ _ _ (row_sorted _ _ _ _ _ _ _ Hcp HR)) as [Hs1 _].
  destruct (insert_step h0 n bound h res R' C' E i c v (l1 ++ [ma]) l2 Hcp Hi Hc HR')
    as (res1 & h1 & C'' & Hrun & Hcp1 & Hlen1 & Hhead & Hright & Hcol & Hold); [|done|].
  { apply Forall_app. split; [|by repeat constructor].
    apply (Forall_impl _ _ _ Hs1). intros b Hb. lia. }
  rewrite last_snoc in Hrun.
  destruct (deref_run Node.right ma h1 _ (Hright ma (last_snoc _ _))) as (mn1 & Hmn1 & Hr1).
  apply fld_Some in Hcol as (nn & Hnn & Hcn).
  exists res1, h1, (<[i:=(l1 ++ [ma]) ++ length h :: l2]> R'), C'', mn1, nn.
  do 5 (split; [done|]). split; [done|]. split.
  - apply list_lookup_insert_eq. by eapply lookup_lt_Some.
  - unfold key_at, fld. by rewrite Hnn.
Qed.

(** The loop of [merge_entry] from the cursor [ma], whose column is below
    that of the entry. *)
Lemma place_spec i qn l2 : forall l1 ma h res R' C' E fuel,
  copying h0 n bound h res R' C' E -> i < n ->
  R' !! i = Some (l1 ++ ma :: l2) ->
  key_at Node.col h ma < Node.col qn ->
  Node.col qn < bound ->
  no_cancel (E i) (Node.col qn) (Node.el qn) ->
  length l2 + 2 <= fuel ->
  exists res' h' R'' C'' l1' ma' l2',
    while fuel (place_cond qn) (place_body i qn) (res, Some ma, Some ma) h
    = Return (res', Some ma', Some ma') h' /\
    copying h0 n bound h' res' R'' C''
      (fun j => if decide (j = i) then insert_entry (E i) (Node.col qn) (Node.el qn)
                else E j) /\
    R'' !! i = Some (l1' ++ ma' :: l2') /\ key_at Node.col h' ma' = Node.col qn.
Proof.
  induction l2 as [|b l2 IH]; intros l1 ma h res R' C' E fuel Hcp Hi HR Hma Hc Hnc Hfuel.
  - destruct fuel as [|[|fuel]]; [simpl in Hfuel; lia..|].
    destruct (row_node h res R' C' E i _ ma Hcp HR) as (mn & Hmn & Hkm & _).
    { apply elem_of_app. right. left. }
    pose proof (row_right _ _ _ _ _ _ _ _ _ Hcp HR) as Hr.
    unfold fld in Hr. rewrite Hmn in Hr. simpl in Hr. injection Hr as Hr.
    destruct (place_insert h res R' C' E i (Node.col qn) (Node.el qn) l1 ma [] Hcp Hi Hc HR Hma)
      as (res1 & h1 & R'' & C'' & mn1 & nn & Hrun & Hd1 & Hr1 & Hnn & Hcn & Hcp1 & HR1 & Hk1);
      [constructor|].
    exists res1, h1, R'', C'', (l1 ++ [ma]), (length h), []. split; [|done].
    rewrite while_unfold. unfold place_cond at 1, bind at 1.
    unfold bind at 1, load. rewrite Hmn. unfold ret at 1.
    rewrite (proj2 (Nat.ltb_lt _ _)) by lia.
    unfold place_body at 1. do 2 unfold bind at 1. rewrite (deref_node h ma mn Hmn).
    rewrite Hr. simpl head. unfold bind at 1, ret at 1.
    do 2 unfold bind at 1. rewrite Hrun.
    unfold bind at 1. rewrite Hd1. unfold ret at 1. rewrite Hr1. unfold ret at 1.
    exact (place_stop i qn res1 (length h) nn _ h1 fuel Hnn Hcn).
  - destruct fuel as [|[|fuel]]; [simpl in Hfuel; lia..|].
    destruct (row_node h res R' C' E i _ ma Hcp HR) as (mn & Hmn & Hkm & _).
    { apply elem_of_app. right. left. }
    destruct (row_node h res R' C' E i _ b Hcp HR) as (bn & Hbn & Hkb & HbE).
    { apply elem_of_app. right. right. left. }
    pose proof (row_right _ _ _ _ _ _ _ _ _ Hcp HR) as Hr.
    unfold fld in Hr. rewrite Hmn in Hr. simpl in Hr. injection Hr as Hr.
    destruct (sorted_split _ _ _ _ (row_sorted _ _ _ _ _ _ _ Hcp HR)) as [Hs1 Hs2].
    apply Forall_cons_1 in Hs2 as [Hmb Hs2].
    assert (R' !! i = Some ((l1 ++ [ma]) ++ b :: l2)) as HR' by (by rewrite <-app_assoc).
    destruct (sorted_split _ _ _ _ (row_sorted _ _ _ _ _ _ _ Hcp HR')) as [_ Hsb].
    destruct (Nat.ltb_spec (Node.col qn) (Node.col bn)) as [Habove|Hbelow].
    + destruct (place_insert h res R' C' E i (Node.col qn) (Node.el qn) l1 ma (b :: l2)
                  Hcp Hi Hc HR Hma)
        as (res1 & h1 & R'' & C'' & mn1 & nn & Hrun & Hd1 & Hr1 & Hnn & Hcn & Hcp1 & HR1 & Hk1).
      { constructor; [lia|]. apply (Forall_impl _ _ _ Hsb). intros x Hx. lia. }
      exists res1, h1, R'', C'', (l1 ++ [ma]), (length h), (b :: l2). split; [|done].
      rewrite while_unfold. unfold place_cond at 1, bind at 1.
      unfold bind at 1, load. rewrite Hmn. unfold ret at 1.
      rewrite (proj2 (Nat.ltb_lt _ _)) by lia.
      unfold place_body at 1. do 2 unfold bind at 1. rewrite (deref_node h ma mn Hmn).
      rewrite Hr. simpl head. unfold bind at 1. unfold bind at 1, load. rewrite Hbn.
      unfold ret at 1. rewrite (proj2 (Nat.ltb_lt _ _)) by lia.
      do 2 unfold bind at 1. rewrite Hrun.
      unfold bind at 1. rewrite Hd1. unfold ret at 1. rewrite Hr1. unfold ret at 1.
      exact (place_stop i qn res1 (length h) nn _ h1 fuel Hnn Hcn).
    + destruct (Nat.eqb_spec (Node.col bn) (Node.col qn)) as [Heq|Hne].
      * destruct (update_step h0 n bound h res R' C' E i (l1 ++ [ma]) b l2 (Node.el qn) Hcp HR')
          as (x & Hx & Hset & Hcp1 & Hcol1 & _).
        assert (x = Node.el bn) as -> by (unfold fld in Hx; rewrite Hbn in Hx; by injection Hx).
        assert ((Node.el bn + Node.el qn)%Z <> 0%Z) as Hsum.
        { apply Hnc. by rewrite <-Heq. }
        set (h1 := upd (fun y => Node.with_el y (Node.el bn + Node.el qn)%Z) (Some b) h) in *.
        assert (fld Node.col h1 b = Some (Node.col bn)) as Hcb
          by (rewrite Hcol1; unfold fld; by rewrite Hbn).
        apply fld_Some in Hcb as (bn1 & Hbn1 & Hcb).
        exists res, h1, R', C', (l1 ++ [ma]), b, l2. split; [|split; [|split; [done|]]].
        -- rewrite while_unfold. unfold place_cond at 1, bind at 1.
           unfold bind at 1, load. rewrite Hmn. unfold ret at 1.
           rewrite (proj2 (Nat.ltb_lt _ _)) by lia.
           unfold place_body at 1. do 2 unfold bind at 1. rewrite (deref_node h ma mn Hmn).
           rewrite Hr. simpl head. unfold bind at 1. unfold bind at 1, load. rewrite Hbn.
           unfold ret at 1. rewrite (proj2 (Nat.ltb_ge _ _)) by lia.
           do 2 unfold bind at 1. rewrite (deref_node h b bn Hbn).
           rewrite (proj2 (Nat.eqb_eq _ _) Heq).
           rewrite (proj2 (Z.eqb_neq _ _) Hsum).
           unfold bind at 1. rewrite Hset. unfold ret at 1. unfold ret at 1.
           apply (place_stop i qn res b bn1 _ h1 fuel Hbn1). lia.
        -- apply (copying_ext _ _ _ _ _ _ _ _ _ Hcp1). intros j.
           case_decide; [|done]. by rewrite Hkb, Heq.
        -- unfold key_at, fld. rewrite Hbn1. simpl. lia.
      * destruct (IH (l1 ++ [ma]) b h res R' C' E (S fuel) Hcp Hi HR')
          as (res' & h' & R'' & C'' & l1' & ma' & l2' & Hrun & Hcp' & HR'' & Hk');
          [lia|done|done|simpl in Hfuel; lia|].
        exists res', h', R'', C'', l1', ma', l2'. split; [|done].
        rewrite while_unfold. unfold place_cond at 1, bind at 1.
        unfold bind at 1, load. rewrite Hmn. unfold ret at 1.
        rewrite (proj2 (Nat.ltb_lt _ _)) by lia.
        unfold place_body at 1. do 2 unfold bind at 1. rewrite (deref_node h ma mn Hmn).
        rewrite Hr. simpl head. unfold bind at 1. unfold bind at 1, load. rewrite Hbn.
        unfold ret at 1. rewrite (proj2 (Nat.ltb_ge _ _)) by lia.
        do 2 unfold bind at 1. rewrite (deref_node h b bn Hbn).
        rewrite (proj2 (Nat.eqb_neq _ _) Hne).
        unfold ret at 1. unfold ret at 1. exact Hrun.
Qed.
Lemma row_head h res R' C' E i l :
  copying h0 n bound h res R' C' E -> R' !! i = Some l ->
  _prow res !! i = Some (head l).
Proof.
  intros Hcp HR. pose proof (cp_wf _ _ _ _ _ _ _ _ Hcp) as Hwf.
  destruct (ok_lseg _ _ _ _ _ _ _ _ (wf_rows _ _ _ _ Hwf i _ HR)) as (o & Ho & Hseg).
  by rewrite Ho, (lseg_nil_head _ _ _ _ Hseg).
Qed.

Lemma row_length h res R' C' E i l :
  copying h0 n bound h res R' C' E -> R' !! i = Some l -> length l <= length h.
Proof.
  intros Hcp HR. pose proof (cp_wf _ _ _ _ _ _ _ _ Hcp) as Hwf.
  exact (chain_ok_length (wf_rows _ _ _ _ Hwf i _ HR)).
Qed.

(** [merge_entry]: the entry of the node [a] of the right operand is added
    to row [i] of the result, and the cursor moves to its node. *)
Lemma merge_entry_spec h res R' C' E i l m a qn :
  copying h0 n bound h res R' C' E -> i < n ->
  R' !! i = Some l ->
  cursor h l m (Node.col qn) ->
  h !! a = Some qn ->
  Node.col qn < bound ->
  no_cancel (E i) (Node.col qn) (Node.el qn) ->
  exists res' h' R'' C'' l1 ma l2,
    merge_entry res i m (Some a) h = Return (res', Some ma) h' /\
    copying h0 n bound h' res' R'' C''
      (fun j => if decide (j = i) then insert_entry (E i) (Node.col qn) (Node.el qn)
                else E j) /\
    R'' !! i = Some (l1 ++ ma :: l2) /\ key_at Node.col h' ma = Node.col qn.
Proof.
  intros Hcp Hi HR Hcur Hqn Hc Hnc. destruct m as [ma0|].
  - assert (exists l1 l2, l = l1 ++ ma0 :: l2 /\
                          (l1 = [] \/ key_at Node.col h ma0 < Node.col qn)) as Hsplit.
    { destruct Hcur as [Hhd|(l1 & ma & l2 & -> & [= <-] & Hlt)].
      - destruct l as [|x l]; [done|]. injection Hhd as <-. exists [], l. by split; [|left].
      - exists l1, l2. by split; [|right]. }
    destruct Hsplit as (l1 & l2 & -> & Hl1).
    destruct (row_node h res R' C' E i _ ma0 Hcp HR) as (mn & Hmn & Hkm & HmE).
    { apply elem_of_app. right. left. }
    destruct (sorted_split _ _ _ _ (row_sorted _ _ _ _ _ _ _ Hcp HR)) as [Hs1 Hs2].
    destruct (Nat.ltb_spec (Node.col qn) (Node.col mn)) as [Habove|Hbelow].
    + destruct Hl1 as [->|Hlt]; [|lia].
      destruct (insert_step h0 n bound h res R' C' E i (Node.col qn) (Node.el qn) []
                  (ma0 :: l2) Hcp Hi Hc HR)
        as (res1 & h1 & C'' & Hrun & Hcp1 & Hlen1 & Hhead & _ & Hcol & Hold); [constructor| |].
      { constructor; [lia|]. apply (Forall_impl _ _ _ Hs2). intros x Hx. lia. }
      exists res1, h1, (<[i:=[] ++ length h :: ma0 :: l2]> R'), C'', [], (length h), (ma0 :: l2).
      split; [|split; [done|split]].
      * unfold merge_entry. unfold bind at 1. rewrite (deref_node h a qn Hqn).
        unfold bind at 1. rewrite (deref_node h ma0 mn Hmn).
        rewrite (proj2 (Nat.ltb_lt _ _) Habove).
        unfold bind at 1. change (last []) with (@None addr) in Hrun. rewrite Hrun.
        unfold bind at 1. by rewrite (index_run _ _ _ _ Hhead).
      * apply list_lookup_insert_eq. by eapply lookup_lt_Some.
      * by apply key_at_fld.
    + destruct (Nat.eqb_spec (Node.col mn) (Node.col qn)) as [Heq|Hne].
      * destruct Hl1 as [->|Hlt]; [|lia].
        destruct (update_step h0 n bound h res R' C' E i [] ma0 l2 (Node.el qn) Hcp HR)
          as (x & Hx & Hset & Hcp1 & Hcol1 & _).
        assert (x = Node.el mn) as -> by (unfold fld in Hx; rewrite Hmn in Hx; by injection Hx).
        assert ((Node.el mn + Node.el qn)%Z <> 0%Z) as Hsum.
        { apply Hnc. by rewrite <-Heq. }
        set (h1 := upd (fun y => Node.with_el y (Node.el mn + Node.el qn)%Z) (Some ma0) h) in *.
        exists res, h1, R', C', [], ma0, l2. split; [|split; [|split; [done|]]].
        -- unfold merge_entry. unfold bind at 1. rewrite (deref_node h a qn Hqn).
           unfold bind at 1. rewrite (deref_node h ma0 mn Hmn).
           rewrite (proj2 (Nat.ltb_ge _ _) Hbelow), (proj2 (Nat.eqb_eq _ _) Heq).
           rewrite (proj2 (Z.eqb_neq _ _) Hsum).
           unfold bind at 1. by rewrite Hset.
        -- apply (copying_ext _ _ _ _ _ _ _ _ _ Hcp1). intros j.
           case_decide; [|done]. by rewrite Hkm, Heq.
        -- unfold key_at. rewrite Hcol1. fold (key_at Node.col h ma0). lia.
      * destruct (place_spec i qn l2 l1 ma0 h res R' C' E (S (S (length h))) Hcp Hi HR)
          as (res' & h' & R'' & C'' & l1' & ma' & l2' & Hrun & Hcp' & HR' & Hk');
          [lia|done|done| |].
        { pose proof (row_length _ _ _ _ _ _ _ Hcp HR) as Hlen.
          rewrite length_app in Hlen. simpl in Hlen. lia. }
        exists res', h', R'', C'', l1', ma', l2'. split; [|done].
        rewrite (merge_entry_place res i ma0 qn mn h Hmn); [| |by apply Nat.eqb_neq|done].
        2:{ by apply Nat.ltb_ge. }
        unfold bind at 1, chain_fuel at 1. unfold bind at 1. by rewrite Hrun.
  - assert (l = []) as ->.
    { destruct Hcur as [Hhd|(l1 & ma & l2 & _ & [=] & _)]. by destruct l. }
    destruct (insert_step h0 n bound h res R' C' E i (Node.col qn) (Node.el qn) [] []
                Hcp Hi Hc HR)
      as (res1 & h1 & C'' & Hrun & Hcp1 & Hlen1 & Hhead & _ & Hcol & Hold);
      [constructor|constructor|].
    exists res1, h1, (<[i:=[] ++ [length h]]> R'), C'', [], (length h), [].
    split; [|split; [done|split]].
    + unfold merge_entry. unfold bind at 1. rewrite (deref_node h a qn Hqn).
      unfold bind at 1. change (last []) with (@None addr) in Hrun. rewrite Hrun.
      unfold bind at 1. by rewrite (index_run _ _ _ _ Hhead).
    + apply list_lookup_insert_eq. by eapply lookup_lt_Some.
    + by apply key_at_fld.
Qed.
Lemma insert_entry_other E c v k x :
  (k, x) ∈ insert_entry E c v -> k <> c -> (k, x) ∈ E.
Proof.
  induction E as [|[k' x'] E IH]; simpl; intros Hin Hne.
  - apply list_elem_of_singleton in Hin. congruence.
  - destruct (c <? k').
    + apply elem_of_cons in Hin as [Hin|Hin]; [congruence|done].
    + destruct (Nat.eqb_spec c k') as [->|Hck].
      * apply elem_of_cons in Hin as [Hin|Hin]; [congruence|by right].
      * apply elem_of_cons in Hin as [Hin|Hin]; [rewrite Hin; left|right; by apply IH].
Qed.

(** A node of a chain of the right operand, and the rest of the chain. *)
Lemma rest_of_step a k2 :
  rest_of Node.right Node.col h0 bound [] (Some a) (a :: k2) ->
  exists qn, h0 !! a = Some qn /\ Node.col qn < bound /\
    pairs Node.col h0 (a :: k2) = (Node.col qn, Node.el qn) :: pairs Node.col h0 k2 /\
    rest_of Node.right Node.col h0 bound [] (Node.right qn) k2 /\
    Forall (fun b => Node.col qn < key_at Node.col h0 b) k2.
Proof.
  intros ((_ & o' & Ho' & Hseg) & Hb & Hs & _).
  apply fld_Some in Ho' as (qn & Hqn & <-).
  apply Forall_cons_1 in Hb as [Hba Hb].
  simpl in Hs. apply StronglySorted_cons in Hs as [Hall Hs].
  assert (key_at Node.col h0 a = Node.col qn) as Hk by (unfold key_at, fld; by rewrite Hqn).
  rewrite Hk in Hba, Hall. rewrite Forall_fmap in Hall.
  exists qn. split; [done|]. split; [done|]. split; [|split; [|done]].
  - unfold pairs. simpl. rewrite Hk. unfold fld. by rewrite Hqn.
  - split; [done|]. split; [done|]. split; [done|].
    rewrite Forall_forall. intros b _. constructor.
Qed.

(** The loop that merges a chain of the right operand into row [i]. *)
Lemma merge_chain_spec i k2 : forall h res R' C' E l m q fuel,
  copying h0 n bound h res R' C' E -> i < n -> R' !! i = Some l ->
  (forall a, head k2 = Some a -> cursor h l m (key_at Node.col h0 a)) ->
  rest_of Node.right Node.col h0 bound [] q k2 ->
  Forall (fun a => no_cancel (E i) (key_at Node.col h0 a)
                     (default 0%Z (fld Node.el h0 a))) k2 ->
  length k2 < fuel ->
  exists res' m' h' R'' C'',
    while fuel (merge_cond bound) (merge_body i) (res, m, q) h
    = Return (res', m', None) h' /\
    copying h0 n bound h' res' R'' C''
      (fun j => if decide (j = i) then merge_entries (E i) (pairs Node.col h0 k2)
                else E j).
Proof.
  induction k2 as [|a k2 IH]; intros h res R' C' E l m q fuel Hcp Hi HR Hcur Hrest Hnc Hfuel.
  - rewrite (rest_of_nil _ _ _ _ _ _ Hrest). destruct fuel; [simpl in Hfuel; lia|].
    exists res, m, h, R', C'. split; [by rewrite while_unfold|].
    apply (copying_ext _ _ _ _ _ _ _ _ _ Hcp). intros j. by case_decide; [subst j|].
  - pose proof (rest_of_cons _ _ _ _ _ _ _ _ Hrest) as ->.
    destruct fuel as [|fuel]; [simpl in Hfuel; lia|].
    destruct (rest_of_step a k2 Hrest) as (qn & Hqn0 & Hb & Hpairs & Hrest' & Hlt).
    pose proof (lookup_lt_Some _ _ _ Hqn0) as Ha.
    assert (key_at Node.col h0 a = Node.col qn) as Hk by (unfold key_at, fld; by rewrite Hqn0).
    assert (default 0%Z (fld Node.el h0 a) = Node.el qn) as He by (unfold fld; by rewrite Hqn0).
    assert (h !! a = Some qn) as Hqn by (by rewrite (cp_old _ _ _ _ _ _ _ _ Hcp a Ha)).
    apply Forall_cons_1 in Hnc as [Hnca Hnc]. rewrite Hk, He in Hnca.
    specialize (Hcur a eq_refl). rewrite Hk in Hcur.
    destruct (merge_entry_spec h res R' C' E i l m a qn Hcp Hi HR Hcur Hqn Hb Hnca)
      as (res1 & h1 & R1 & C1 & l1 & ma & l2 & Hrun1 & Hcp1 & HR1 & Hk1).
    assert (h1 !! a = Some qn) as Hqn1 by (by rewrite (cp_old _ _ _ _ _ _ _ _ Hcp1 a Ha)).
    destruct (IH h1 res1 R1 C1 _ (l1 ++ ma :: l2) (Some ma) (Node.right qn) fuel Hcp1 Hi HR1)
      as (res2 & m2 & h2 & R2 & C2 & Hrun2 & Hcp2).
    { intros b Hb'. right. exists l1, ma, l2. split; [done|]. split; [done|].
      rewrite Hk1. rewrite Forall_forall in Hlt. apply Hlt.
      destruct k2; [done|]. injection Hb' as ->. left. }
    { done. }
    { rewrite decide_True by done.
      rewrite Forall_forall in Hnc, Hlt |- *. intros b Hb' x Hx.
      apply (Hnc b Hb'). apply (insert_entry_other _ _ _ _ _ Hx).
      specialize (Hlt b Hb'). lia. }
    { simpl in Hfuel. lia. }
    exists res2, m2, h2, R2, C2. split.
    + rewrite while_unfold. unfold merge_cond at 1, bind at 1.
      unfold bind at 1, load. rewrite Hqn. unfold ret at 1.
      rewrite (proj2 (Nat.eqb_neq _ _)) by lia. change (negb false) with true. cbv iota.
      unfold merge_body at 1. do 2 unfold bind at 1. rewrite Hrun1.
      unfold bind at 1. rewrite (deref_node h1 a qn Hqn1).
      unfold ret at 1. exact Hrun2.
    + apply (copying_ext _ _ _ _ _ _ _ _ _ Hcp2). intros j.
      destruct (decide (j = i)) as [->|]; [|done].
      rewrite decide_True by done. by rewrite Hpairs.
Qed.
Variables (self rhs : Matrix) (L2 : list (list addr)) (EA : nat -> list (nat * Z)).
Hypothesis Hn : nrows self = n.
Hypothesis Hbound : ncols self = bound.
Hypothesis Hok2 : forall j l, L2 !! j = Some l ->
  chain_ok Node.right Node.col Node.row bound h0 (_prow rhs) j l.
Hypothesis HL2 : length L2 = n.
Hypothesis Hheads2 : length (_prow rhs) = n.
Hypothesis Hnc : forall j l, L2 !! j = Some l ->
  Forall (fun a => no_cancel (EA j) (key_at Node.col h0 a)
                     (default 0%Z (fld Node.el h0 a))) l.

Lemma merged_upto_self i : merged_upto EA h0 L2 i i = EA i.
Proof. unfold merged_upto. by rewrite decide_False by lia. Qed.

(** The merge of one chain of the right operand, from the head of row [i]. *)
Lemma merge_row_spec i h res R' C' p m :
  copying h0 n bound h res R' C' (merged_upto EA h0 L2 i) ->
  i < n -> _prow rhs !! i = Some p -> _prow res !! i = Some m ->
  exists res' m' h' R'' C'',
    while (S (length h)) (merge_cond bound) (merge_body i) (res, m, p) h
    = Return (res', m', None) h' /\
    copying h0 n bound h' res' R'' C'' (merged_upto EA h0 L2 (i + 1)).
Proof.
  intros Hcp Hi Hp Hm.
  pose proof (cp_wf _ _ _ _ _ _ _ _ Hcp) as Hwf.
  destruct (lookup_lt_is_Some_2 L2 i) as [l2 Hl2]; [lia|].
  destruct (lookup_lt_is_Some_2 R' i) as [l HR].
  { rewrite (wf_R _ _ _ _ Hwf), (cp_nrows _ _ _ _ _ _ _ _ Hcp). lia. }
  pose proof (rest_of_chain _ _ _ _ _ _ _ Hok2 i l2 p Hl2 Hp) as Hrest.
  rewrite (row_head _ _ _ _ _ _ _ Hcp HR) in Hm. injection Hm as <-.
  destruct (merge_chain_spec i l2 h res R' C' _ l (head l) p (S (length h)) Hcp Hi HR)
    as (res' & m' & h' & R'' & C'' & Hrun & Hcp'); [by left|done| | |].
  { rewrite merged_upto_self. by apply Hnc. }
  { pose proof (rest_of_length _ _ _ _ _ _ _ Hrest).
    pose proof (cp_len _ _ _ _ _ _ _ _ Hcp). lia. }
  exists res', m', h', R'', C''. split; [done|].
  apply (copying_ext _ _ _ _ _ _ _ _ _ Hcp'). intros j. unfold merged_upto.
  destruct (decide (j = i)) as [->|Hne].
  - rewrite decide_False by lia. rewrite decide_True by lia. by rewrite Hl2.
  - destruct (decide (j < i)); [by rewrite decide_True by lia|by rewrite decide_False by lia].
Qed.

(** The loop over the chains of the right operand before the last one. *)
Lemma merge_rows_spec : forall fuel i h res R' C' p m,
  copying h0 n bound h res R' C' (merged_upto EA h0 L2 i) ->
  i < n -> _prow rhs !! i = Some p -> _prow res !! i = Some m ->
  (i + 1 <> n -> p <> None) ->
  n - i <= fuel ->
  exists res' h' R'' C'' p' m',
    while fuel (outer_cond n) (merge_rows_body self rhs) (res, i, p, m) h
    = Return (res', n - 1, p', m') h' /\
    _prow rhs !! (n - 1) = Some p' /\ _prow res' !! (n - 1) = Some m' /\
    copying h0 n bound h' res' R'' C'' (merged_upto EA h0 L2 (n - 1)).
Proof.
  induction fuel as [|fuel IH]; intros i h res R' C' p m Hcp Hi Hp Hm Hsome Hfuel; [lia|].
  destruct (decide (i + 1 = n)) as [Hlast|Hne].
  - exists res, h, R', C', p, m. replace (n - 1) with i by lia.
    split; [|done]. rewrite while_unfold. unfold outer_cond at 1, bind at 1, ret at 1.
    by rewrite neq_pred_false.
  - destruct (merge_row_spec i h res R' C' p m Hcp Hi Hp Hm)
      as (res2 & m2 & h2 & R2 & C2 & Hrun2 & Hcp2).
    pose proof (cp_wf _ _ _ _ _ _ _ _ Hcp2) as Hwf2.
    destruct (skip_spec (_prow rhs) L2 n HL2 Hheads2 h2 (scan_fuel (_prow rhs)) (i + 1))
      as (i' & Hi' & Hskip & Hnone & Hstop); [lia|unfold scan_fuel; lia|].
    destruct (lookup_lt_is_Some_2 (_prow rhs) i') as [p' Hp']; [lia|].
    destruct (lookup_lt_is_Some_2 (_prow res2) i') as [m' Hm'].
    { rewrite (wf_prow _ _ _ _ Hwf2), (cp_nrows _ _ _ _ _ _ _ _ Hcp2). lia. }
    assert (copying h0 n bound h2 res2 R2 C2 (merged_upto EA h0 L2 i')) as Hcp3.
    { apply (copying_ext _ _ _ _ _ _ _ _ _ Hcp2). intros j. unfold merged_upto.
      destruct (decide (j < i + 1)); [by rewrite decide_True by lia|].
      destruct (decide (j < i')); [|done].
      rewrite (empty_chain _ _ _ _ _ _ _ Hok2 j); [done|]. apply Hnone. lia. }
    destruct (IH i' h2 res2 R2 C2 p' m' Hcp3)
      as (res' & h' & R'' & C'' & p'' & m'' & Hrun & Hp'' & Hm'' & Hcp');
      [lia|done|done| |lia|].
    { intros Hn' ->. by apply Hstop. }
    exists res', h', R'', C'', p'', m''. split; [|done].
    rewrite while_unfold. unfold outer_cond at 1, bind at 1, ret at 1.
    rewrite neq_pred_true by done.
    unfold merge_rows_body at 1. rewrite Hbound, Hn.
    unfold bind at 1. unfold bind at 1, chain_fuel at 1. unfold bind at 1.
    rewrite Hrun2.
    unfold bind at 1. rewrite Hskip.
    unfold bind at 1. rewrite (index_run _ _ _ _ Hp').
    unfold bind at 1. rewrite (index_run _ _ _ _ Hm').
    unfold ret at 1. exact Hrun.
Qed.

(** The second half of [__add__]. *)
Lemma merge_spec h res R' C' :
  copying h0 n bound h res R' C' EA ->
  (exists j a, _prow rhs !! j = Some (Some a)) ->
  exists res' h' R'' C'',
    merge self rhs res h = Return res' h' /\
    copying h0 n bound h' res' R'' C''
      (fun j => merge_entries (EA j) (pairs Node.col h0 (default [] (L2 !! j)))).
Proof.
  intros Hcp Hsome. destruct (first_head (_prow rhs) Hsome) as (i0 & a0 & H0 & Hlt).
  pose proof (lookup_lt_Some _ _ _ H0) as Hi0. rewrite Hheads2 in Hi0.
  pose proof (cp_wf _ _ _ _ _ _ _ _ Hcp) as Hwf.
  destruct (lookup_lt_is_Some_2 (_prow rhs) 0) as [o0 Ho0]; [lia|].
  destruct (lookup_lt_is_Some_2 (_prow res) i0) as [m0 Hm0].
  { rewrite (wf_prow _ _ _ _ Hwf), (cp_nrows _ _ _ _ _ _ _ _ Hcp). lia. }
  assert (copying h0 n bound h res R' C' (merged_upto EA h0 L2 i0)) as Hcp0.
  { apply (copying_ext _ _ _ _ _ _ _ _ _ Hcp). intros j. unfold merged_upto.
    case_decide as Hj; [|done].
    by rewrite (empty_chain _ _ _ _ _ _ _ Hok2 j (Hlt j Hj)). }
  destruct (merge_rows_spec (scan_fuel (_prow rhs)) i0 h res R' C' (Some a0) m0 Hcp0 Hi0 H0 Hm0)
    as (res1 & h1 & R1 & C1 & p1 & m1 & Hrun1 & Hp1 & Hm1 & Hcp1);
    [done|unfold scan_fuel; lia|].
  destruct (merge_row_spec (n - 1) h1 res1 R1 C1 p1 m1 Hcp1 ltac:(lia) Hp1 Hm1)
    as (res2 & m2 & h2 & R2 & C2 & Hrun2 & Hcp2).
  exists res2, h2, R2, C2. split.
  - unfold merge. rewrite Hn, Hbound.
    unfold bind at 1. rewrite (index_run _ _ _ _ Ho0).
    unfold bind at 1.
    rewrite (scan_spec (_prow rhs) i0 a0 h i0 0 o0 (scan_fuel (_prow rhs))); try done;
      [|unfold scan_fuel; lia].
    unfold bind at 1. rewrite (index_run _ _ _ _ Hm0).
    unfold bind at 1. rewrite Hrun1.
    unfold bind at 1, chain_fuel at 1. unfold bind at 1. by rewrite Hrun2.
  - apply (copying_ext _ _ _ _ _ _ _ _ _ Hcp2). intros j. unfold merged_upto.
    case_decide as Hj; [done|].
    by rewrite (proj2 (lookup_ge_None L2 j)) by lia.
Qed.
End MergeLoops.

Lemma insert_entry_keys E c v k :
  k ∈ (insert_entry E c v).*1 -> k = c \/ k ∈ E.*1.
Proof.
  induction E as [|[k' x] E IH]; simpl.
  - intros ->%list_elem_of_singleton. by left.
  - destruct (c <? k'); simpl.
    + intros [->|Hk]%elem_of_cons; [by left|by right].
    + destruct (c =? k'); simpl.
      * intros Hk. by right.
      * intros [->|Hk]%elem_of_cons; [right; left|].
        destruct (IH Hk) as [->|Hk']; [by left|right; by right].
Qed.

Lemma insert_entry_sorted E c v :
  StronglySorted lt E.*1 -> StronglySorted lt (insert_entry E c v).*1.
Proof.
  induction E as [|[k x] E IH]; simpl; intros Hs.
  - repeat constructor.
  - pose proof Hs as [Hall Hs']%StronglySorted_cons.
    destruct (Nat.ltb_spec c k) as [Hlt|Hge]; simpl.
    + constructor; [done|]. constructor; [lia|].
      apply (Forall_impl _ _ _ Hall). intros y Hy. lia.
    + destruct (Nat.eqb_spec c k) as [->|Hne]; simpl; [done|].
      constructor; [by apply IH|].
      rewrite Forall_forall in Hall |- *. intros y Hy.
      destruct (insert_entry_keys _ _ _ _ Hy) as [->|Hy']; [lia|by apply Hall].
Qed.

Lemma merge_entries_lookup F : forall E c,
  StronglySorted lt E.*1 -> StronglySorted lt F.*1 ->
  entries_lookup (merge_entries E F) c = (entries_lookup E c + entries_lookup F c)%Z.
Proof.
  induction F as [|[k v] F IH]; intros E c HE HF; simpl.
  - unfold merge_entries. simpl. lia.
  - apply StronglySorted_cons in HF as [Hall HF].
    change (merge_entries E ((k, v) :: F)) with (merge_entries (insert_entry E k v) F).
    rewrite IH by (done || by apply insert_entry_sorted).
    rewrite insert_entry_lookup by done.
    destruct (Nat.eqb_spec k c) as [->|Hne].
    + rewrite decide_True by done. rewrite (pairs_absent_lookup F c); [lia|].
      change (Forall (lt c) (fst <$> F)) in Hall. rewrite Forall_fmap in Hall.
      apply (Forall_impl _ _ _ Hall). intros p Hp. simpl in Hp. lia.
    + rewrite decide_False by done. lia.
Qed.

Lemma pairs_keys key h l : (pairs key h l).*1 = key_at key h <$> l.
Proof. unfold pairs. rewrite <-list_fmap_compose. by apply list_fmap_ext. Qed.

(** A well-formed matrix stays well formed when nodes are added to the store. *)
Lemma wf_extend self h R C hn : wf self h R C -> wf self (h ++ hn) R C.
Proof.
  intros Hwf.
  assert (forall X (f : Node.t -> X) b, b < length h -> fld f (h ++ hn) b = fld f h b) as Hold.
  { intros X f b Hb. unfold fld. by rewrite lookup_app_l. }
  split; try apply Hwf.
  - intros r l Hl. pose proof (wf_rows _ _ _ _ Hwf r l Hl) as Hok.
    apply (chain_ok_frame _ _ _ _ _ _ _ _ _ _ Hok); [done|..];
      intros b Hb; apply Hold; exact (chain_ok_in_heap _ _ _ _ _ _ _ _ _ Hok Hb).
  - intros c l Hl. pose proof (wf_cols _ _ _ _ Hwf c l Hl) as Hok.
    apply (chain_ok_frame _ _ _ _ _ _ _ _ _ _ Hok); [done|..];
      intros b Hb; apply Hold; exact (chain_ok_in_heap _ _ _ _ _ _ _ _ _ Hok Hb).
Qed.

(** No entry of the right operand cancels an entry of the left one. *)
Lemma add_no_cancel self rhs h R1 C1 R2 C2 :
  wf self h R1 C1 -> wf rhs h R2 C2 ->
  (forall a b, in_chains R1 a -> in_chains R2 b ->
     fld Node.row h a = fld Node.row h b -> fld Node.col h a = fld Node.col h b ->
     (default 0 (fld Node.el h a) + default 0 (fld Node.el h b))%Z <> 0%Z) ->
  forall j l2, R2 !! j = Some l2 ->
    Forall (fun b => no_cancel (pairs Node.col h (default [] (R1 !! j)))
                       (key_at Node.col h b) (default 0%Z (fld Node.el h b))) l2.
Proof.
  intros Hwf1 Hwf2 Hsum j l2 Hl2. rewrite Forall_forall. intros b Hb x Hx.
  destruct (R1 !! j) as [l1|] eqn:Hl1; [|by apply elem_of_nil in Hx]. simpl in Hx.
  apply list_elem_of_fmap in Hx as (a & [= Hk ->] & Ha).
  pose proof (wf_rows _ _ _ _ Hwf1 j l1 Hl1) as Hoka.
  pose proof (wf_rows _ _ _ _ Hwf2 j l2 Hl2) as Hokb.
  apply Hsum.
  - by exists j, l1.
  - by exists j, l2.
  - by rewrite (chain_ok_fixed Hoka a Ha), (chain_ok_fixed Hokb b Hb).
  - destruct (fld_is_Some Node.row Node.col h a _ (chain_ok_fixed Hoka a Ha)) as [ca Hca].
    destruct (fld_is_Some Node.row Node.col h b _ (chain_ok_fixed Hokb b Hb)) as [cb Hcb].
    rewrite (key_at_fld _ _ _ _ Hca), (key_at_fld _ _ _ _ Hcb) in Hk. congruence.
Qed.

Lemma add_copying self rhs h R1 C1 R2 C2 :
  wf self h R1 C1 -> wf rhs h R2 C2 ->
  nrows self = nrows rhs -> ncols self = ncols rhs ->
  (exists a, in_chains R1 a) -> (exists a, in_chains R2 a) ->
  (forall a b, in_chains R1 a -> in_chains R2 b ->
     fld Node.row h a = fld Node.row h b -> fld Node.col h a = fld Node.col h b ->
     (default 0 (fld Node.el h a) + default 0 (fld Node.el h b))%Z <> 0%Z) ->
  exists res h' R' C',
    __add__ self rhs h = Return res h' /\
    copying h (nrows self) (ncols self) h' res R' C'
      (fun j => merge_entries (pairs Node.col h (default [] (R1 !! j)))
                  (pairs Node.col h (default [] (R2 !! j)))).
Proof.
  intros Hwf1 Hwf2 Hnr Hnc [a1 Ha1] [a2 Ha2] Hsum.
  rewrite add_copy, Hnr, Hnc, !Nat.eqb_refl. simpl. rewrite <-Hnr, <-Hnc.
  destruct (copy_spec Node.right Node.col Node.row h (_prow self) R1 (ncols self)
              (nrows self) (fun result i => index (_prow result) i)
              (wf_rows _ _ _ _ Hwf1) (wf_R _ _ _ _ Hwf1) (wf_prow _ _ _ _ Hwf1)
              ltac:(intros res i h1 [x Hx]%lookup_lt_is_Some_2; exists x;
                    by apply index_run)
              (merge self rhs))
    as (res1 & h1 & R' & C' & Hrun1 & Hcp1).
  { exact (in_chains_head _ _ _ _ _ _ _ a1 (wf_rows _ _ _ _ Hwf1) Ha1). }
  assert (forall j l, R2 !! j = Some l ->
            chain_ok Node.right Node.col Node.row (ncols self) h (_prow rhs) j l) as Hok2.
  { intros j l Hl. rewrite Hnc. exact (wf_rows _ _ _ _ Hwf2 j l Hl). }
  destruct (merge_spec h (nrows self) (ncols self) self rhs R2
              (fun j => pairs Node.col h (default [] (R1 !! j)))
              eq_refl eq_refl Hok2) with (h := h1) (res := res1) (R' := R') (C' := C')
    as (res2 & h2 & R'' & C'' & Hrun2 & Hcp2).
  { by rewrite (wf_R _ _ _ _ Hwf2). }
  { by rewrite (wf_prow _ _ _ _ Hwf2). }
  { exact (add_no_cancel self rhs h R1 C1 R2 C2 Hwf1 Hwf2 Hsum). }
  { done. }
  { exact (in_chains_head _ _ _ _ _ _ _ a2 (wf_rows _ _ _ _ Hwf2) Ha2). }
  exists res2, h2, R'', C''. split; [by rewrite Hrun1|done].
Qed.

Lemma add_spec self rhs h R1 C1 R2 C2 :
  wf self h R1 C1 -> wf rhs h R2 C2 ->
  nrows self = nrows rhs -> ncols self = ncols rhs ->
  (exists a, in_chains R1 a) -> (exists a, in_chains R2 a) ->
  (forall a b, in_chains R1 a -> in_chains R2 b ->
     fld Node.row h a = fld Node.row h b -> fld Node.col h a = fld Node.col h b ->
     (default 0 (fld Node.el h a) + default 0 (fld Node.el h b))%Z <> 0%Z) ->
  exists res h' R' C',
    __add__ self rhs h = Return res h' /\
    wf res h' R' C' /\ nrows res = nrows self /\ ncols res = ncols self /\
    take (length h) h' = h /\
    forall r c, r < nrows self ->
      entry_at res h' r c = (entry_at self h r c + entry_at rhs h r c)%Z.
Proof.
  intros Hwf1 Hwf2 Hnr Hnc Hn1 Hn2 Hsum.
  destruct (add_copying self rhs h R1 C1 R2 C2 Hwf1 Hwf2 Hnr Hnc Hn1 Hn2 Hsum)
    as (res2 & h2 & R'' & C'' & Hrun & Hcp2).
  pose proof (cp_wf _ _ _ _ _ _ _ _ Hcp2) as Hwf'.
  exists res2, h2, R'', C''. split; [done|]. split; [done|].
  split; [exact (cp_nrows _ _ _ _ _ _ _ _ Hcp2)|].
  split; [exact (cp_ncols _ _ _ _ _ _ _ _ Hcp2)|]. split.
  - apply take_old; [exact (cp_len _ _ _ _ _ _ _ _ Hcp2)|exact (cp_old _ _ _ _ _ _ _ _ Hcp2)].
  - intros r c Hr.
    destruct (entry_at_lookup res2 h2 R'' C'' r c Hwf') as (l' & Hl' & ->).
    { rewrite (cp_nrows _ _ _ _ _ _ _ _ Hcp2). lia. }
    destruct (entry_at_lookup self h R1 C1 r c Hwf1 Hr) as (l1 & Hl1 & ->).
    destruct (entry_at_lookup rhs h R2 C2 r c Hwf2) as (l2 & Hl2 & ->); [lia|].
    rewrite lookup_row_entries, (cp_rows _ _ _ _ _ _ _ _ Hcp2 r l' Hl'), Hl1, Hl2. simpl.
    rewrite merge_entries_lookup.
    + by rewrite !lookup_row_entries.
    + rewrite pairs_keys. exact (ok_sorted _ _ _ _ _ _ _ _ (wf_rows _ _ _ _ Hwf1 r l1 Hl1)).
    + rewrite pairs_keys. exact (ok_sorted _ _ _ _ _ _ _ _ (wf_rows _ _ _ _ Hwf2 r l2 Hl2)).
Qed.

(** *** The second sample matrix *)

Lemma sample_b_built :
  set_all (__init__ 2 3) [(0, 1, 1%Z); (1, 1, 7%Z)] sample_heap
  = Return sample_b pair_heap.
Proof. reflexivity. Qed.

Lemma wf_sample_pair : wf sample pair_heap [[0]; [1; 2]] [[1]; [0]; [2]].
Proof. apply wf_extend, wf_sample. Qed.

Lemma wf_sample_b : wf sample_b pair_heap [[3]; [4]] [[]; [3; 4]; []].
Proof.
  split; try done.
  - intros [|[|r]] l Hl; [| |done]; injection Hl as <-; split.
    + exists (Some 3). split; [done|]. simpl. split; [done|]. by exists None.
    + by repeat constructor.
    + by repeat constructor.
    + exists (Some 4). split; [done|]. simpl. split; [done|]. by exists None.
    + by repeat constructor.
    + by repeat constructor.
  - intros [|[|[|c]]] l Hl; [| | |done]; injection Hl as <-; split.
    + by exists None.
    + constructor.
    + constructor.
    + exists (Some 3). split; [done|]. simpl. split; [done|]. exists (Some 4).
      split; [done|]. split; [done|]. by exists None.
    + repeat constructor; simpl; lia.
    + repeat constructor; simpl; lia.
    + by exists None.
    + constructor.
    + constructor.
  - intros a. split.
    + intros (i & l & Hl & Ha). destruct i as [|[|i]]; [| |done]; injection Hl as <-;
        apply list_elem_of_singleton in Ha as ->.
      * exists 1, [3; 4]. split; [done|left].
      * exists 1, [3; 4]. split; [done|]. right; left.
    + intros (i & l & Hl & Ha). destruct i as [|[|[|i]]]; [| | |done]; injection Hl as <-.
      * by apply elem_of_nil in Ha.
      * apply elem_of_cons in Ha as [->|Ha].
        -- exists 0, [3]. split; [done|left].
        -- apply list_elem_of_singleton in Ha as ->. exists 1, [4]. split; [done|left].
      * by apply elem_of_nil in Ha.
Qed.

Lemma sample_b_has_node : exists a, in_chains [[3]; [4]] a.
Proof. exists 3, 0, [3]. split; [done|left]. Qed.

Lemma sample_pair_no_cancel a b :
  in_chains [[0]; [1; 2]] a -> in_chains [[3]; [4]] b ->
  fld Node.row pair_heap a = fld Node.row pair_heap b ->
  fld Node.col pair_heap a = fld Node.col pair_heap b ->
  (default 0 (fld Node.el pair_heap a) + default 0 (fld Node.el pair_heap b))%Z <> 0%Z.
Proof.
  intros (i & l & Hl & Ha) (j & k & Hk & Hb).
  destruct i as [|[|i]]; [| |done]; injection Hl as <-;
    destruct j as [|[|j]]; try done; injection Hk as <-;
    apply list_elem_of_singleton in Hb as ->;
    repeat (apply elem_of_cons in Ha as [->|Ha]); try (by apply elem_of_nil in Ha);
    by intros.
Qed.

(** X18: when both operands satisfy the invariants, have equal dimensions
    and store at least one entry each, and no entry of the right operand meets
    an entry of the left one at the same place with sum zero, [m + rhs]
    returns a matrix of the same dimensions that satisfies the invariants and
    reads at every place the sum of what the operands read there; the nodes
    already in the store are left as they were. *)
Theorem X18_add_without_cancellation self rhs h R1 C1 R2 C2 :
  wf self h R1 C1 -> wf rhs h R2 C2 ->
  nrows self = nrows rhs -> ncols self = ncols rhs ->
  (exists a, in_chains R1 a) -> (exists a, in_chains R2 a) ->
  (forall a b, in_chains R1 a -> in_chains R2 b ->
     fld Node.row h a = fld Node.row h b -> fld Node.col h a = fld Node.col h b ->
     (default 0 (fld Node.el h a) + default 0 (fld Node.el h b))%Z <> 0%Z) ->
  exists res h' R' C',
    __add__ self rhs h = Return res h' /\
    wf res h' R' C' /\ nrows res = nrows self /\ ncols res = ncols self /\
    take (length h) h' = h /\
    forall r c, r < nrows self ->
      entry_at res h' r c = (entry_at self h r c + entry_at rhs h r c)%Z.
Proof. apply add_spec. Qed.

Lemma X18_add_without_cancellation_witness :
  wf sample pair_heap [[0]; [1; 2]] [[1]; [0]; [2]] /\
  wf sample_b pair_heap [[3]; [4]] [[]; [3; 4]; []] /\
  nrows sample = nrows sample_b /\ ncols sample = ncols sample_b /\
  (exists a, in_chains [[0]; [1; 2]] a) /\ (exists a, in_chains [[3]; [4]] a) /\
  (forall a b, in_chains [[0]; [1; 2]] a -> in_chains [[3]; [4]] b ->
     fld Node.row pair_heap a = fld Node.row pair_heap b ->
     fld Node.col pair_heap a = fld Node.col pair_heap b ->
     (default 0 (fld Node.el pair_heap a) + default 0 (fld Node.el pair_heap b))%Z
     <> 0%Z) /\
  exists res h' R' C',
    __add__ sample sample_b pair_heap = Return res h' /\
    wf res h' R' C' /\ nrows res = nrows sample /\ ncols res = ncols sample /\
    take (length pair_heap) h' = pair_heap /\
    forall r c, r < nrows sample ->
      entry_at res h' r c
      = (entry_at sample pair_heap r c + entry_at sample_b pair_heap r c)%Z.
Proof.
  split; [apply wf_sample_pair|]. split; [apply wf_sample_b|].
  split; [reflexivity|]. split; [reflexivity|].
  split; [apply sample_has_node|]. split; [apply sample_b_has_node|].
  split; [apply sample_pair_no_cancel|].
  exact (X18_add_without_cancellation sample sample_b pair_heap _ _ _ _
           wf_sample_pair wf_sample_b eq_refl eq_refl sample_has_node
           sample_b_has_node sample_pair_no_cancel).
Defined.

(** ** How the operations compose *)

Lemma copying_has_node h0 n bound h res R' C' E j :
  copying h0 n bound h res R' C' E -> j < n -> E j <> [] -> exists a, in_chains R' a.
Proof.
  intros Hcp Hj HE. pose proof (cp_wf _ _ _ _ _ _ _ _ Hcp) as Hwf.
  destruct (lookup_lt_is_Some_2 R' j) as [l Hl].
  { rewrite (wf_R _ _ _ _ Hwf), (cp_nrows _ _ _ _ _ _ _ _ Hcp). lia. }
  rewrite <-(cp_rows _ _ _ _ _ _ _ _ Hcp j l Hl) in HE.
  destruct l as [|a l]; [done|]. exists a, j, (a :: l). split; [done|left].
Qed.

Lemma copying_nonzero h0 n bound h res R' C' E :
  copying h0 n bound h res R' C' E ->
  (forall j k x, (k, x) ∈ E j -> x <> 0%Z) -> nonzero h R'.
Proof.
  intros Hcp HE a x (j & l & Hl & Ha) Hx. apply (HE j (key_at Node.col h a)).
  rewrite <-(cp_rows _ _ _ _ _ _ _ _ Hcp j l Hl). unfold entries.
  apply (list_elem_of_fmap_2' _ _ a); [done|]. by rewrite Hx.
Qed.

(** The transposed matrix of a matrix with an entry has an entry. *)
Lemma transposed_has_node self h R C :
  wf self h R C -> (exists a, in_chains R a) ->
  exists res h' R' C',
    transposed self h = Return res h' /\
    wf res h' R' C' /\ (exists a, in_chains R' a) /\
    (nonzero h R -> nonzero h' R').
Proof.
  intros Hwf [a Ha].
  destruct (transposed_copying self h R C Hwf (ex_intro _ a Ha))
    as (res & h' & R' & C' & Hrun & Hcp).
  exists res, h', R', C'. split; [done|]. split; [exact (cp_wf _ _ _ _ _ _ _ _ Hcp)|]. split.
  - pose proof Ha as (c & k & Hk & Hak)%(wf_same _ _ _ _ Hwf).
    apply (copying_has_node _ _ _ _ _ _ _ _ c Hcp).
    + rewrite <-(wf_C _ _ _ _ Hwf). by eapply lookup_lt_Some.
    + rewrite Hk. simpl. destruct k; [by apply elem_of_nil in Hak|done].
  - intros Hnz. apply (copying_nonzero _ _ _ _ _ _ _ _ Hcp). intros j k x Hx.
    destruct (C !! j) as [l|] eqn:Hl; [|by apply elem_of_nil in Hx]. simpl in Hx.
    apply list_elem_of_fmap in Hx as (b & [= _ ->] & Hb).
    pose proof (wf_cols _ _ _ _ Hwf j l Hl) as Hok.
    destruct (fld_is_Some Node.col Node.el h b _ (chain_ok_fixed Hok b Hb)) as [y Hy].
    rewrite Hy. simpl. apply (Hnz b y); [|done].
    apply (wf_same _ _ _ _ Hwf). by exists j, l.
Qed.

Lemma take_take_old (h h1 h2 : heap) :
  take (length h) h1 = h -> take (length h1) h2 = h1 -> take (length h) h2 = h.
Proof.
  intros H1 H2.
  assert (length h <= length h1) as Hle.
  { rewrite <-H1 at 1. rewrite length_take. lia. }
  rewrite <-H2 in H1. rewrite take_take in H1.
  by rewrite Nat.min_l in H1 by lia.
Qed.

Lemma transposed_twice self h R C :
  wf self h R C -> (exists a, in_chains R a) ->
  exists t h1 u h2 R' C',
    transposed self h = Return t h1 /\ transposed t h1 = Return u h2 /\
    wf u h2 R' C' /\ nrows u = nrows self /\ ncols u = ncols self /\
    take (length h) h2 = h /\
    forall r c, r < nrows self -> c < ncols self ->
      entry_at u h2 r c = entry_at self h r c.
Proof.
  intros Hwf Hnode.
  destruct (transposed_spec self h R C Hwf Hnode)
    as (t & h1 & R1 & C1 & Hrun1 & _ & Hnr1 & Hnc1 & Htake1 & Hent1).
  destruct (transposed_has_node self h R C Hwf Hnode)
    as (t' & h1' & R1' & C1' & Hrun1' & Hwf1 & Hnode1 & _).
  rewrite Hrun1 in Hrun1'. injection Hrun1' as <- <-.
  destruct (transposed_spec t h1 R1' C1' Hwf1 Hnode1)
    as (u & h2 & R2 & C2 & Hrun2 & Hwf2 & Hnr2 & Hnc2 & Htake2 & Hent2).
  exists t, h1, u, h2, R2, C2. do 3 (split; [done|]).
  split; [lia|]. split; [lia|]. split; [by apply (take_take_old h h1 h2)|].
  intros r c Hr Hc. rewrite Hent2 by lia. by apply Hent1.
Qed.

(** X19: transposing twice gives back the entries: on a matrix that
    satisfies the invariants and stores at least one entry both calls return,
    and the second result has the dimensions of the source and reads what the
    source reads at every in-range place; the store only grows. *)
Theorem X19_transposed_twice_reads_the_same self h R C :
  wf self h R C -> (exists a, in_chains R a) ->
  exists t h1 u h2 R' C',
    transposed self h = Return t h1 /\ transposed t h1 = Return u h2 /\
    wf u h2 R' C' /\ nrows u = nrows self /\ ncols u = ncols self /\
    take (length h) h2 = h /\
    forall r c, r < nrows self -> c < ncols self ->
      entry_at u h2 r c = entry_at self h r c.
Proof. apply transposed_twice. Qed.

Lemma X19_transposed_twice_reads_the_same_witness :
  wf sample sample_heap [[0]; [1; 2]] [[1]; [0]; [2]] /\
  (exists a, in_chains [[0]; [1; 2]] a) /\
  exists t h1 u h2 R' C',
    transposed sample sample_heap = Return t h1 /\ transposed t h1 = Return u h2 /\
    wf u h2 R' C' /\ nrows u = nrows sample /\ ncols u = ncols sample /\
    take (length sample_heap) h2 = sample_heap /\
    forall r c, r < nrows sample -> c < ncols sample ->
      entry_at u h2 r c = entry_at sample sample_heap r c.
Proof.
  split; [apply wf_sample|]. split; [apply sample_has_node|].
  exact (X19_transposed_twice_reads_the_same sample sample_heap _ _
           wf_sample sample_has_node).
Defined.

Lemma mul_transposed self h R C (v : list Z) :
  wf self h R C -> (exists a, in_chains R a) -> length v = nrows self ->
  exists t h1 res,
    transposed self h = Return t h1 /\
    __mul__ t v h1 = Return res h1 /\ __rmul__ self v h = Return res h.
Proof.
  intros Hwf Hnode Hv.
  destruct (transposed_spec self h R C Hwf Hnode)
    as (t & h1 & R1 & C1 & Hrun1 & _ & Hnr1 & Hnc1 & _ & Hent1).
  destruct (transposed_has_node self h R C Hwf Hnode)
    as (t' & h1' & R1' & C1' & Hrun1' & Hwf1 & Hnode1 & _).
  rewrite Hrun1 in Hrun1'. injection Hrun1' as <- <-.
  exists t, h1. eexists. split; [done|]. split.
  - apply (mul_spec t h1 R1' C1' v Hwf1); [lia|done].
  - rewrite (rmul_spec self h R C v Hwf Hv Hnode). f_equal.
    rewrite Hnr1, Hnc1. apply list_fmap_ext. intros i c Hc.
    apply lookup_seq in Hc as [-> Hc]. simpl.
    apply sum_range_ext. intros r Hr. rewrite Hent1 by lia. lia.
Qed.



Lemma sum_upto_delta n r (g : nat -> Z) :
  r < n ->
  sum_upto n (fun c => ((if decide (r = c) then 1 else 0) * g c)%Z) = g r.
Proof.
  intros Hr. unfold sum_upto.
  replace n with (r + (1 + (n - r - 1))) by lia.
  rewrite sum_range_app, (sum_range_app _ 1).
  rewrite sum_range_zero by (intros k Hk; rewrite decide_False by lia; lia).
  rewrite (sum_range_zero (0 + r + 1)) by (intros k Hk; rewrite decide_False by lia; lia).
  unfold sum_range. simpl. rewrite decide_True by done. lia.
Qed.

Lemma fmap_default_seq (v : list Z) :
  (fun r => default 0%Z (v !! r)) <$> seq 0 (length v) = v.
Proof.
  apply list_eq. intros i. rewrite list_lookup_fmap.
  destruct (v !! i) as [x|] eqn:E.
  - pose proof (lookup_lt_Some _ _ _ E). rewrite lookup_seq_lt by lia. simpl. by rewrite E.
  - apply lookup_ge_None in E. by rewrite lookup_seq_ge by lia.
Qed.

Lemma identity_neutral n (v : list Z) h :
  0 < n -> length v = n ->
  exists self h',
    identity n h = Return self h' /\
    __mul__ self v h' = Return v h' /\ __rmul__ self v h' = Return v h'.
Proof.
  intros Hn Hv.
  destruct (identity_spec n h) as (self & h' & R & C & Hrun & Hnr & Hnc & Hwf & Hget).
  assert (forall i j, i < n -> entry_at self h' i j = if decide (i = j) then 1%Z else 0%Z)
    as Hent by (intros i j Hi; unfold entry_at; by rewrite Hget).
  assert (exists a, in_chains R a) as Hnode.
  { destruct (entry_at_lookup self h' R C 0 0 Hwf) as (l & Hl & Hl0); [lia|].
    rewrite Hent in Hl0 by done. rewrite decide_True in Hl0 by done.
    destruct (lookup_row_nonzero h' l 0) as (a & Ha & _); [by rewrite <-Hl0|].
    by exists a, 0, l. }
  exists self, h'. split; [done|]. split.
  - rewrite (mul_spec self h' R C v Hwf); [|lia|done].
    f_equal. rewrite Hnr, Hnc.
    transitivity ((fun r => default 0%Z (v !! r)) <$> seq 0 (length v));
      [|apply fmap_default_seq].
    rewrite Hv. apply list_fmap_ext. intros i r Hr.
    apply lookup_seq in Hr as [Hri Hr]. simpl in Hri. subst i. simpl.
    rewrite <-(sum_upto_delta n r (fun c => default 0%Z (v !! c))) by done.
    apply sum_range_ext. intros c Hc. by rewrite Hent.
  - rewrite (rmul_spec self h' R C v Hwf); [|lia|done].
    f_equal. rewrite Hnr, Hnc.
    transitivity ((fun r => default 0%Z (v !! r)) <$> seq 0 (length v));
      [|apply fmap_default_seq].
    rewrite Hv. apply list_fmap_ext. intros i c Hc.
    apply lookup_seq in Hc as [Hci Hc]. simpl in Hci. subst i. simpl.
    rewrite <-(sum_upto_delta n c (fun r => default 0%Z (v !! r))) by done.
    apply sum_range_ext. intros r Hr. rewrite Hent by lia.
    destruct (decide (r = c)) as [->|Hne].
    + rewrite decide_True by done. lia.
    + rewrite decide_False by (intros ->; done). lia.
Qed.



(** ** Zero means absent, in the results of [transposed] and [__add__] *)

Lemma insert_entry_values E c v k x :
  (k, x) ∈ insert_entry E c v ->
  (k, x) ∈ E \/ (k = c /\ x = v) \/ (k = c /\ exists x0, (c, x0) ∈ E /\ x = (x0 + v)%Z).
Proof.
  induction E as [|[k' x'] E IH]; simpl.
  - intros [= -> ->]%list_elem_of_singleton. right. by left.
  - destruct (c <? k').
    + intros [[= -> ->]|Hin]%elem_of_cons; [right; by left|by left].
    + destruct (Nat.eqb_spec c k') as [->|Hne].
      * intros [[= -> ->]|Hin]%elem_of_cons.
        -- right. right. split; [done|]. exists x'. split; [left|done].
        -- left. by right.
      * intros [[= -> ->]|Hin]%elem_of_cons; [left; left|].
        destruct (IH Hin) as [H|[H|(-> & x0 & Hx0 & ->)]].
        -- left. by right.
        -- right. by left.
        -- right. right. split; [done|]. exists x0. split; [by right|done].
Qed.

Lemma merge_entries_nonzero F : forall E,
  StronglySorted lt F.*1 ->
  (forall k x, (k, x) ∈ E -> x <> 0%Z) ->
  (forall k v, (k, v) ∈ F -> v <> 0%Z) ->
  (forall k v, (k, v) ∈ F -> no_cancel E k v) ->
  forall k x, (k, x) ∈ merge_entries E F -> x <> 0%Z.
Proof.
  induction F as [|[c v] F IH]; intros E HF HE HFv Hnc k x Hin.
  - by apply (HE k).
  - simpl in HF. apply StronglySorted_cons in HF as [Hall HF].
    change (Forall (lt c) (fst <$> F)) in Hall. rewrite Forall_fmap, Forall_forall in Hall.
    change (merge_entries E ((c, v) :: F)) with (merge_entries (insert_entry E c v) F) in Hin.
    apply (IH (insert_entry E c v) HF) with (k := k); [| | |done].
    + intros k' x' Hx'.
      destruct (insert_entry_values _ _ _ _ _ Hx') as [H|[[-> ->]|(-> & x0 & Hx0 & ->)]].
      * by apply (HE k').
      * apply (HFv c). left.
      * apply (Hnc c v); [left|done].
    + intros k' v' Hv'. apply (HFv k'). by right.
    + intros k' v' Hv' x' Hx'. specialize (Hall _ Hv'). simpl in Hall.
      apply (Hnc k' v'); [by right|]. apply (insert_entry_other _ _ _ _ _ Hx'). lia.
Qed.

Lemma pairs_nonzero self h R C j l k x :
  wf self h R C -> nonzero h R -> R !! j = Some l ->
  (k, x) ∈ pairs Node.col h l -> x <> 0%Z.
Proof.
  intros Hwf Hnz Hl (b & [= _ ->] & Hb)%list_elem_of_fmap.
  pose proof (wf_rows _ _ _ _ Hwf j l Hl) as Hok.
  destruct (fld_is_Some Node.row Node.el h b _ (chain_ok_fixed Hok b Hb)) as [y Hy].
  rewrite Hy. simpl. apply (Hnz b y); [|done]. by exists j, l.
Qed.

Lemma add_keeps_nonzero self rhs h R1 C1 R2 C2 :
  wf self h R1 C1 -> wf rhs h R2 C2 ->
  nrows self = nrows rhs -> ncols self = ncols rhs ->
  (exists a, in_chains R1 a) -> (exists a, in_chains R2 a) ->
  (forall a b, in_chains R1 a -> in_chains R2 b ->
     fld Node.row h a = fld Node.row h b -> fld Node.col h a = fld Node.col h b ->
     (default 0 (fld Node.el h a) + default 0 (fld Node.el h b))%Z <> 0%Z) ->
  nonzero h R1 -> nonzero h R2 ->
  exists res h' R' C',
    __add__ self rhs h = Return res h' /\ wf res h' R' C' /\ nonzero h' R'.
Proof.
  intros Hwf1 Hwf2 Hnr Hnc Hn1 Hn2 Hsum Hnz1 Hnz2.
  destruct (add_copying self rhs h R1 C1 R2 C2 Hwf1 Hwf2 Hnr Hnc Hn1 Hn2 Hsum)
    as (res & h' & R' & C' & Hrun & Hcp).
  exists res, h', R', C'. split; [done|]. split; [exact (cp_wf _ _ _ _ _ _ _ _ Hcp)|].
  apply (copying_nonzero _ _ _ _ _ _ _ _ Hcp). intros j k x Hx.
  destruct (R2 !! j) as [l2|] eqn:Hl2.
  - simpl in Hx. apply (merge_entries_nonzero _ _) with (k := k) in Hx; [done|..].
    + rewrite pairs_keys. exact (ok_sorted _ _ _ _ _ _ _ _ (wf_rows _ _ _ _ Hwf2 j l2 Hl2)).
    + intros k' x' Hx'. destruct (R1 !! j) as [l1|] eqn:Hl1; [|by apply elem_of_nil in Hx'].
      by apply (pairs_nonzero self h R1 C1 j l1 k' x').
    + intros k' v' Hv'. by apply (pairs_nonzero rhs h R2 C2 j l2 k' v').
    + intros k' v' (b & [= -> ->] & Hb)%list_elem_of_fmap.
      pose proof (add_no_cancel self rhs h R1 C1 R2 C2 Hwf1 Hwf2 Hsum j l2 Hl2) as Hall.
      rewrite Forall_forall in Hall. by apply Hall.
  - simpl in Hx. destruct (R1 !! j) as [l1|] eqn:Hl1; [|by apply elem_of_nil in Hx].
    by apply (pairs_nonzero self h R1 C1 j l1 k x).
Qed.

(** X22: [transposed] keeps "zero means absent": on a matrix that satisfies
    the invariants, stores at least one entry and stores no zero, the result
    satisfies the invariants and stores no zero. *)
Theorem X22_transposed_keeps_nonzero self h R C :
  wf self h R C -> (exists a, in_chains R a) -> nonzero h R ->
  exists res h' R' C',
    transposed self h = Return res h' /\ wf res h' R' C' /\ nonzero h' R'.
Proof.
  intros Hwf Hnode Hnz.
  destruct (transposed_has_node self h R C Hwf Hnode)
    as (res & h' & R' & C' & Hrun & Hwf' & _ & Hnz').
  exists res, h', R', C'. split; [done|]. split; [done|]. by apply Hnz'.
Qed.

Lemma sample_nonzero : nonzero sample_heap [[0]; [1; 2]].
Proof.
  intros a x (i & l & Hl & Ha) Hx.
  destruct i as [|[|i]]; [| |done]; injection Hl as <-;
    repeat (apply elem_of_cons in Ha as [->|Ha]); try (by apply elem_of_nil in Ha);
    by injection Hx as <-.
Qed.

Lemma X22_transposed_keeps_nonzero_witness :
  wf sample sample_heap [[0]; [1; 2]] [[1]; [0]; [2]] /\
  (exists a, in_chains [[0]; [1; 2]] a) /\
  nonzero sample_heap [[0]; [1; 2]] /\
  exists res h' R' C',
    transposed sample sample_heap = Return res h' /\ wf res h' R' C' /\ nonzero h' R'.
Proof.
  split; [apply wf_sample|]. split; [apply sample_has_node|].
  split; [apply sample_nonzero|].
  exact (X22_transposed_keeps_nonzero sample sample_heap _ _
           wf_sample sample_has_node sample_nonzero).
Defined.

(** X23: [__add__] keeps "zero means absent" when nothing cancels: if both
    operands satisfy the invariants, have equal dimensions, store at least one
    entry and no zero each, and no entry of the right operand meets an entry of
    the left one at the same place with sum zero, the result satisfies the
    invariants and stores no zero. *)
Theorem X23_add_keeps_nonzero self rhs h R1 C1 R2 C2 :
  wf self h R1 C1 -> wf rhs h R2 C2 ->
  nrows self = nrows rhs -> ncols self = ncols rhs ->
  (exists a, in_chains R1 a) -> (exists a, in_chains R2 a) ->
  (forall a b, in_chains R1 a -> in_chains R2 b ->
     fld Node.row h a = fld Node.row h b -> fld Node.col h a = fld Node.col h b ->
     (default 0 (fld Node.el h a) + default 0 (fld Node.el h b))%Z <> 0%Z) ->
  nonzero h R1 -> nonzero h R2 ->
  exists res h' R' C',
    __add__ self rhs h = Return res h' /\ wf res h' R' C' /\ nonzero h' R'.
Proof. apply add_keeps_nonzero. Qed.

Lemma sample_pair_nonzero : nonzero pair_heap [[0]; [1; 2]].
Proof.
  intros a x (i & l & Hl & Ha) Hx.
  destruct i as [|[|i]]; [| |done]; injection Hl as <-;
    repeat (apply elem_of_cons in Ha as [->|Ha]); try (by apply elem_of_nil in Ha);
    by injection Hx as <-.
Qed.

Lemma sample_b_nonzero : nonzero pair_heap [[3]; [4]].
Proof.
  intros a x (i & l & Hl & Ha) Hx.
  destruct i as [|[|i]]; [| |done]; injection Hl as <-;
    repeat (apply elem_of_cons in Ha as [->|Ha]); try (by apply elem_of_nil in Ha);
    by injection Hx as <-.
Qed.

Lemma X23_add_keeps_nonzero_witness :
  wf sample pair_heap [[0]; [1; 2]] [[1]; [0]; [2]] /\
  wf sample_b pair_heap [[3]; [4]] [[]; [3; 4]; []] /\
  nrows sample = nrows sample_b /\ ncols sample = ncols sample_b /\
  (exists a, in_chains [[0]; [1; 2]] a) /\ (exists a, in_chains [[3]; [4]] a) /\
  (forall a b, in_chains [[0]; [1; 2]] a -> in_chains [[3]; [4]] b ->
     fld Node.row pair_heap a = fld Node.row pair_heap b ->
     fld Node.col pair_heap a = fld Node.col pair_heap b ->
     (default 0 (fld Node.el pair_heap a) + default 0 (fld Node.el pair_heap b))%Z
     <> 0%Z) /\
  nonzero pair_heap [[0]; [1; 2]] /\ nonzero pair_heap [[3]; [4]] /\
  exists res h' R' C',
    __add__ sample sample_b pair_heap = Return res h' /\ wf res h' R' C' /\
    nonzero h' R'.
Proof.
  split; [apply wf_sample_pair|]. split; [apply wf_sample_b|].
  split; [reflexivity|]. split; [reflexivity|].
  split; [apply sample_has_node|]. split; [apply sample_b_has_node|].
  split; [apply sample_pair_no_cancel|].
  split; [apply sample_pair_nonzero|]. split; [apply sample_b_nonzero|].
  exact (X23_add_keeps_nonzero sample sample_b pair_heap _ _ _ _
           wf_sample_pair wf_sample_b eq_refl eq_refl sample_has_node
           sample_b_has_node sample_pair_no_cancel sample_pair_nonzero sample_b_nonzero).
Defined.
